(** * Server-Sent-Events connection registry and dispatch service

    A shallow embedding of
      - [src/features/sse/services/sse-manager.ts]  (class [SSEManager]),
      - [src/features/sse/services/sse-service.ts]  (class [SSEService]),
      - [src/features/sse/services/storage/memory-adapter.ts],
        [json-file-adapter.ts] and [storage-factory.ts]  (the storage
        adapters and their factory),
      - [src/features/sse/config.ts]  ([getSSEConfig]),
      - [src/features/sse/hooks/useSSE.ts]  ([parseSSEEvent] and the
        connection logic of the hook),
    and the properties stated about them.

    Modelling conventions.
      - A JavaScript [Map<string, V>] is an association list in insertion
        order ([JSMap]); a [Set<string>] is a duplicate-free list in insertion
        order ([JSSet]).  The two index maps [userClients] and
        [sessionClients] are never iterated by the registry, only looked up,
        so their outer level is a [gmap]; the sets they hold keep their
        insertion order, which [addClient] relies on to find the oldest
        connection.
      - A client object is stored in the registry under its own [id] and
        the registry only ever reads or writes the object it finds under that
        key, so the registry holds the record itself.  [removeClient] also
        clears [isConnected] on the object it drops; that object is no longer
        part of the registry, and a caller that registers it again passes the
        record as it then stands.
      - [controller] is a handle (a number) of a
        [ReadableStreamDefaultController].  The environment decides on which
        handles [enqueue] and [close] throw ([closedControllers]); every call
        the manager makes on a controller is appended to [io] together with
        its outcome.  The chunk of an [enqueue] is recorded as the text that
        [TextEncoder] turns into bytes.
      - [Date.now()] is an argument of the operations that read the clock:
        a time [now] where it is read once, a function [clock] from the
        client id to the time read while that client is served where a loop
        reads it once per client.
      - [console.*] calls are left out.  The fire-and-forget persistence
        ([void this.saveClientInfo()], [void this.loadClientInfo()]) does
        not touch the maps; it is modelled apart, as functions on the client
        storage that run when the event loop gets to them.
      - A callback subscribed to a storage adapter and an [EventSource] of
        the hook are handles as well; numbers are integral. *)

From Stdlib Require Import ZArith Ascii DecimalString DecimalZ DecimalPos.
From stdpp Require Import gmap strings list fin_maps sorting.

Open Scope string_scope.
Open Scope list_scope.
Open Scope nat_scope.

(** ** JavaScript truthiness of the values the code tests *)

(** [if (s)] for [s : string | undefined]: defined and not the empty string. *)
Definition truthy (s : option string) : option string :=
  match s with
  | Some v => if decide (v = "") then None else Some v
  | None => None
  end.

(** [if (n)] for [n : number | undefined]: defined and not zero. *)
Definition truthyNum (n : option Z) : option Z :=
  match n with
  | Some v => if decide (v = 0%Z) then None else Some v
  | None => None
  end.

(** ** Insertion-ordered containers *)

Module JSMap.
Section Ops.
Context {V : Type}.

Fixpoint get (k : string) (m : list (string * V)) : option V :=
  match m with
  | [] => None
  | (k', v) :: m' => if decide (k' = k) then Some v else get k m'
  end.

(** [Map.prototype.set]: an existing key keeps its position. *)
Fixpoint set (k : string) (v : V) (m : list (string * V)) : list (string * V) :=
  match m with
  | [] => [(k, v)]
  | (k', v') :: m' =>
      if decide (k' = k) then (k, v) :: m' else (k', v') :: set k v m'
  end.

Definition delete (k : string) (m : list (string * V)) : list (string * V) :=
  filter (λ kv, kv.1 ≠ k) m.

Definition keys (m : list (string * V)) : list string := m.*1.

Definition size (m : list (string * V)) : nat := length m.
End Ops.
End JSMap.

Module JSSet.
Definition add (x : string) (s : list string) : list string :=
  if decide (x ∈ s) then s else s ++ [x].

Definition delete (x : string) (s : list string) : list string :=
  filter (λ y, y ≠ x) s.

Definition size (s : list string) : nat := length s.

(** [s.values().next().value] *)
Definition first (s : list string) : option string := head s.
End JSSet.

(** ** Data model *)

Record SSEEvent := mkEvent {
  e_id : option string;
  e_event : string;
  e_data : string;
  e_retry : option Z
}.

Record SSEClient := mkClient {
  c_id : string;
  c_userId : option string;
  c_sessionId : option string;
  c_controller : nat;
  c_lastPing : Z;
  c_isConnected : bool;
  c_events : list string;
  c_retryTimeout : option Z
}.

Definition set_lastPing (t : Z) (c : SSEClient) : SSEClient :=
  {| c_id := c_id c; c_userId := c_userId c; c_sessionId := c_sessionId c;
     c_controller := c_controller c; c_lastPing := t;
     c_isConnected := c_isConnected c; c_events := c_events c;
     c_retryTimeout := c_retryTimeout c |}.

(** [Required<SSEManagerConfig>] *)
Record SSEManagerConfig := mkConfig {
  cfg_heartbeatInterval : Z;
  cfg_maxClientsPerUser : nat;
  cfg_cleanupInterval : Z;
  cfg_eventRetentionTime : Z
}.

(** What the constructor receives: every field optional. *)
Record SSEManagerOptions := mkOptions {
  opt_heartbeatInterval : option Z;
  opt_maxClientsPerUser : option nat;
  opt_cleanupInterval : option Z;
  opt_eventRetentionTime : option Z
}.

(** A call made on a controller, with whether it returned ([true]) or threw. *)
Inductive Effect :=
  | Enqueue (h : nat) (chunk : string) (ok : bool)
  | Close (h : nat) (ok : bool).

Record SSEManager := mkManager {
  clients : list (string * SSEClient);
  userClients : gmap string (list string);
  sessionClients : gmap string (list string);
  heartbeatInterval : bool;      (* the timer handle: [true] while armed *)
  cleanupInterval : bool;
  config : SSEManagerConfig;
  closedControllers : gset nat;  (* environment: [enqueue]/[close] throw *)
  io : list Effect               (* environment: calls made, oldest first *)
}.

Definition with_clients (cl : list (string * SSEClient)) (m : SSEManager) :=
  mkManager cl (userClients m) (sessionClients m) (heartbeatInterval m)
    (cleanupInterval m) (config m) (closedControllers m) (io m).

Definition with_userClients (ix : gmap string (list string)) (m : SSEManager) :=
  mkManager (clients m) ix (sessionClients m) (heartbeatInterval m)
    (cleanupInterval m) (config m) (closedControllers m) (io m).

Definition with_sessionClients (ix : gmap string (list string)) (m : SSEManager) :=
  mkManager (clients m) (userClients m) ix (heartbeatInterval m)
    (cleanupInterval m) (config m) (closedControllers m) (io m).

Definition with_timers (hb cu : bool) (m : SSEManager) :=
  mkManager (clients m) (userClients m) (sessionClients m) hb cu (config m)
    (closedControllers m) (io m).

Definition with_closed (cs : gset nat) (m : SSEManager) :=
  mkManager (clients m) (userClients m) (sessionClients m) (heartbeatInterval m)
    (cleanupInterval m) (config m) cs (io m).

Definition log (e : Effect) (m : SSEManager) :=
  mkManager (clients m) (userClients m) (sessionClients m) (heartbeatInterval m)
    (cleanupInterval m) (config m) (closedControllers m) (io m ++ [e]).

(** ** The wire format: [formatSSEEvent] *)

Definition LF : string := String (ascii_of_nat 10) EmptyString.

(** [`${n}`] for an integral number (below 10^21 in magnitude, where
    JavaScript prints all the digits). *)
Definition numberToString (n : Z) : string := NilZero.string_of_int (Z.to_int n).

Definition formatSSEEvent (event : SSEEvent) : string :=
  let formatted := "" in
  let formatted :=
    match truthy (e_id event) with
    | Some i => formatted +:+ "id: " +:+ i +:+ LF
    | None => formatted
    end in
  let formatted :=
    match truthy (Some (e_event event)) with
    | Some t => formatted +:+ "event: " +:+ t +:+ LF
    | None => formatted
    end in
  let formatted :=
    match truthy (Some (e_data event)) with
    | Some d => formatted +:+ "data: " +:+ d +:+ LF
    | None => formatted
    end in
  let formatted :=
    match truthyNum (e_retry event) with
    | Some r => formatted +:+ "retry: " +:+ numberToString r +:+ LF
    | None => formatted
    end in
  formatted +:+ LF.

(** ** The connection registry: [SSEManager] *)

(** [new SSEManager(config)]: [config.x ?? default]; both timers armed. *)
Definition newSSEManager (o : SSEManagerOptions) : SSEManager :=
  {| clients := [];
     userClients := ∅;
     sessionClients := ∅;
     heartbeatInterval := true;
     cleanupInterval := true;
     config :=
       {| cfg_heartbeatInterval := default 30000%Z (opt_heartbeatInterval o);
          cfg_maxClientsPerUser := default 5 (opt_maxClientsPerUser o);
          cfg_cleanupInterval := default 60000%Z (opt_cleanupInterval o);
          cfg_eventRetentionTime := default 300000%Z (opt_eventRetentionTime o) |};
     closedControllers := ∅;
     io := [] |}.

(** The index half of [removeClient]: with [key] truthy and its set present,
    delete the id from the set and drop the set once it is empty. *)
Definition indexDelete (key : option string) (clientId : string)
    (ix : gmap string (list string)) : gmap string (list string) :=
  match truthy key with
  | None => ix
  | Some k =>
      match ix !! k with
      | None => ix
      | Some s =>
          let s' := JSSet.delete clientId s in
          if decide (JSSet.size s' = 0) then delete k ix else <[k := s']> ix
      end
  end.

Definition removeClient (clientId : string) (m : SSEManager) : SSEManager :=
  match JSMap.get clientId (clients m) with
  | None => m
  | Some client =>
      let m := with_clients (JSMap.delete clientId (clients m)) m in
      let m := with_userClients
                 (indexDelete (c_userId client) clientId (userClients m)) m in
      with_sessionClients
        (indexDelete (c_sessionId client) clientId (sessionClients m)) m
  end.

(** The index half of [addClient]: create the set when missing, then add. *)
Definition indexAdd (k clientId : string) (ix : gmap string (list string))
    : gmap string (list string) :=
  let ix := match ix !! k with None => <[k := []]> ix | Some _ => ix end in
  <[k := JSSet.add clientId (default [] (ix !! k))]> ix.

(** [addClient].  The registry stores the record passed.  When the object
    passed is the very object already registered under its id, the source
    stores it with its [isConnected] flag off ([removeClient] clears the
    flag of the object it drops, before the object is stored again): that
    call is [addClient] of the record with the flag off.  Keys, order,
    indexes and counts do not depend on the flag. *)
Definition addClient (client : SSEClient) (m : SSEManager) : SSEManager :=
  let m := removeClient (c_id client) m in
  let m := with_clients (JSMap.set (c_id client) client (clients m)) m in
  let m :=
    match truthy (c_userId client) with
    | Some u =>
        let m := with_userClients (indexAdd u (c_id client) (userClients m)) m in
        let userClientSet := default [] (userClients m !! u) in
        if decide (cfg_maxClientsPerUser (config m) < JSSet.size userClientSet)
        then
          match truthy (JSSet.first userClientSet) with
          | Some oldestClientId => removeClient oldestClientId m
          | None => m
          end
        else m
    | None => m
    end in
  match truthy (c_sessionId client) with
  | Some s => with_sessionClients (indexAdd s (c_id client) (sessionClients m)) m
  | None => m
  end.

Definition sendToClient (now : Z) (clientId : string) (event : SSEEvent)
    (m : SSEManager) : bool * SSEManager :=
  match JSMap.get clientId (clients m) with
  | None => (false, m)
  | Some client =>
      if negb (c_isConnected client) then (false, m)
      else
        let eventData := formatSSEEvent event in
        if decide (c_controller client ∈ closedControllers m) then
          (* [enqueue] throws: the catch block removes the client *)
          (false, removeClient clientId
                    (log (Enqueue (c_controller client) eventData false) m))
        else
          let m := log (Enqueue (c_controller client) eventData true) m in
          (true, with_clients
                   (JSMap.set clientId (set_lastPing now client) (clients m)) m)
  end.

(** The body shared by the three fan-out loops: call [sendToClient] on each
    id in turn and collect the ids for which it returned [false].  The source
    iterates the live [Set]/[Map]; the only entry a pass can delete is the
    one being visited, which does not disturb the iteration, so the ids
    visited are those present when the loop starts. *)
Fixpoint sendEach (clock : string → Z) (event : SSEEvent) (ids : list string)
    (m : SSEManager) : list string * SSEManager :=
  match ids with
  | [] => ([], m)
  | clientId :: rest =>
      let '(ok, m) := sendToClient (clock clientId) clientId event m in
      let '(failedClients, m) := sendEach clock event rest m in
      (if ok then failedClients else clientId :: failedClients, m)
  end.

(** [ids.forEach(clientId => this.removeClient(clientId))] *)
Definition removeEach (ids : list string) (m : SSEManager) : SSEManager :=
  foldl (λ m clientId, removeClient clientId m) m ids.

Definition sendToUser (clock : string → Z) (userId : string) (event : SSEEvent)
    (m : SSEManager) : SSEManager :=
  match userClients m !! userId with
  | None => m
  | Some userClientSet =>
      let '(failedClients, m) := sendEach clock event userClientSet m in
      removeEach failedClients m
  end.

Definition sendToSession (clock : string → Z) (sessionId : string) (event : SSEEvent)
    (m : SSEManager) : SSEManager :=
  match sessionClients m !! sessionId with
  | None => m
  | Some sessionClientSet =>
      let '(failedClients, m) := sendEach clock event sessionClientSet m in
      removeEach failedClients m
  end.

Definition broadcast (clock : string → Z) (event : SSEEvent) (excludeClientIds : list string)
    (m : SSEManager) : SSEManager :=
  let targets :=
    filter (λ clientId, clientId ∉ excludeClientIds) (JSMap.keys (clients m)) in
  let '(failedClients, m) := sendEach clock event targets m in
  removeEach failedClients m.

Definition getClientCount (m : SSEManager) : nat := JSMap.size (clients m).

Definition getClientCountForUser (userId : string) (m : SSEManager) : nat :=
  match userClients m !! userId with
  | Some s => JSSet.size s
  | None => 0
  end.

Definition getUserClients (userId : string) (m : SSEManager) : list string :=
  match userClients m !! userId with
  | Some s => s
  | None => []
  end.

Definition DQ : string := String (ascii_of_nat 34) EmptyString.

(** [{ event: 'heartbeat', data: JSON.stringify({ timestamp: stamp }) }] *)
Definition heartbeatEvent (stamp : Z) : SSEEvent :=
  {| e_id := None;
     e_event := "heartbeat";
     e_data := "{" +:+ DQ +:+ "timestamp" +:+ DQ +:+ ":" +:+ numberToString stamp +:+ "}";
     e_retry := None |}.

Definition pingClient (stamp now : Z) (clientId : string) (m : SSEManager)
    : bool * SSEManager :=
  sendToClient now clientId (heartbeatEvent stamp) m.

Definition isStale (now : Z) (cfg : SSEManagerConfig) (client : SSEClient) : Prop :=
  (cfg_heartbeatInterval cfg * 2 < now - c_lastPing client)%Z.

#[global] Instance isStale_dec now cfg client : Decision (isStale now cfg client).
Proof. unfold isStale. apply _. Defined.

Definition cleanup (now : Z) (m : SSEManager) : SSEManager :=
  let disconnectedClients :=
    JSMap.keys (filter (λ kc, isStale now (config m) kc.2) (clients m)) in
  removeEach disconnectedClients m.

(** One pass of the closing loop of [destroy]: [close()] throws on a
    controller that is closed already (the error is caught and logged). *)
Definition closeController (m : SSEManager) (kc : string * SSEClient) : SSEManager :=
  let h := c_controller kc.2 in
  with_closed ({[h]} ∪ closedControllers m)
    (log (Close h (bool_decide (h ∉ closedControllers m))) m).

Definition destroy (m : SSEManager) : SSEManager :=
  let m := with_timers false false m in
  let m := foldl closeController m (clients m) in
  with_sessionClients ∅ (with_userClients ∅ (with_clients [] m)).

(** ** Calls, runs and reachable states *)

(** The public operations of the registry, and the one thing the
    environment does to it: a controller closing under it (the client went
    away). *)
Inductive Call :=
  | AddClient (client : SSEClient)
  | RemoveClient (clientId : string)
  | SendToClient (now : Z) (clientId : string) (event : SSEEvent)
  | SendToUser (clock : string → Z) (userId : string) (event : SSEEvent)
  | SendToSession (clock : string → Z) (sessionId : string) (event : SSEEvent)
  | Broadcast (clock : string → Z) (event : SSEEvent) (excludeClientIds : list string)
  | PingClient (stamp now : Z) (clientId : string)
  | Cleanup (now : Z)
  | Destroy
  | ControllerCloses (h : nat).

Definition step (m : SSEManager) (c : Call) : SSEManager :=
  match c with
  | AddClient client => addClient client m
  | RemoveClient clientId => removeClient clientId m
  | SendToClient now clientId event => (sendToClient now clientId event m).2
  | SendToUser clock userId event => sendToUser clock userId event m
  | SendToSession clock sessionId event => sendToSession clock sessionId event m
  | Broadcast clock event excl => broadcast clock event excl m
  | PingClient stamp now clientId => (pingClient stamp now clientId m).2
  | Cleanup now => cleanup now m
  | Destroy => destroy m
  | ControllerCloses h => with_closed ({[h]} ∪ closedControllers m) m
  end.

Definition run (calls : list Call) (m : SSEManager) : SSEManager :=
  foldl step m calls.

(** The send operations. *)
Definition isSend (c : Call) : Prop :=
  match c with
  | SendToClient _ _ _ | SendToUser _ _ _ | SendToSession _ _ _
  | Broadcast _ _ _ | PingClient _ _ _ => True
  | _ => False
  end.

Definition reachable (o : SSEManagerOptions) (m : SSEManager) : Prop :=
  ∃ calls, m = run calls (newSSEManager o).

(** ** Registry invariants *)

(** The ids of the clients whose field [f] is truthy and equal to [k], in
    the order of the primary map. *)
Definition idsBy (f : SSEClient → option string) (k : string)
    (cl : list (string * SSEClient)) : list string :=
  (filter (λ kc, truthy (f kc.2) = Some k) cl).*1.

Definition nonempty (s : list string) : option (list string) :=
  match s with [] => None | _ => Some s end.

(** An index holds, for every key, exactly the ids that carry the key, in
    registration order, and no entry for a key nobody carries. *)
Definition indexOk (f : SSEClient → option string)
    (ix : gmap string (list string)) (cl : list (string * SSEClient)) : Prop :=
  ∀ k, ix !! k = nonempty (idsBy f k cl).

Definition keysOk (m : SSEManager) : Prop := NoDup (JSMap.keys (clients m)).

Definition userIndexOk (m : SSEManager) : Prop :=
  indexOk c_userId (userClients m) (clients m).

Definition sessionIndexOk (m : SSEManager) : Prop :=
  indexOk c_sessionId (sessionClients m) (clients m).

(** The invariant of the data model, for one index. *)
Definition atMostOneSet (ix : gmap string (list string)) : Prop :=
  ∀ clientId k1 k2 s1 s2,
    ix !! k1 = Some s1 → clientId ∈ s1 →
    ix !! k2 = Some s2 → clientId ∈ s2 → k1 = k2.

Definition noDangling (ix : gmap string (list string))
    (cl : list (string * SSEClient)) : Prop :=
  ∀ k s clientId, ix !! k = Some s → clientId ∈ s → clientId ∈ JSMap.keys cl.

Definition noEmptySet (ix : gmap string (list string)) : Prop :=
  ∀ k, ix !! k ≠ Some [].

Definition indexInvariant (m : SSEManager) : Prop :=
  atMostOneSet (userClients m) ∧ atMostOneSet (sessionClients m)
  ∧ noDangling (userClients m) (clients m)
  ∧ noDangling (sessionClients m) (clients m)
  ∧ noEmptySet (userClients m) ∧ noEmptySet (sessionClients m).

Definition ceilingOk (m : SSEManager) : Prop :=
  ∀ userId, (getClientCountForUser userId m ≤ cfg_maxClientsPerUser (config m))%nat.

(** No registered connection has the empty string for its id. *)
Definition idsNonEmpty (m : SSEManager) : Prop :=
  "" ∉ JSMap.keys (clients m).


(** ** Sequences of [addClient] and [removeClient] calls *)










(** ** The client side of the wire format *)

Definition isLF (c : ascii) : bool := Ascii.eqb c (ascii_of_nat 10).

Fixpoint hasLF (s : string) : bool :=
  match s with
  | EmptyString => false
  | String c s' => isLF c || hasLF s'
  end.

(** [text.split('\n')] *)
Fixpoint lines (s : string) : list string :=
  match s with
  | EmptyString => [EmptyString]
  | String c s' =>
      if isLF c then EmptyString :: lines s'
      else match lines s' with
           | l :: ls => String c l :: ls
           | [] => [String c EmptyString]
           end
  end.

Fixpoint stripPrefix (p s : string) : option string :=
  match p with
  | EmptyString => Some s
  | String a p' =>
      match s with
      | EmptyString => None
      | String b s' => if Ascii.eqb a b then stripPrefix p' s' else None
      end
  end.

(** Take the line [name: value] off the front when it is there. *)
Definition takeField (name : string) (ls : list string) : option string * list string :=
  match ls with
  | l :: rest =>
      match stripPrefix (name +:+ ": ") l with
      | Some v => (Some v, rest)
      | None => (None, ls)
      end
  | [] => (None, [])
  end.

Definition parseNumber (s : string) : option Z :=
  Z.of_int <$> NilZero.int_of_string s.

(** Modelled from the spec: the parser of the wire format on the client side
    is not part of the sources (the browser's [EventSource] does it; the
    [parseSSEEvent] of the [useSSE] hook reads the payload of a message the
    browser has parsed already, not the wire text).  It reads what section 6
    says is written: the lines [id: ], [event: ], [data: ], [retry: ] in
    this order, each one only when present, then the blank line that ends
    the event.  A field whose line is absent is absent from the event
    ([type] and [data], which every event has, are then the empty
    string). *)
Definition parseSSEWire (text : string) : option SSEEvent :=
  let ls := lines text in
  let '(i, ls) := takeField "id" ls in
  let '(t, ls) := takeField "event" ls in
  let '(d, ls) := takeField "data" ls in
  let '(r, ls) := takeField "retry" ls in
  match ls with
  | [EmptyString; EmptyString] =>
      match r with
      | None => Some (mkEvent i (default "" t) (default "" d) None)
      | Some digits =>
          n ← parseNumber digits;
          Some (mkEvent i (default "" t) (default "" d) (Some n))
      end
  | _ => None
  end.

(** The events the formatter writes without loss. *)
Definition wireSafe (event : SSEEvent) : Prop :=
  hasLF (e_event event) = false
  ∧ hasLF (e_data event) = false
  ∧ match e_id event with
    | Some i => i ≠ "" ∧ hasLF i = false
    | None => True
    end
  ∧ match e_retry event with
    | Some r => r ≠ 0%Z ∧ (- 2 ^ 53 < r < 2 ^ 53)%Z
    | None => True
    end.

(** ** The dispatch service: [SSEService] *)

(** What awaiting [publish] gives: the promise resolves to a boolean, or it
    rejects. *)
Inductive PublishResult :=
  | Resolves (ok : bool)
  | Rejects.

(** [SSEStorageAdapter], as far as the service uses it. *)
Class SSEStorageAdapter (A : Type) := {
  isAvailable : A → bool;
  publish : string → string → A → PublishResult * A
}.

(** ** The storage adapters *)

(** [StoredEvent], the entry the two buffering adapters keep. *)
Record StoredEvent := mkStored {
  se_id : string;
  se_channel : string;
  se_message : string;
  se_timestamp : Z
}.

(** [array.slice(start)] and [array.slice(0, stop)] for an integral
    argument: a negative one counts from the end of the array. *)
Definition sliceFrom {X} (start : Z) (l : list X) : list X :=
  if (start <? 0)%Z then drop (Z.to_nat (Z.max (Z.of_nat (length l) + start) 0)) l
  else drop (Z.to_nat start) l.

Definition sliceTo {X} (stop : Z) (l : list X) : list X :=
  if (stop <? 0)%Z then take (Z.to_nat (Z.max (Z.of_nat (length l) + stop) 0)) l
  else take (Z.to_nat stop) l.

(** [{ id: `${channel}-${Date.now()}-${Math.random()}`, channel, message,
    timestamp: Date.now() }]: [idTime] and [now] are the two readings of the
    clock, [rnd] is the text of the random number. *)
Definition storedEvent (idTime : Z) (rnd : string) (now : Z)
    (channel message : string) : StoredEvent :=
  {| se_id := channel +:+ "-" +:+ numberToString idTime +:+ "-" +:+ rnd;
     se_channel := channel;
     se_message := message;
     se_timestamp := now |}.

(** [events.push(event)], then
    [if (events.length > maxEvents) events = events.slice(-maxEvents)];
    [maxEvents] is an integral number. *)
Definition pushEvent (maxEvents : Z) (event : StoredEvent)
    (events : list StoredEvent) : list StoredEvent :=
  let events := events ++ [event] in
  if decide (maxEvents < Z.of_nat (length events))%Z
  then sliceFrom (- maxEvents) events
  else events.

(** A call of a subscriber's callback, with whether it returned ([true]) or
    threw; a callback is a handle (a number), the environment decides which
    ones throw. *)
Inductive Notification :=
  | Notify (callback : nat) (message : string) (ok : bool).

(** The notifying loop of [publish]: every callback of the channel's set is
    called with the message, in the order of subscription; an error it
    throws is caught and logged. *)
Definition notifySubscribers (subscribers : gmap string (list nat))
    (throwing : gset nat) (channel message : string) : list Notification :=
  match subscribers !! channel with
  | Some channelSubscribers =>
      (λ callback, Notify callback message (bool_decide (callback ∉ throwing)))
        <$> channelSubscribers
  | None => []
  end.

(** [subscribe]: create the channel's set when missing, then [Set.add]. *)
Definition addSubscriber (channel : string) (callback : nat)
    (subscribers : gmap string (list nat)) : gmap string (list nat) :=
  let subscribers :=
    match subscribers !! channel with
    | None => <[channel := []]> subscribers
    | Some _ => subscribers
    end in
  let s := default [] (subscribers !! channel) in
  <[channel := if decide (callback ∈ s) then s else s ++ [callback]]> subscribers.

(** [sorted.sort((a, b) => b.timestamp - a.timestamp)]: the sort of an array
    is stable, so the events come out from the newest to the oldest and
    events of one timestamp keep the order they have in the buffer. *)
Fixpoint insertByTimestamp (e : StoredEvent) (sorted : list StoredEvent)
    : list StoredEvent :=
  match sorted with
  | [] => [e]
  | x :: rest =>
      if (se_timestamp x <=? se_timestamp e)%Z then e :: sorted
      else x :: insertByTimestamp e rest
  end.

Definition sortNewestFirst (events : list StoredEvent) : list StoredEvent :=
  foldr insertByTimestamp [] events.

(** The first half of [getChannelEvents]: filter, sort, slice; [limit] is
    the optional argument, 10 when left out. *)
Definition channelEvents (channel : string) (limit : option Z)
    (events : list StoredEvent) : list StoredEvent :=
  sliceTo (default 10%Z limit)
    (sortNewestFirst (filter (λ e, se_channel e = channel) events)).

(** [{ event: event.channel, data: event.message, id: event.id }] *)
Definition toSSEEvent (e : StoredEvent) : SSEEvent :=
  {| e_id := Some (se_id e); e_event := se_channel e; e_data := se_message e;
     e_retry := None |}.

(** [MemoryStorageAdapter].  The last four fields are the environment: the
    callbacks that throw, the calls made on callbacks so far, and what
    [Date.now()] and [Math.random()] give to the adapter when it is driven
    through the interface of the service. *)
Record MemoryStorageAdapter := mkMemory {
  mem_events : list StoredEvent;
  mem_maxEvents : Z;
  mem_subscribers : gmap string (list nat);
  mem_throwing : gset nat;
  mem_notified : list Notification;
  mem_clock : Z;
  mem_random : string
}.

Module Memory.
(** [new MemoryStorageAdapter(maxEvents)], [maxEvents = 1000] when left
    out. *)
Definition new (maxEvents : option Z) (throwing : gset nat) (clock : Z)
    (random : string) : MemoryStorageAdapter :=
  mkMemory [] (default 1000%Z maxEvents) ∅ throwing [] clock random.

Definition publish (idTime : Z) (rnd : string) (now : Z) (channel message : string)
    (a : MemoryStorageAdapter) : bool * MemoryStorageAdapter :=
  let event := storedEvent idTime rnd now channel message in
  (true,
   mkMemory (pushEvent (mem_maxEvents a) event (mem_events a)) (mem_maxEvents a)
     (mem_subscribers a) (mem_throwing a)
     (mem_notified a
      ++ notifySubscribers (mem_subscribers a) (mem_throwing a) channel message)
     (mem_clock a) (mem_random a)).

Definition subscribe (channel : string) (callback : nat)
    (a : MemoryStorageAdapter) : MemoryStorageAdapter :=
  mkMemory (mem_events a) (mem_maxEvents a)
    (addSubscriber channel callback (mem_subscribers a)) (mem_throwing a)
    (mem_notified a) (mem_clock a) (mem_random a).

Definition unsubscribe (channel : string) (a : MemoryStorageAdapter)
    : MemoryStorageAdapter :=
  mkMemory (mem_events a) (mem_maxEvents a)
    (delete channel (mem_subscribers a)) (mem_throwing a)
    (mem_notified a) (mem_clock a) (mem_random a).

Definition isAvailable (a : MemoryStorageAdapter) : bool := true.

Definition getChannelEvents (channel : string) (limit : option Z)
    (a : MemoryStorageAdapter) : list SSEEvent :=
  toSSEEvent <$> channelEvents channel limit (mem_events a).

Definition clearEvents (a : MemoryStorageAdapter) : MemoryStorageAdapter :=
  mkMemory [] (mem_maxEvents a) (mem_subscribers a) (mem_throwing a)
    (mem_notified a) (mem_clock a) (mem_random a).
End Memory.

#[global] Instance memoryAdapter : SSEStorageAdapter MemoryStorageAdapter := {|
  isAvailable := Memory.isAvailable;
  publish channel message a :=
    let '(ok, a) :=
      Memory.publish (mem_clock a) (mem_random a) (mem_clock a) channel message a in
    (Resolves ok, a)
|}.

(** [JsonFileStorageAdapter]: the same buffer, written to a file after every
    change.  The environment: [jf_file] is the array the file at
    [jf_filePath] parses to, [None] when there is no file or it does not
    parse (the file is written by [saveEvents] only, as the text of an array
    of stored events); [jf_writable] says whether [mkdir] and [writeFile]
    succeed. *)
Record JsonFileStorageAdapter := mkJsonFile {
  jf_filePath : string;
  jf_maxEvents : Z;
  jf_events : list StoredEvent;
  jf_subscribers : gmap string (list nat);
  jf_file : option (list StoredEvent);
  jf_writable : bool;
  jf_throwing : gset nat;
  jf_notified : list Notification
}.

Module JsonFile.
Definition with_events (events : list StoredEvent) (a : JsonFileStorageAdapter)
    : JsonFileStorageAdapter :=
  mkJsonFile (jf_filePath a) (jf_maxEvents a) events (jf_subscribers a)
    (jf_file a) (jf_writable a) (jf_throwing a) (jf_notified a).

(** [loadEvents]: a read or a parse that fails leaves the empty buffer. *)
Definition loadEvents (a : JsonFileStorageAdapter) : JsonFileStorageAdapter :=
  with_events (default [] (jf_file a)) a.

(** [saveEvents]: an error is caught and logged. *)
Definition saveEvents (a : JsonFileStorageAdapter) : JsonFileStorageAdapter :=
  if jf_writable a then
    mkJsonFile (jf_filePath a) (jf_maxEvents a) (jf_events a) (jf_subscribers a)
      (Some (jf_events a)) (jf_writable a) (jf_throwing a) (jf_notified a)
  else a.

(** [new JsonFileStorageAdapter(filePath, maxEvents)], once the load the
    constructor starts has finished (the constructor does not wait for it;
    what is published while the load is pending is outside this model). *)
Definition new (filePath : string) (maxEvents : option Z)
    (file : option (list StoredEvent)) (writable : bool) (throwing : gset nat)
    : JsonFileStorageAdapter :=
  loadEvents
    (mkJsonFile filePath (default 1000%Z maxEvents) [] ∅ file writable throwing []).

(** [publish] on an adapter whose initial load has finished, so that
    nothing replaces the buffer between the push and the write. *)
Definition publish (idTime : Z) (rnd : string) (now : Z) (channel message : string)
    (a : JsonFileStorageAdapter) : bool * JsonFileStorageAdapter :=
  let event := storedEvent idTime rnd now channel message in
  let a := with_events (pushEvent (jf_maxEvents a) event (jf_events a)) a in
  let a := saveEvents a in
  (true,
   mkJsonFile (jf_filePath a) (jf_maxEvents a) (jf_events a) (jf_subscribers a)
     (jf_file a) (jf_writable a) (jf_throwing a)
     (jf_notified a
      ++ notifySubscribers (jf_subscribers a) (jf_throwing a) channel message)).

Definition subscribe (channel : string) (callback : nat)
    (a : JsonFileStorageAdapter) : JsonFileStorageAdapter :=
  mkJsonFile (jf_filePath a) (jf_maxEvents a) (jf_events a)
    (addSubscriber channel callback (jf_subscribers a))
    (jf_file a) (jf_writable a) (jf_throwing a) (jf_notified a).

Definition unsubscribe (channel : string) (a : JsonFileStorageAdapter)
    : JsonFileStorageAdapter :=
  mkJsonFile (jf_filePath a) (jf_maxEvents a) (jf_events a)
    (delete channel (jf_subscribers a))
    (jf_file a) (jf_writable a) (jf_throwing a) (jf_notified a).

Definition isAvailable (a : JsonFileStorageAdapter) : bool := true.

Definition getChannelEvents (channel : string) (limit : option Z)
    (a : JsonFileStorageAdapter) : list SSEEvent :=
  toSSEEvent <$> channelEvents channel limit (jf_events a).

Definition clearEvents (a : JsonFileStorageAdapter) : JsonFileStorageAdapter :=
  saveEvents (with_events [] a).
End JsonFile.

(** An adapter that is down: [isAvailable] answers as told, [publish] rejects. *)
Record BrokenAdapter := mkBroken { broken_available : bool }.

#[global] Instance brokenAdapter : SSEStorageAdapter BrokenAdapter := {|
  isAvailable a := broken_available a;
  publish _ _ a := (Rejects, a)
|}.

Definition REDIS_CHANNEL : string := "sse:events".

Section Service.
(** [data: unknown] and the two [JSON.stringify] calls made on it;
    [None] is a call that throws (a cyclic value, a [BigInt]). *)
Context {Payload : Type}.
Context (stringifyEvent : Payload → Z → option string).
Context (stringifyEnvelope : string → string → Payload → Z → option string).
Context {A : Type} `{SSEStorageAdapter A}.

Record SSEService := mkService {
  sseManager : SSEManager;
  storageAdapter : A
}.

(** The private [sendToUser] of the service.  [now] is the time stamped on
    the event, [clock] the clock of the registry, [later] the time stamped
    on the envelope. *)
Definition serviceSendToUser (now : Z) (clock : string → Z) (later : Z)
    (userId eventType : string) (data : Payload) (s : SSEService)
    : bool * SSEService :=
  match stringifyEvent data now with
  | None => (false, s)                       (* outer catch *)
  | Some payload =>
      let event := mkEvent None eventType payload None in
      let mgr := sendToUser clock userId event (sseManager s) in
      if isAvailable (storageAdapter s) then
        match stringifyEnvelope userId eventType data later with
        | None => (true, mkService mgr (storageAdapter s))   (* inner catch *)
        | Some message =>
            match publish REDIS_CHANNEL message (storageAdapter s) with
            | (Resolves _, a) => (true, mkService mgr a)
            | (Rejects, a) => (true, mkService mgr a)        (* inner catch *)
            end
        end
      else (true, mkService mgr (storageAdapter s))
  end.

Definition sendNotification now clock later userId data :=
  serviceSendToUser now clock later userId "notification" data.
Definition sendReelUploadProgress now clock later userId data :=
  serviceSendToUser now clock later userId "reel_upload_progress" data.
Definition sendReelReady now clock later userId data :=
  serviceSendToUser now clock later userId "reel_ready" data.
Definition sendUserUpdate now clock later userId data :=
  serviceSendToUser now clock later userId "user_update" data.
Definition sendSystemAlert now clock later userId data :=
  serviceSendToUser now clock later userId "system_alert" data.
Definition sendCustomEvent now clock later userId eventType data :=
  serviceSendToUser now clock later userId eventType data.
End Service.

(** ** Properties every operation keeps *)

Definition usersOk (m : SSEManager) : Prop := keysOk m ∧ userIndexOk m.

(** No user is above the ceiling, in a registry without the empty id. *)
Definition ceilingInv (m : SSEManager) : Prop :=
  usersOk m ∧ idsNonEmpty m ∧ ceilingOk m.

Definition registryOk (m : SSEManager) : Prop :=
  (1 ≤ cfg_maxClientsPerUser (config m))
  ∧ keysOk m ∧ userIndexOk m ∧ sessionIndexOk m.

(** A property of the manager that survives the steps all operations but
    [addClient] are made of. *)
Class Stable (P : SSEManager → Prop) := {
  stable_remove : ∀ clientId m, P m → P (removeClient clientId m);
  stable_log : ∀ e m, P m → P (log e m);
  stable_touch : ∀ now clientId c m,
    JSMap.get clientId (clients m) = Some c → P m →
    P (with_clients (JSMap.set clientId (set_lastPing now c) (clients m)) m);
  stable_closed : ∀ cs m, P m → P (with_closed cs m);
  stable_timers : ∀ hb cu m, P m → P (with_timers hb cu m);
  stable_clear : ∀ m, P m →
    P (with_sessionClients ∅ (with_userClients ∅ (with_clients [] m)))
}.

(** ** Vocabulary of the statements *)

(** The call [sendToClient] makes on the controller of a connected client. *)
Definition delivery (event : SSEEvent) (m : SSEManager) (c : SSEClient) : Effect :=
  Enqueue (c_controller c) (formatSSEEvent event)
    (bool_decide (c_controller c ∉ closedControllers m)).

(** Membership of a connection in the set its own key selects. *)
Definition inIndex (ix : gmap string (list string)) (key : option string)
    (clientId : string) : Prop :=
  match truthy key with
  | Some k => clientId ∈ default [] (ix !! k)
  | None => False
  end.

(** The connection is gone from the three maps: from the primary map and
    from the sets its user id and its session id select. *)
Definition removedFrom (m : SSEManager) (c : SSEClient) (clientId : string) : Prop :=
  JSMap.get clientId (clients m) = None
  ∧ ¬ inIndex (userClients m) (c_userId c) clientId
  ∧ ¬ inIndex (sessionClients m) (c_sessionId c) clientId.

(** [m'] has for [clientId] what [m] has: the same record, if any, and the
    connection is in every index set it was in. *)
Definition untouched (clientId : string) (m m' : SSEManager) : Prop :=
  JSMap.get clientId (clients m') = JSMap.get clientId (clients m)
  ∧ (∀ k, clientId ∈ default [] (userClients m !! k) →
          clientId ∈ default [] (userClients m' !! k))
  ∧ (∀ k, clientId ∈ default [] (sessionClients m !! k) →
          clientId ∈ default [] (sessionClients m' !! k)).

(** The connections [sendToUser] writes to: those registered for the user
    with their [isConnected] flag on, oldest first.  A connection is
    registered for a user when its [userId] is truthy: for the empty string
    the list is empty. *)
Definition recipients (userId : string) (m : SSEManager) : list SSEClient :=
  (filter (λ kc, truthy (c_userId kc.2) = Some userId ∧ c_isConnected kc.2 = true)
     (clients m)).*2.

(** The calls one pass of a fan-out loop makes for [clientId]. *)
Definition attempt (event : SSEEvent) (m : SSEManager) (clientId : string)
    : list Effect :=
  match JSMap.get clientId (clients m) with
  | Some c => if c_isConnected c then [delivery event m c] else []
  | None => []
  end.

(** ** Sample data *)

Definition sampleClient (clientId : string) (userId sessionId : option string)
    (h : nat) (connected : bool) : SSEClient :=
  mkClient clientId userId sessionId h 0%Z connected [] None.

Definition defaults : SSEManagerOptions := mkOptions None None None None.

Definition ceiling (n : nat) : SSEManagerOptions := mkOptions None (Some n) None None.

Definition notification : SSEEvent := mkEvent None "notification" "{}" None.

(** A clock that stands at 9. *)
Definition at9 : string → Z := λ _, 9%Z.

(** [c1] and [c2] of user [A], [c3] of user [B]; [c2] has lost its stream. *)
Definition threeClients : SSEManager :=
  run [ AddClient (sampleClient "c1" (Some "A") (Some "s1") 1 true);
        AddClient (sampleClient "c2" (Some "A") (Some "s2") 2 true);
        AddClient (sampleClient "c3" (Some "B") (Some "s3") 3 true);
        ControllerCloses 2 ]
      (newSSEManager defaults).

(** A payload that is a string already, a serializer that never throws, and
    a service whose adapter says it is available and rejects every
    [publish]. *)
Definition echoPayload (data : string) (now : Z) : option string := Some data.

Definition echoEnvelope (userId eventType data : string) (now : Z) : option string :=
  Some data.

Definition downService : SSEService (A := BrokenAdapter) :=
  mkService (newSSEManager defaults) (mkBroken true).

(** A registered record whose [isConnected] flag is off: what [addClient]
    leaves when it is given such a record, or the very object that is still
    registered, whose flag [removeClient] has just cleared. *)
Definition offlineClient : SSEManager :=
  addClient (sampleClient "c1" (Some "A") (Some "s1") 1 false)
    (newSSEManager defaults).


(** ** The timers *)

(** The body of the heartbeat timer ([startHeartbeat]): a [heartbeat] event
    stamped with the time read when the timer fires, broadcast with nobody
    excluded. *)
Definition heartbeatTick (stamp : Z) (clock : string → Z) (m : SSEManager)
    : SSEManager :=
  broadcast clock (heartbeatEvent stamp) [] m.

(** The body of the cleanup timer ([startCleanup]). *)
Definition cleanupTick (now : Z) (m : SSEManager) : SSEManager := cleanup now m.

(** ** Vocabulary of the statements about group sends *)

(** A write on the sink of the record goes through: its [isConnected] flag
    is on and its controller has not closed. *)
Definition deliverable (m : SSEManager) (c : SSEClient) : bool :=
  c_isConnected c && bool_decide (c_controller c ∉ closedControllers m).

(** What a group send that visits [clientId] leaves of it: the record with
    its [lastPing] set to the time read for it when the write went through,
    nothing otherwise. *)
Definition afterSend (clock : string → Z) (m : SSEManager) (clientId : string)
    : option SSEClient :=
  c ← JSMap.get clientId (clients m);
  if deliverable m c then Some (set_lastPing (clock clientId) c) else None.

(** The writes a group send makes on the sinks of the records [l], in the
    order of [l]: one for each record whose [isConnected] flag is on. *)
Definition deliveries (event : SSEEvent) (m : SSEManager)
    (l : list (string * SSEClient)) : list Effect :=
  delivery event m <$> (filter (λ kc, c_isConnected kc.2 = true) l).*2.


(** The calls that only keep the books: they register or drop connections
    and never need a sink. *)
Definition isBookkeeping (c : Call) : Prop :=
  match c with
  | AddClient _ | RemoveClient _ | Cleanup _ => True
  | _ => False
  end.

(** The handle a call on a controller was made on. *)
Definition effectHandle (e : Effect) : nat :=
  match e with Enqueue h _ _ => h | Close h _ => h end.

Definition isClose (e : Effect) : bool :=
  match e with Close _ _ => true | Enqueue _ _ _ => false end.

(** ** Runs of a storage adapter *)

(** The calls of the adapter interface that change an adapter; a [Publish]
    carries what the clock and the random generator give to it. *)
Inductive StorageCall :=
  | Publish (idTime : Z) (rnd : string) (now : Z) (channel message : string)
  | Subscribe (channel : string) (callback : nat)
  | Unsubscribe (channel : string)
  | ClearEvents.

Definition memoryStep (a : MemoryStorageAdapter) (c : StorageCall)
    : MemoryStorageAdapter :=
  match c with
  | Publish idTime rnd now channel message =>
      (Memory.publish idTime rnd now channel message a).2
  | Subscribe channel callback => Memory.subscribe channel callback a
  | Unsubscribe channel => Memory.unsubscribe channel a
  | ClearEvents => Memory.clearEvents a
  end.

Definition jsonFileStep (a : JsonFileStorageAdapter) (c : StorageCall)
    : JsonFileStorageAdapter :=
  match c with
  | Publish idTime rnd now channel message =>
      (JsonFile.publish idTime rnd now channel message a).2
  | Subscribe channel callback => JsonFile.subscribe channel callback a
  | Unsubscribe channel => JsonFile.unsubscribe channel a
  | ClearEvents => JsonFile.clearEvents a
  end.

(** The events published since the buffer was last cleared, oldest first. *)
Definition published (calls : list StorageCall) : list StoredEvent :=
  foldl (λ acc c,
           match c with
           | Publish idTime rnd now channel message =>
               acc ++ [storedEvent idTime rnd now channel message]
           | ClearEvents => []
           | _ => acc
           end)
        [] calls.

(** The callbacks subscribed to [channel] after a sequence of calls, in the
    order of their first subscription since the channel was last
    unsubscribed. *)
Definition subscribed (channel : string) (calls : list StorageCall) : list nat :=
  foldl (λ acc c,
           match c with
           | Subscribe ch callback =>
               if decide (ch = channel)
               then (if decide (callback ∈ acc) then acc else acc ++ [callback])
               else acc
           | Unsubscribe ch => if decide (ch = channel) then [] else acc
           | _ => acc
           end)
        [] calls.

(** [a] may come before [b] in what [getChannelEvents] returns. *)
Definition newerFirst (a b : StoredEvent) : Prop :=
  (se_timestamp b ≤ se_timestamp a)%Z.

(** ** The persisted client information of the registry *)

(** The properties of an [SSEEvent] object that hold a string, by name. *)
Definition stringProperties (e : SSEEvent) : list (string * string) :=
  [("event", e_event e); ("data", e_data e)]
  ++ match e_id e with Some i => [("id", i)] | None => [] end.

(** [clearPersistentStorage]; [clearEvents] does not throw. *)
Definition clearPersistentStorage (clientStorage : JsonFileStorageAdapter)
    : JsonFileStorageAdapter :=
  JsonFile.clearEvents clientStorage.

(** [loadClientInfo]: it takes the latest event of the channel
    [client_info] and reads the property [message] of it; with a message
    there, the storage is cleared, whether the message parses or
    [JSON.parse] throws ([parses] says which). *)
Definition loadClientInfo (parses : string → bool)
    (clientStorage : JsonFileStorageAdapter) : JsonFileStorageAdapter :=
  let events := JsonFile.getChannelEvents "client_info" (Some 1%Z) clientStorage in
  match events with
  | e :: _ =>
      match truthy (JSMap.get "message" (stringProperties e)) with
      | Some message =>
          if parses message then clearPersistentStorage clientStorage
          else clearPersistentStorage clientStorage      (* catch *)
      | None => clientStorage
      end
  | [] => clientStorage
  end.

(** What [saveClientInfo] serializes: a row per client, the two indexes and
    a time stamp. *)
Record ClientRow := mkRow {
  row_id : string;
  row_userId : option string;
  row_sessionId : option string;
  row_lastPing : Z;
  row_events : list string;
  row_retryTimeout : option Z
}.

Record ClientInfo := mkClientInfo {
  ci_clients : list ClientRow;
  ci_userClients : gmap string (list string);
  ci_sessionClients : gmap string (list string);
  ci_timestamp : Z
}.

Definition clientInfo (stamp : Z) (m : SSEManager) : ClientInfo :=
  {| ci_clients :=
       (λ kc, mkRow kc.1 (c_userId kc.2) (c_sessionId kc.2) (c_lastPing kc.2)
                (c_events kc.2) (c_retryTimeout kc.2)) <$> clients m;
     ci_userClients := userClients m;
     ci_sessionClients := sessionClients m;
     ci_timestamp := stamp |}.

(** [saveClientInfo]: the snapshot goes to the channel [client_info] of the
    client storage; [stringify] is [JSON.stringify] on the snapshot. *)
Definition saveClientInfo (stringify : ClientInfo → string)
    (stamp idTime : Z) (rnd : string) (now : Z) (m : SSEManager)
    (clientStorage : JsonFileStorageAdapter) : JsonFileStorageAdapter :=
  (JsonFile.publish idTime rnd now "client_info" (stringify (clientInfo stamp m))
     clientStorage).2.

(** ** Configuration: [getSSEConfig] and [StorageFactory] *)

(** What [parseInt] gives. *)
Inductive JSNumber :=
  | Num (n : Z)
  | NaN.

(** [process.env], as far as the configuration reads it. *)
Record ProcessEnv := mkEnv {
  SSE_STORAGE_TYPE : option string;
  SSE_MAX_EVENTS : option string;
  SSE_JSON_FILE_PATH : option string
}.

Record RedisOptions := mkRedisOptions {
  ro_enabled : bool;
  ro_channel : option string
}.

Record JsonFileOptions := mkJsonFileOptions {
  jo_enabled : bool;
  jo_filePath : option string;
  jo_maxEvents : option JSNumber
}.

Record MemoryOnlyOptions := mkMemoryOnlyOptions {
  mo_enabled : bool;
  mo_maxEvents : option JSNumber
}.

Record StorageConfig := mkStorageConfig {
  st_type : string;
  st_redis : option RedisOptions;
  st_jsonFile : option JsonFileOptions;
  st_memoryOnly : option MemoryOnlyOptions
}.

Record SSEServiceConfig := mkServiceConfig {
  sc_storage : StorageConfig;
  sc_manager : option SSEManagerOptions
}.

(** The adapter a [new] expression of the factory builds, with its
    arguments. *)
Inductive Adapter :=
  | NewRedisStorageAdapter
  | NewJsonFileStorageAdapter (filePath : string) (maxEvents : JSNumber)
  | NewMemoryStorageAdapter (maxEvents : JSNumber).

Module StorageFactory.
Definition getDefaultConfig : SSEServiceConfig :=
  {| sc_storage :=
       {| st_type := "json-file";
          st_redis := None;
          st_jsonFile :=
            Some (mkJsonFileOptions true (Some "./sse-events.json") (Some (Num 1000)));
          st_memoryOnly := None |};
     sc_manager := None |}.

Definition getRedisConfig : SSEServiceConfig :=
  {| sc_storage :=
       {| st_type := "redis";
          st_redis := Some (mkRedisOptions true (Some "sse:events"));
          st_jsonFile := None;
          st_memoryOnly := None |};
     sc_manager := None |}.

Definition getJsonFileConfig : SSEServiceConfig :=
  {| sc_storage :=
       {| st_type := "json-file";
          st_redis := None;
          st_jsonFile :=
            Some (mkJsonFileOptions true (Some "./sse-events.json") (Some (Num 1000)));
          st_memoryOnly := None |};
     sc_manager := None |}.

(** [createStorage]; [None] is the [throw] of the [default] case. *)
Definition createStorage (config : SSEServiceConfig) : option Adapter :=
  let storage := sc_storage config in
  if decide (st_type storage = "redis") then Some NewRedisStorageAdapter
  else if decide (st_type storage = "json-file") then
    Some (NewJsonFileStorageAdapter
            (default "./sse-events.json" (st_jsonFile storage ≫= jo_filePath))
            (default (Num 1000) (st_jsonFile storage ≫= jo_maxEvents)))
  else if decide (st_type storage = "memory-only") then
    Some (NewMemoryStorageAdapter
            (default (Num 1000) (st_memoryOnly storage ≫= mo_maxEvents)))
  else None.
End StorageFactory.

Section Config.
(** [parseInt(text, 10)] *)
Context (parseInt : string → JSNumber).

(** [getSSEConfig].  [getJsonFileConfig] takes no parameter, so the file
    path passed to it is dropped. *)
Definition getSSEConfig (env : ProcessEnv) : SSEServiceConfig :=
  let storageType := default "json-file" (SSE_STORAGE_TYPE env) in
  let maxEvents := parseInt (default "1000" (SSE_MAX_EVENTS env)) in
  if decide (storageType = "redis") then StorageFactory.getRedisConfig
  else if decide (storageType = "json-file") then
    let filePath := SSE_JSON_FILE_PATH env in
    StorageFactory.getJsonFileConfig
  else
    let base := StorageFactory.getDefaultConfig in
    {| sc_storage :=
         {| st_type := st_type (sc_storage base);
            st_redis := st_redis (sc_storage base);
            st_jsonFile := st_jsonFile (sc_storage base);
            st_memoryOnly := Some (mkMemoryOnlyOptions true (Some maxEvents)) |};
       sc_manager := sc_manager base |}.
End Config.

Definition getStorageType (env : ProcessEnv) : string :=
  default "json-file" (SSE_STORAGE_TYPE env).

Definition isRedisEnabled (env : ProcessEnv) : bool :=
  bool_decide (getStorageType env = "redis").

Definition isJsonFileEnabled (env : ProcessEnv) : bool :=
  bool_decide (getStorageType env = "json-file").

Definition isMemoryOnlyEnabled (env : ProcessEnv) : bool :=
  bool_decide (getStorageType env = "memory-only").

(** What the constructor of [SSEService] builds: the registry and the
    adapter. *)
Record ServiceSetup := mkSetup {
  setup_manager : SSEManager;
  setup_adapter : Adapter
}.

(** [new SSEService(config)]; [None] when [createStorage] throws. *)
Definition newSSEService (config : option SSEServiceConfig) : option ServiceSetup :=
  let config := default StorageFactory.getDefaultConfig config in
  let manager :=
    newSSEManager (default (mkOptions None None None None) (sc_manager config)) in
  adapter ← StorageFactory.createStorage config;
  Some (mkSetup manager adapter).

(** ** The hook of the browser side: [parseSSEEvent] *)

(** A [MessageEvent] of an [EventSource]: the event name and the data of
    the message, as the browser has taken them from the stream. *)
Record MessageEvent := mkMessage {
  me_type : string;
  me_data : string
}.

(** The [SSEEvent] the hook builds; [retry] is what [parseInt] gives. *)
Record HookSSEEvent := mkHookSSEEvent {
  h_event : string;
  h_data : string;
  h_id : option string;
  h_retry : option JSNumber
}.

Section Hook.
Context (parseInt : string → JSNumber).

(** The body of the loop over the lines. *)
Definition parseLine (sseEvent : HookSSEEvent) (line : string) : HookSSEEvent :=
  match stripPrefix "event: " line with
  | Some v => mkHookSSEEvent v (h_data sseEvent) (h_id sseEvent) (h_retry sseEvent)
  | None =>
  match stripPrefix "data: " line with
  | Some v => mkHookSSEEvent (h_event sseEvent) v (h_id sseEvent) (h_retry sseEvent)
  | None =>
  match stripPrefix "id: " line with
  | Some v => mkHookSSEEvent (h_event sseEvent) (h_data sseEvent) (Some v) (h_retry sseEvent)
  | None =>
  match stripPrefix "retry: " line with
  | Some v =>
      mkHookSSEEvent (h_event sseEvent) (h_data sseEvent) (h_id sseEvent)
        (Some (parseInt v))
  | None => sseEvent
  end end end end.

Definition parseSSEEvent (event : MessageEvent) : HookSSEEvent :=
  foldl parseLine (mkHookSSEEvent (me_type event) "" None None) (lines (me_data event)).
End Hook.

(** ** The hook of the browser side: connecting and reconnecting *)

(** The options of [useSSE] the connection logic reads. *)
Record HookOptions := mkHookOptions {
  autoReconnect : bool;
  maxReconnectAttempts : nat
}.

(** The refs and the state of the hook.  An [EventSource] is a handle (a
    number); [reconnectTimeoutRef] says whether a reconnect timer is
    pending; [hk_created] lists the [EventSource]s constructed so far. *)
Record HookState := mkHook {
  eventSourceRef : option nat;
  reconnectTimeoutRef : bool;
  reconnectAttemptsRef : nat;
  hk_isConnected : bool;
  hk_isConnecting : bool;
  hk_error : option string;
  hk_created : list nat
}.

Definition hookInit : HookState := mkHook None false 0 false false None [].

(** What [new EventSource(url)] does: it returns an [EventSource], or it
    throws, and then [message] is the text the [catch] block reports. *)
Inductive Constructed :=
  | Returns (es : nat)
  | Throws (message : string).

(** What happens to the hook: a call of [connect] (by the mount effect or
    by the component); the [open] and [error] events of the current
    [EventSource] (one that has been closed fires no event); the reconnect
    timer firing; a call of [disconnect].  The two that call [connect]
    carry what the constructor would do. *)
Inductive HookEvent :=
  | Connect (c : Constructed)
  | Opens
  | Errors
  | TimerFires (c : Constructed)
  | Disconnect.

Definition connect (c : Constructed) (st : HookState) : HookState :=
  match eventSourceRef st with
  | Some _ => st                                   (* already connected *)
  | None =>
      match c with
      | Returns es =>
          mkHook (Some es) (reconnectTimeoutRef st) (reconnectAttemptsRef st)
            (hk_isConnected st) true None (hk_created st ++ [es])
      | Throws message =>
          mkHook None (reconnectTimeoutRef st) (reconnectAttemptsRef st)
            (hk_isConnected st) false (Some message) (hk_created st)
      end
  end.

Definition onopen (st : HookState) : HookState :=
  mkHook (eventSourceRef st) (reconnectTimeoutRef st) 0 true false (hk_error st)
    (hk_created st).

Definition onerror (o : HookOptions) (st : HookState) : HookState :=
  let st :=
    mkHook (eventSourceRef st) (reconnectTimeoutRef st) (reconnectAttemptsRef st)
      false false (Some "SSE connection error") (hk_created st) in
  if autoReconnect o && bool_decide (reconnectAttemptsRef st < maxReconnectAttempts o)
  then
    mkHook (eventSourceRef st) true (S (reconnectAttemptsRef st))
      (hk_isConnected st) (hk_isConnecting st) (hk_error st) (hk_created st)
  else st.

Definition disconnect (st : HookState) : HookState :=
  mkHook None false 0 false false (hk_error st) (hk_created st).

Definition hookStep (o : HookOptions) (st : HookState) (ev : HookEvent)
    : HookState :=
  match ev with
  | Connect c => connect c st
  | Opens => match eventSourceRef st with Some _ => onopen st | None => st end
  | Errors => match eventSourceRef st with Some _ => onerror o st | None => st end
  | TimerFires c =>
      if reconnectTimeoutRef st then
        connect c
          (mkHook (eventSourceRef st) false (reconnectAttemptsRef st)
             (hk_isConnected st) (hk_isConnecting st) (hk_error st) (hk_created st))
      else st
  | Disconnect => disconnect st
  end.

(** * Proofs *)

(** * Insertion-ordered maps and sets *)

Section JSMapFacts.
Context {V : Type}.
Implicit Types (m : list (string * V)) (k : string) (v : V).

Lemma get_None m k : JSMap.get k m = None ↔ k ∉ JSMap.keys m.
Proof.
  unfold JSMap.keys. induction m as [|[k' v'] m IH]; csimpl.
  - split; [intros _; apply not_elem_of_nil | done].
  - case_decide as Hk.
    + subst. split; [done | intros Hn; exfalso; apply Hn; left].
    + rewrite IH, not_elem_of_cons. intuition congruence.
Qed.

Lemma get_Some_elem m k v : JSMap.get k m = Some v → (k, v) ∈ m.
Proof.
  induction m as [|[k' v'] m IH]; csimpl; [done|].
  case_decide as Hk.
  - intros [= ->]. subst. left.
  - intros Hg. right. auto.
Qed.

Lemma get_Some_key m k v : JSMap.get k m = Some v → k ∈ JSMap.keys m.
Proof.
  intros Hg. apply get_Some_elem in Hg.
  unfold JSMap.keys. apply list_elem_of_fmap. by exists (k, v).
Qed.

Lemma elem_get m k v : NoDup (JSMap.keys m) → (k, v) ∈ m → JSMap.get k m = Some v.
Proof.
  unfold JSMap.keys. induction m as [|[k' v'] m IH]; csimpl.
  - intros _ Hin. by apply elem_of_nil in Hin.
  - intros Hnd Hin. apply NoDup_cons in Hnd as [Hk' Hnd].
    apply elem_of_cons in Hin as [[= <- <-]|Hin].
    + by rewrite decide_True.
    + rewrite decide_False; [auto|].
      intros ->. apply Hk'. apply list_elem_of_fmap. by exists (k, v).
Qed.

Lemma key_get m k : k ∈ JSMap.keys m → ∃ v, JSMap.get k m = Some v.
Proof.
  intros Hk. destruct (JSMap.get k m) as [v|] eqn:Hg; [eauto|].
  by apply get_None in Hg.
Qed.

Lemma delete_absent m k : JSMap.get k m = None → JSMap.delete k m = m.
Proof.
  unfold JSMap.delete. induction m as [|[k' v'] m IH]; csimpl; [done|].
  case_decide as Hk; [done|]. intros Hg.
  rewrite filter_cons_True by done. by rewrite IH.
Qed.

Lemma keys_delete m k :
  JSMap.keys (JSMap.delete k m) = JSSet.delete k (JSMap.keys m).
Proof.
  unfold JSMap.keys, JSMap.delete, JSSet.delete.
  induction m as [|[k' v'] m IH]; csimpl; [done|].
  destruct (decide (k' = k)) as [->|Hk].
  - rewrite !filter_cons_False by tauto. done.
  - rewrite !filter_cons_True by done. csimpl. by rewrite IH.
Qed.

Lemma get_delete_eq m k : JSMap.get k (JSMap.delete k m) = None.
Proof.
  apply get_None. rewrite keys_delete. unfold JSSet.delete.
  rewrite list_elem_of_filter. tauto.
Qed.

Lemma get_delete_ne m k k' :
  k ≠ k' → JSMap.get k' (JSMap.delete k m) = JSMap.get k' m.
Proof.
  intros Hne. unfold JSMap.delete.
  induction m as [|[k0 v0] m IH]; csimpl; [done|].
  destruct (decide (k0 = k)) as [->|Hk].
  - rewrite filter_cons_False by tauto.
    by rewrite decide_False.
  - rewrite filter_cons_True by done. csimpl. by rewrite IH.
Qed.

Lemma delete_delete m k k' :
  JSMap.delete k (JSMap.delete k' m) = JSMap.delete k' (JSMap.delete k m).
Proof.
  unfold JSMap.delete. rewrite !list_filter_filter.
  apply list_filter_iff. tauto.
Qed.

Lemma delete_app m1 m2 k :
  JSMap.delete k (m1 ++ m2) = JSMap.delete k m1 ++ JSMap.delete k m2.
Proof. unfold JSMap.delete. apply filter_app. Qed.

Lemma NoDup_keys_delete m k :
  NoDup (JSMap.keys m) → NoDup (JSMap.keys (JSMap.delete k m)).
Proof. rewrite keys_delete. apply NoDup_filter. Qed.

Lemma set_absent m k v : JSMap.get k m = None → JSMap.set k v m = m ++ [(k, v)].
Proof.
  induction m as [|[k' v'] m IH]; csimpl; [done|].
  case_decide; [done|]. intros Hg. by rewrite IH.
Qed.

Lemma keys_set_present m k v v' :
  JSMap.get k m = Some v → JSMap.keys (JSMap.set k v' m) = JSMap.keys m.
Proof.
  unfold JSMap.keys. induction m as [|[k0 v0] m IH]; csimpl; [done|].
  case_decide as Hk; csimpl.
  - by subst.
  - intros Hg. by rewrite IH.
Qed.

Lemma get_set_eq m k v : JSMap.get k (JSMap.set k v m) = Some v.
Proof.
  induction m as [|[k0 v0] m IH]; csimpl.
  - by rewrite decide_True.
  - case_decide as Hk; csimpl; [by rewrite decide_True|].
    by rewrite decide_False.
Qed.

Lemma get_set_ne m k k' v :
  k ≠ k' → JSMap.get k' (JSMap.set k v m) = JSMap.get k' m.
Proof.
  intros Hne. induction m as [|[k0 v0] m IH]; csimpl.
  - by rewrite decide_False.
  - destruct (decide (k0 = k)) as [->|Hk]; csimpl.
    + by rewrite !decide_False.
    + by rewrite IH.
Qed.

End JSMapFacts.

Lemma set_delete_absent (s : list string) x : x ∉ s → JSSet.delete x s = s.
Proof.
  intros Hx. unfold JSSet.delete. induction s as [|y s IH]; [done|].
  apply not_elem_of_cons in Hx as [Hxy Hx].
  rewrite filter_cons_True by done. by rewrite IH.
Qed.

Lemma set_add_absent (s : list string) x : x ∉ s → JSSet.add x s = s ++ [x].
Proof. intros Hx. unfold JSSet.add. by rewrite decide_False. Qed.

Lemma set_delete_not_elem (s : list string) x : x ∉ JSSet.delete x s.
Proof. unfold JSSet.delete. rewrite list_elem_of_filter. tauto. Qed.

Lemma set_delete_elem (s : list string) x y :
  y ∈ JSSet.delete x s ↔ y ≠ x ∧ y ∈ s.
Proof. unfold JSSet.delete. by rewrite list_elem_of_filter. Qed.

(** * The indexes follow the primary map *)

Lemma nonempty_Some s s' : nonempty s = Some s' → s' = s ∧ s ≠ [].
Proof. destruct s; simpl; [done|]. by intros [= <-]. Qed.

Lemma nonempty_None s : nonempty s = None → s = [].
Proof. by destruct s. Qed.

Lemma nonempty_ne s : s ≠ [] → nonempty s = Some s.
Proof. by destruct s. Qed.

Lemma indexAdd_insert k clientId (ix : gmap string (list string)) :
  indexAdd k clientId ix = <[k := JSSet.add clientId (default [] (ix !! k))]> ix.
Proof.
  unfold indexAdd. destruct (ix !! k) as [s|] eqn:Hk; simpl.
  - by rewrite Hk.
  - by rewrite lookup_insert_eq, insert_insert_eq.
Qed.

Section IndexFacts.
Context (f : SSEClient → option string).
Implicit Types (cl : list (string * SSEClient)) (ix : gmap string (list string)).
Implicit Types (k clientId : string) (c : SSEClient).

Lemma idsBy_app k cl1 cl2 :
  idsBy f k (cl1 ++ cl2) = idsBy f k cl1 ++ idsBy f k cl2.
Proof. unfold idsBy. by rewrite filter_app, fmap_app. Qed.

Lemma idsBy_cons k clientId c cl :
  idsBy f k ((clientId, c) :: cl)
  = if decide (truthy (f c) = Some k) then clientId :: idsBy f k cl
    else idsBy f k cl.
Proof. unfold idsBy. rewrite filter_cons. simpl. by case_decide. Qed.

Lemma elem_idsBy k clientId cl :
  clientId ∈ idsBy f k cl ↔ ∃ c, (clientId, c) ∈ cl ∧ truthy (f c) = Some k.
Proof.
  unfold idsBy. rewrite list_elem_of_fmap. split.
  - intros [[i c] [-> Hin]]. apply list_elem_of_filter in Hin as [Hf Hin].
    by exists c.
  - intros (c & Hin & Hf). exists (clientId, c). split; [done|].
    by apply list_elem_of_filter.
Qed.

Lemma idsBy_keys k clientId cl :
  clientId ∈ idsBy f k cl → clientId ∈ JSMap.keys cl.
Proof.
  rewrite elem_idsBy. intros (c & Hin & _).
  unfold JSMap.keys. apply list_elem_of_fmap. by exists (clientId, c).
Qed.

Lemma NoDup_idsBy k cl : NoDup (JSMap.keys cl) → NoDup (idsBy f k cl).
Proof.
  unfold JSMap.keys. induction cl as [|[i c] cl IH]; csimpl.
  - intros _. apply NoDup_nil_2.
  - intros Hnd. apply NoDup_cons in Hnd as [Hi Hnd].
    rewrite idsBy_cons. case_decide; [|auto].
    apply NoDup_cons. split; [|auto].
    intros Hin. by apply idsBy_keys in Hin.
Qed.

Lemma idsBy_delete k clientId cl :
  idsBy f k (JSMap.delete clientId cl) = JSSet.delete clientId (idsBy f k cl).
Proof.
  unfold JSMap.delete, JSSet.delete.
  induction cl as [|[i c] cl IH]; [done|].
  rewrite idsBy_cons. destruct (decide (i = clientId)) as [->|Hi].
  - rewrite filter_cons_False by tauto.
    case_decide; [|done]. by rewrite filter_cons_False by tauto.
  - rewrite filter_cons_True by done. rewrite idsBy_cons.
    case_decide; [|done]. rewrite filter_cons_True by done. by rewrite IH.
Qed.

Lemma idsBy_elem_carries k clientId c cl :
  NoDup (JSMap.keys cl) → JSMap.get clientId cl = Some c →
  clientId ∈ idsBy f k cl ↔ truthy (f c) = Some k.
Proof.
  intros Hnd Hg. rewrite elem_idsBy. split.
  - intros (c' & Hin & Hf). apply (elem_get _ _ _ Hnd) in Hin. congruence.
  - intros Hf. exists c. split; [|done]. by apply get_Some_elem.
Qed.

Lemma idsBy_delete_other k clientId c cl :
  NoDup (JSMap.keys cl) → JSMap.get clientId cl = Some c →
  truthy (f c) ≠ Some k →
  idsBy f k (JSMap.delete clientId cl) = idsBy f k cl.
Proof.
  intros Hnd Hg Hf. rewrite idsBy_delete. apply set_delete_absent.
  by rewrite (idsBy_elem_carries _ _ _ _ Hnd Hg).
Qed.

Lemma idsBy_set k clientId c c' cl :
  JSMap.get clientId cl = Some c → f c' = f c →
  idsBy f k (JSMap.set clientId c' cl) = idsBy f k cl.
Proof.
  intros Hg Hf. induction cl as [|[i c0] cl IH]; [done|].
  simpl in *. case_decide as Hi.
  - injection Hg as ->. subst i. rewrite !idsBy_cons, Hf. done.
  - rewrite !idsBy_cons, IH by done. done.
Qed.

Lemma indexOk_delete ix cl clientId c :
  NoDup (JSMap.keys cl) → JSMap.get clientId cl = Some c →
  indexOk f ix cl →
  indexOk f (indexDelete (f c) clientId ix) (JSMap.delete clientId cl).
Proof.
  intros Hnd Hg Hok k. unfold indexDelete.
  destruct (truthy (f c)) as [k0|] eqn:Hf.
  - assert (Hin : clientId ∈ idsBy f k0 cl)
      by by apply (idsBy_elem_carries _ _ _ _ Hnd Hg).
    rewrite (Hok k0), nonempty_ne by (intros E; rewrite E in Hin; by apply elem_of_nil in Hin).
    rewrite <- idsBy_delete. unfold JSSet.size.
    destruct (decide (k = k0)) as [->|Hk].
    + case_decide as Hlen.
      * rewrite lookup_delete_eq. apply length_zero_iff_nil in Hlen. by rewrite Hlen.
      * rewrite lookup_insert_eq. symmetry. apply nonempty_ne.
        intros E. by rewrite E in Hlen.
    + assert (Hother : idsBy f k (JSMap.delete clientId cl) = idsBy f k cl).
      { apply (idsBy_delete_other _ _ c); [done..|]. rewrite Hf. congruence. }
      rewrite Hother. case_decide.
      * by rewrite lookup_delete_ne.
      * by rewrite lookup_insert_ne.
  - rewrite (idsBy_delete_other _ _ c); [apply Hok|done..|]. by rewrite Hf.
Qed.

Lemma indexOk_add ix cl clientId c k :
  clientId ∉ JSMap.keys cl → truthy (f c) = Some k →
  indexOk f ix cl →
  indexOk f (indexAdd k clientId ix) (cl ++ [(clientId, c)]).
Proof.
  intros Hfresh Hf Hok k'. rewrite indexAdd_insert, idsBy_app.
  change (idsBy f k' [(clientId, c)]) with (idsBy f k' ((clientId, c) :: [])).
  rewrite idsBy_cons.
  destruct (decide (k' = k)) as [->|Hk].
  - rewrite lookup_insert_eq, decide_True by done.
    assert (Hs : default [] (ix !! k) = idsBy f k cl).
    { rewrite (Hok k). by destruct (idsBy f k cl). }
    rewrite Hs, set_add_absent.
    + symmetry. apply nonempty_ne. by destruct (idsBy f k cl).
    + intros Hin. by apply idsBy_keys in Hin.
  - rewrite lookup_insert_ne by done. rewrite decide_False by congruence.
    rewrite app_nil_r. apply Hok.
Qed.

Lemma indexOk_add_none ix cl clientId c :
  truthy (f c) = None → indexOk f ix cl → indexOk f ix (cl ++ [(clientId, c)]).
Proof.
  intros Hf Hok k. rewrite idsBy_app.
  change (idsBy f k [(clientId, c)]) with (idsBy f k ((clientId, c) :: [])).
  rewrite idsBy_cons, decide_False by congruence.
  rewrite app_nil_r. apply Hok.
Qed.

Lemma indexOk_set ix cl clientId c c' :
  JSMap.get clientId cl = Some c → f c' = f c →
  indexOk f ix cl → indexOk f ix (JSMap.set clientId c' cl).
Proof. intros Hg Hf Hok k. rewrite (idsBy_set _ _ c) by done. apply Hok. Qed.

Lemma indexOk_lookup ix cl k s :
  indexOk f ix cl → ix !! k = Some s → s = idsBy f k cl ∧ s ≠ [].
Proof.
  intros Hok Hk. rewrite (Hok k) in Hk.
  apply nonempty_Some in Hk as [-> ?]. done.
Qed.

Lemma indexOk_default ix cl k :
  indexOk f ix cl → default [] (ix !! k) = idsBy f k cl.
Proof. intros Hok. rewrite (Hok k). by destruct (idsBy f k cl). Qed.

Lemma indexOk_empty : indexOk f ∅ [].
Proof. intros k. by rewrite lookup_empty. Qed.
End IndexFacts.

(** * What each operation does to the fields of the manager *)

Lemma removeClient_clients clientId m :
  clients (removeClient clientId m) = JSMap.delete clientId (clients m).
Proof.
  unfold removeClient. destruct (JSMap.get clientId (clients m)) eqn:Hg; [done|].
  by rewrite delete_absent.
Qed.

Lemma removeClient_userClients clientId m :
  userClients (removeClient clientId m)
  = match JSMap.get clientId (clients m) with
    | Some c => indexDelete (c_userId c) clientId (userClients m)
    | None => userClients m
    end.
Proof. unfold removeClient. by destruct (JSMap.get clientId (clients m)). Qed.

Lemma removeClient_sessionClients clientId m :
  sessionClients (removeClient clientId m)
  = match JSMap.get clientId (clients m) with
    | Some c => indexDelete (c_sessionId c) clientId (sessionClients m)
    | None => sessionClients m
    end.
Proof. unfold removeClient. by destruct (JSMap.get clientId (clients m)). Qed.

Lemma removeClient_env clientId m :
  config (removeClient clientId m) = config m
  ∧ closedControllers (removeClient clientId m) = closedControllers m
  ∧ io (removeClient clientId m) = io m
  ∧ heartbeatInterval (removeClient clientId m) = heartbeatInterval m
  ∧ cleanupInterval (removeClient clientId m) = cleanupInterval m.
Proof. unfold removeClient. by destruct (JSMap.get clientId (clients m)). Qed.

Lemma removeClient_absent clientId m :
  JSMap.get clientId (clients m) = None → removeClient clientId m = m.
Proof. intros Hg. unfold removeClient. by rewrite Hg. Qed.

Lemma removeClient_keysOk clientId m : keysOk m → keysOk (removeClient clientId m).
Proof.
  unfold keysOk. rewrite removeClient_clients. apply NoDup_keys_delete.
Qed.

Lemma removeClient_userIndexOk clientId m :
  keysOk m → userIndexOk m → userIndexOk (removeClient clientId m).
Proof.
  unfold keysOk, userIndexOk. intros Hnd Hok.
  rewrite removeClient_clients, removeClient_userClients.
  destruct (JSMap.get clientId (clients m)) as [c|] eqn:Hg.
  - by apply indexOk_delete.
  - by rewrite delete_absent.
Qed.

Lemma removeClient_sessionIndexOk clientId m :
  keysOk m → sessionIndexOk m → sessionIndexOk (removeClient clientId m).
Proof.
  unfold keysOk, sessionIndexOk. intros Hnd Hok.
  rewrite removeClient_clients, removeClient_sessionClients.
  destruct (JSMap.get clientId (clients m)) as [c|] eqn:Hg.
  - by apply indexOk_delete.
  - by rewrite delete_absent.
Qed.

(** ** [addClient] *)

(** The state [addClient] is in when it reaches the test of the ceiling. *)
Lemma addClient_registered client m :
  let m1 := removeClient (c_id client) m in
  JSMap.set (c_id client) client (clients m1)
  = JSMap.delete (c_id client) (clients m) ++ [(c_id client, client)].
Proof.
  simpl. rewrite removeClient_clients. apply set_absent, get_delete_eq.
Qed.

Lemma keys_snoc_NoDup (cl : list (string * SSEClient)) clientId c :
  NoDup (JSMap.keys cl) → clientId ∉ JSMap.keys cl →
  NoDup (JSMap.keys (cl ++ [(clientId, c)])).
Proof.
  unfold JSMap.keys. intros Hnd Hfresh. rewrite fmap_app. csimpl.
  apply NoDup_app. split_and!; [done| |apply NoDup_singleton].
  intros x Hx Hx'. apply list_elem_of_singleton in Hx'. by subst.
Qed.

Lemma delete_id_fresh (cl : list (string * SSEClient)) clientId :
  clientId ∉ JSMap.keys (JSMap.delete clientId cl).
Proof. apply get_None, get_delete_eq. Qed.

Lemma indexAdd_default k clientId (ix : gmap string (list string)) :
  default [] (indexAdd k clientId ix !! k) = JSSet.add clientId (default [] (ix !! k)).
Proof. by rewrite indexAdd_insert, lookup_insert_eq. Qed.

(** The primary map after [addClient]: the new record goes last, and at
    most one other record leaves. *)
Lemma addClient_clients client m :
  let m1 := removeClient (c_id client) m in
  let cl2 := JSMap.delete (c_id client) (clients m) ++ [(c_id client, client)] in
  clients (addClient client m)
  = match truthy (c_userId client) with
    | Some u =>
        let s := JSSet.add (c_id client) (getUserClients u m1) in
        if decide (cfg_maxClientsPerUser (config m) < JSSet.size s) then
          match truthy (JSSet.first s) with
          | Some oldest => JSMap.delete oldest cl2
          | None => cl2
          end
        else cl2
    | None => cl2
    end.
Proof.
  simpl. unfold addClient, getUserClients. rewrite addClient_registered.
  destruct (removeClient_env (c_id client) m) as (Hcfg & _).
  destruct (truthy (c_userId client)) as [u|]; simpl.
  - rewrite indexAdd_default, Hcfg.
    replace (default [] (userClients (removeClient (c_id client) m) !! u))
      with (match userClients (removeClient (c_id client) m) !! u with
            | Some s => s | None => [] end)
      by by destruct (_ !! u).
    case_decide.
    + destruct (truthy (JSSet.first _)) as [oldest|];
        destruct (truthy (c_sessionId client)); simpl;
        by rewrite ?removeClient_clients.
    + by destruct (truthy (c_sessionId client)).
  - by destruct (truthy (c_sessionId client)).
Qed.

Lemma addClient_keysOk client m : keysOk m → keysOk (addClient client m).
Proof.
  intros Hk. unfold keysOk. rewrite addClient_clients.
  assert (Hcl2 : NoDup (JSMap.keys
            (JSMap.delete (c_id client) (clients m) ++ [(c_id client, client)]))).
  { apply keys_snoc_NoDup; [by apply NoDup_keys_delete | apply delete_id_fresh]. }
  destruct (truthy (c_userId client)) as [u|]; simpl; [|done].
  case_decide; [|done].
  destruct (truthy (JSSet.first _)); [|done]. by apply NoDup_keys_delete.
Qed.

Lemma addClient_userIndexOk client m :
  keysOk m → userIndexOk m → userIndexOk (addClient client m).
Proof.
  intros Hk Hu. unfold addClient.
  rewrite addClient_registered.
  pose proof (removeClient_keysOk (c_id client) m Hk) as Hk1.
  pose proof (removeClient_userIndexOk (c_id client) m Hk Hu) as Hu1.
  unfold keysOk, userIndexOk in Hk1, Hu1. rewrite removeClient_clients in Hk1, Hu1.
  set (m1 := removeClient (c_id client) m) in *.
  set (cl1 := JSMap.delete (c_id client) (clients m)) in *.
  assert (Hfresh : c_id client ∉ JSMap.keys cl1) by apply delete_id_fresh.
  assert (Hsess : ∀ m' ix, userIndexOk m' → userIndexOk (with_sessionClients ix m'))
    by done.
  assert (Hfin : ∀ m', userIndexOk m' →
     userIndexOk match truthy (c_sessionId client) with
       | Some s => with_sessionClients (indexAdd s (c_id client) (sessionClients m')) m'
       | None => m' end).
  { intros m' Hm'. destruct (truthy (c_sessionId client)); auto. }
  apply Hfin.
  destruct (truthy (c_userId client)) as [u|] eqn:Hcu.
  - set (m2 := with_userClients _ _).
    assert (Hk2 : keysOk m2) by (by apply keys_snoc_NoDup).
    assert (Hu2 : userIndexOk m2).
    { unfold userIndexOk, m2. simpl. by apply indexOk_add. }
    destruct (decide _); [|exact Hu2].
    destruct (truthy (JSSet.first _)); [|exact Hu2].
    by apply removeClient_userIndexOk.
  - unfold userIndexOk. simpl. by apply indexOk_add_none.
Qed.

Lemma get_snoc_ne (cl : list (string * SSEClient)) k clientId c :
  k ≠ clientId → JSMap.get k (cl ++ [(clientId, c)]) = JSMap.get k cl.
Proof.
  intros Hne. induction cl as [|[k0 c0] cl IH]; simpl.
  - by rewrite decide_False.
  - by rewrite IH.
Qed.

Lemma delete_snoc_ne (cl : list (string * SSEClient)) k clientId c :
  k ≠ clientId →
  JSMap.delete k (cl ++ [(clientId, c)]) = JSMap.delete k cl ++ [(clientId, c)].
Proof.
  intros Hne. rewrite delete_app. f_equal.
  unfold JSMap.delete. by rewrite filter_cons_True by (simpl; congruence).
Qed.

Lemma delete_snoc_eq (cl : list (string * SSEClient)) clientId c :
  clientId ∉ JSMap.keys cl →
  JSMap.delete clientId (cl ++ [(clientId, c)]) = cl.
Proof.
  intros Hfresh. rewrite delete_app, delete_absent by by apply get_None.
  unfold JSMap.delete. rewrite filter_cons_False by (simpl; tauto).
  by rewrite filter_nil, app_nil_r.
Qed.

Lemma truthy_Some v : v ≠ "" → truthy (Some v) = Some v.
Proof. intros Hv. unfold truthy. by rewrite decide_False. Qed.

Lemma truthy_Some_inv o v : truthy o = Some v → o = Some v ∧ v ≠ "".
Proof.
  destruct o as [w|]; simpl; [|done]. case_decide; [done|]. by intros [= ->].
Qed.

(** Above a ceiling of at least one, the oldest id of the user's set is an
    older connection, not the one being added. *)
Lemma oldest_is_older (s : list string) clientId max :
  1 ≤ max → clientId ∉ s → max < JSSet.size (JSSet.add clientId s) →
  ∃ oldest rest, s = oldest :: rest ∧ JSSet.first (JSSet.add clientId s) = Some oldest
                 ∧ oldest ≠ clientId.
Proof.
  intros Hmax Hfresh Hlen. rewrite set_add_absent in * by done.
  unfold JSSet.size in Hlen. rewrite length_app in Hlen. simpl in Hlen.
  destruct s as [|oldest rest]; simpl in *; [lia|].
  exists oldest, rest. split_and!; [done..|].
  intros ->. apply Hfresh. left.
Qed.

Lemma addClient_sessionIndexOk client m :
  1 ≤ cfg_maxClientsPerUser (config m) →
  keysOk m → userIndexOk m → sessionIndexOk m →
  sessionIndexOk (addClient client m).
Proof.
  intros Hmax Hk Hu Hs. unfold addClient.
  rewrite addClient_registered.
  pose proof (removeClient_keysOk (c_id client) m Hk) as Hk1.
  pose proof (removeClient_userIndexOk (c_id client) m Hk Hu) as Hu1.
  pose proof (removeClient_sessionIndexOk (c_id client) m Hk Hs) as Hs1.
  destruct (removeClient_env (c_id client) m) as (Hcfg & _).
  unfold keysOk, userIndexOk, sessionIndexOk in Hk1, Hu1, Hs1.
  rewrite removeClient_clients in Hk1, Hu1, Hs1.
  set (m1 := removeClient (c_id client) m) in *.
  set (cl1 := JSMap.delete (c_id client) (clients m)) in *.
  assert (Hfresh : c_id client ∉ JSMap.keys cl1) by apply delete_id_fresh.
  (* the last step, on any list of older records *)
  assert (Hfin : ∀ m' cl, clients m' = cl ++ [(c_id client, client)] →
     c_id client ∉ JSMap.keys cl →
     indexOk c_sessionId (sessionClients m') cl →
     sessionIndexOk match truthy (c_sessionId client) with
       | Some s => with_sessionClients (indexAdd s (c_id client) (sessionClients m')) m'
       | None => m' end).
  { intros m' cl Hcl Hf Hok. unfold sessionIndexOk.
    destruct (truthy (c_sessionId client)) as [s|] eqn:Hcs; simpl; rewrite Hcl.
    - by apply indexOk_add.
    - by apply indexOk_add_none. }
  destruct (truthy (c_userId client)) as [u|] eqn:Hcu; [|by apply (Hfin _ cl1)].
  set (m2 := with_userClients _ _).
  destruct (decide _) as [Hover|]; [|by apply (Hfin _ cl1)].
  unfold m2 in Hover. simpl in Hover. rewrite indexAdd_default, Hcfg in Hover.
  rewrite (indexOk_default _ _ _ _ Hu1) in Hover.
  destruct (oldest_is_older (idsBy c_userId u cl1) (c_id client) _ Hmax)
    as (oldest & rest & Hset & Hfirst & Hne); [|done|].
  { intros Hin. by apply idsBy_keys in Hin. }
  assert (Holdest : oldest ∈ JSMap.keys cl1).
  { apply (idsBy_keys c_userId u). rewrite Hset. left. }
  apply key_get in Holdest as [c_old Hold].
  replace (default [] (userClients m2 !! u))
    with (JSSet.add (c_id client) (idsBy c_userId u cl1)).
  2:{ unfold m2. simpl. by rewrite indexAdd_default, (indexOk_default _ _ _ _ Hu1). }
  rewrite Hfirst.
  destruct (decide (oldest = "")) as [->|Hnz]; [by apply (Hfin _ cl1)|].
  rewrite (truthy_Some oldest) by done.
  apply (Hfin _ (JSMap.delete oldest cl1)).
  - rewrite removeClient_clients. unfold m2. simpl. by apply delete_snoc_ne.
  - rewrite keys_delete, set_delete_elem. tauto.
  - rewrite removeClient_sessionClients. unfold m2 at 1. simpl.
    rewrite get_snoc_ne, Hold by done. unfold m2. simpl.
    by apply indexOk_delete.
Qed.

(** * Stable properties and the operations built from the basic steps *)

Section StableFacts.
Context (P : SSEManager → Prop) `{!Stable P}.

Lemma sendToClient_stable now clientId event m :
  P m → P (sendToClient now clientId event m).2.
Proof.
  intros HP. unfold sendToClient.
  destruct (JSMap.get clientId (clients m)) as [c|] eqn:Hg; [|done].
  destruct (c_isConnected c); simpl; [|done].
  case_decide; simpl.
  - by apply stable_remove, stable_log.
  - apply (stable_touch now clientId c (log _ m)); [done|].
    by apply stable_log.
Qed.

Lemma sendEach_stable clock event ids m :
  P m → P (sendEach clock event ids m).2.
Proof.
  revert m. induction ids as [|i ids IH]; intros m HP; simpl; [done|].
  pose proof (sendToClient_stable (clock i) i event m HP) as H1.
  destruct (sendToClient (clock i) i event m) as [ok m1]. simpl in H1.
  specialize (IH m1 H1). by destruct (sendEach clock event ids m1).
Qed.

Lemma removeEach_stable ids m : P m → P (removeEach ids m).
Proof.
  revert m. unfold removeEach.
  induction ids as [|i ids IH]; intros m HP; simpl; [done|].
  by apply IH, stable_remove.
Qed.

Lemma sendToUser_stable clock userId event m :
  P m → P (sendToUser clock userId event m).
Proof.
  intros HP. unfold sendToUser. destruct (userClients m !! userId) as [s|]; [|done].
  pose proof (sendEach_stable clock event s m HP) as H1.
  destruct (sendEach clock event s m) as [failed m1].
  by apply removeEach_stable.
Qed.

Lemma sendToSession_stable clock sessionId event m :
  P m → P (sendToSession clock sessionId event m).
Proof.
  intros HP. unfold sendToSession.
  destruct (sessionClients m !! sessionId) as [s|]; [|done].
  pose proof (sendEach_stable clock event s m HP) as H1.
  destruct (sendEach clock event s m) as [failed m1].
  by apply removeEach_stable.
Qed.

Lemma broadcast_stable clock event excl m : P m → P (broadcast clock event excl m).
Proof.
  intros HP. unfold broadcast.
  pose proof (sendEach_stable clock event
    (filter (λ clientId, clientId ∉ excl) (JSMap.keys (clients m))) m HP) as H1.
  destruct (sendEach clock event _ m) as [failed m1].
  by apply removeEach_stable.
Qed.

Lemma cleanup_stable now m : P m → P (cleanup now m).
Proof. intros HP. unfold cleanup. by apply removeEach_stable. Qed.

Lemma closeAll_stable cl m : P m → P (foldl closeController m cl).
Proof.
  revert m. induction cl as [|kc cl IH]; intros m HP; simpl; [done|].
  apply IH. unfold closeController. by apply stable_closed, stable_log.
Qed.

Lemma destroy_stable m : P m → P (destroy m).
Proof.
  intros HP. unfold destroy.
  apply stable_clear, closeAll_stable. by apply stable_timers.
Qed.

Lemma step_stable call m :
  (∀ client, call = AddClient client → P (addClient client m)) →
  P m → P (step m call).
Proof.
  intros Hadd HP. destruct call; simpl.
  - by apply Hadd.
  - by apply stable_remove.
  - by apply sendToClient_stable.
  - by apply sendToUser_stable.
  - by apply sendToSession_stable.
  - by apply broadcast_stable.
  - by apply sendToClient_stable.
  - by apply cleanup_stable.
  - by apply destroy_stable.
  - by apply stable_closed.
Qed.

Lemma run_stable calls m :
  (∀ client m', P m' → P (addClient client m')) →
  P m → P (run calls m).
Proof.
  intros Hadd. revert m. unfold run.
  induction calls as [|call calls IH]; intros m HP; simpl; [done|].
  apply IH, step_stable; [|done]. intros client _. by apply Hadd.
Qed.
End StableFacts.

(** ** The invariants are stable *)

#[global] Instance usersOk_stable : Stable usersOk.
Proof.
  split.
  - intros clientId m [Hk Hu]. split.
    + by apply removeClient_keysOk.
    + by apply removeClient_userIndexOk.
  - by intros e m.
  - intros now clientId c m Hg [Hk Hu]. split.
    + unfold keysOk in *. simpl. by rewrite (keys_set_present _ _ c).
    + unfold userIndexOk in *. simpl. by apply (indexOk_set _ _ _ _ c).
  - by intros cs m.
  - by intros hb cu m.
  - intros m _. split.
    + apply NoDup_nil_2.
    + apply indexOk_empty.
Qed.

#[global] Instance registryOk_stable : Stable registryOk.
Proof.
  split.
  - intros clientId m (Hmax & Hk & Hu & Hs).
    destruct (removeClient_env clientId m) as (Hcfg & _).
    split_and!.
    + by rewrite Hcfg.
    + by apply removeClient_keysOk.
    + by apply removeClient_userIndexOk.
    + by apply removeClient_sessionIndexOk.
  - by intros e m.
  - intros now clientId c m Hg (Hmax & Hk & Hu & Hs). split_and!.
    + done.
    + unfold keysOk in *. simpl. by rewrite (keys_set_present _ _ c).
    + unfold userIndexOk in *. simpl. by apply (indexOk_set _ _ _ _ c).
    + unfold sessionIndexOk in *. simpl. by apply (indexOk_set _ _ _ _ c).
  - by intros cs m.
  - by intros hb cu m.
  - intros m (Hmax & _). split_and!.
    + done.
    + apply NoDup_nil_2.
    + apply indexOk_empty.
    + apply indexOk_empty.
Qed.

Lemma addClient_config client m : config (addClient client m) = config m.
Proof.
  unfold addClient.
  destruct (removeClient_env (c_id client) m) as (Hcfg & _).
  destruct (truthy (c_userId client)) as [u|]; simpl.
  - destruct (decide _); [destruct (truthy (JSSet.first _))|];
      destruct (truthy (c_sessionId client)); simpl;
      rewrite ?(proj1 (removeClient_env _ _)); simpl; done.
  - by destruct (truthy (c_sessionId client)).
Qed.

Lemma addClient_usersOk client m : usersOk m → usersOk (addClient client m).
Proof.
  intros [Hk Hu]. split; [by apply addClient_keysOk | by apply addClient_userIndexOk].
Qed.

Lemma addClient_registryOk client m : registryOk m → registryOk (addClient client m).
Proof.
  intros (Hmax & Hk & Hu & Hs). split_and!.
  - by rewrite addClient_config.
  - by apply addClient_keysOk.
  - by apply addClient_userIndexOk.
  - by apply addClient_sessionIndexOk.
Qed.

Lemma usersOk_new o : usersOk (newSSEManager o).
Proof. split; [apply NoDup_nil_2 | apply indexOk_empty]. Qed.

Lemma reachable_usersOk o m : reachable o m → usersOk m.
Proof.
  intros [calls ->]. apply run_stable; [apply _ | apply addClient_usersOk | apply usersOk_new].
Qed.

Lemma reachable_registryOk o m :
  1 ≤ default 5 (opt_maxClientsPerUser o) → reachable o m → registryOk m.
Proof.
  intros Hmax [calls ->].
  apply run_stable; [apply _ | apply addClient_registryOk |].
  split_and!; [done | apply NoDup_nil_2 | apply indexOk_empty..].
Qed.

(** * [sendToClient] *)

Lemma indexDelete_not_in key clientId (ix : gmap string (list string)) :
  ¬ inIndex (indexDelete key clientId ix) key clientId.
Proof.
  unfold inIndex, indexDelete. destruct (truthy key) as [k|]; [|tauto].
  destruct (ix !! k) as [s|] eqn:Hk.
  - case_decide.
    + rewrite lookup_delete_eq. simpl. apply not_elem_of_nil.
    + rewrite lookup_insert_eq. simpl. apply set_delete_not_elem.
  - rewrite Hk. simpl. apply not_elem_of_nil.
Qed.

Lemma removeClient_removedFrom clientId c m :
  JSMap.get clientId (clients m) = Some c →
  removedFrom (removeClient clientId m) c clientId.
Proof.
  intros Hg. unfold removedFrom.
  rewrite removeClient_clients, removeClient_userClients,
    removeClient_sessionClients, Hg.
  split_and!; [apply get_delete_eq | apply indexDelete_not_in..].
Qed.

(** C1, as amended: [sendToClient] returns [false] and leaves the registry
    as it is when the id is unknown or the record has [isConnected = false];
    it returns [false] and removes the connection (from the primary map, its
    user index and its session index) when the write on the sink fails;
    otherwise it writes the formatted event, sets [lastPing] to the clock and
    returns [true]. *)
Theorem sendToClient_outcome now clientId event m :
  let r := sendToClient now clientId event m in
  match JSMap.get clientId (clients m) with
  | None => r = (false, m)
  | Some c =>
      if c_isConnected c then
        if decide (c_controller c ∈ closedControllers m) then
          r.1 = false
          ∧ io r.2 = io m ++ [Enqueue (c_controller c) (formatSSEEvent event) false]
          ∧ removedFrom r.2 c clientId
        else
          r.1 = true
          ∧ io r.2 = io m ++ [Enqueue (c_controller c) (formatSSEEvent event) true]
          ∧ JSMap.get clientId (clients r.2) = Some (set_lastPing now c)
          ∧ JSMap.keys (clients r.2) = JSMap.keys (clients m)
          ∧ userClients r.2 = userClients m
          ∧ sessionClients r.2 = sessionClients m
      else r = (false, m)
  end.
Proof.
  cbv zeta. unfold sendToClient.
  destruct (JSMap.get clientId (clients m)) as [c|] eqn:Hg; [|done].
  destruct (c_isConnected c); simpl; [|done].
  case_decide; simpl.
  - split_and!; [done| |].
    + by rewrite (proj1 (proj2 (proj2 (removeClient_env _ _)))).
    + by apply removeClient_removedFrom.
  - split_and!; try done.
    + apply get_set_eq.
    + by apply (keys_set_present _ _ c).
Qed.

(** C1, as stated, fails: a registered record with [isConnected = false]
    makes [sendToClient] return [false], and the connection stays in the
    primary map and in both indexes. *)
Lemma sendToClient_keeps_offline_client :
  let r := sendToClient 7 "c1" notification offlineClient in
  reachable defaults offlineClient
  ∧ (∃ c, JSMap.get "c1" (clients offlineClient) = Some c ∧ c_isConnected c = false)
  ∧ r.1 = false
  ∧ getClientCount r.2 = 1
  ∧ getUserClients "A" r.2 = ["c1"]
  ∧ sessionClients r.2 !! "s1" = Some ["c1"].
Proof.
  cbv zeta. split_and!; [| |vm_compute; reflexivity..].
  - by exists [AddClient (sampleClient "c1" (Some "A") (Some "s1") 1 false)].
  - eexists. split; vm_compute; reflexivity.
Qed.

(** * [destroy] *)

Lemma destroy_maps m :
  clients (destroy m) = [] ∧ userClients (destroy m) = ∅
  ∧ sessionClients (destroy m) = ∅.
Proof. done. Qed.

Lemma sends_after_destroy calls m :
  Forall isSend calls → run calls (destroy m) = destroy m.
Proof.
  unfold run. induction 1 as [|c calls Hc _ IH]; simpl; [done|].
  by destruct c; try done; simpl in *; rewrite IH.
Qed.

(** C9: after [destroy] and any number of send operations, each send
    operation returns without a call on any sink and leaves the manager as
    [destroy] left it; the count stays 0.  (The operations are total
    functions: nothing is thrown.) *)
Theorem send_after_destroy_is_noop m calls stamp now clock clientId userId
    sessionId event excl :
  Forall isSend calls →
  let d := run calls (destroy m) in
  d = destroy m
  ∧ sendToClient now clientId event d = (false, d)
  ∧ sendToUser clock userId event d = d
  ∧ sendToSession clock sessionId event d = d
  ∧ broadcast clock event excl d = d
  ∧ pingClient stamp now clientId d = (false, d)
  ∧ io d = io (destroy m)
  ∧ getClientCount d = 0.
Proof.
  intros Hs. cbv zeta. rewrite (sends_after_destroy calls m Hs).
  split_and!; reflexivity.
Qed.

Lemma send_after_destroy_is_noop_witness :
  Forall isSend [Broadcast at9 notification []; PingClient 9 9 "c1"]
  ∧ let d := run [Broadcast at9 notification []; PingClient 9 9 "c1"]
               (destroy threeClients) in
    d = destroy threeClients
    ∧ sendToClient 9 "c1" notification d = (false, d)
    ∧ sendToUser at9 "A" notification d = d
    ∧ sendToSession at9 "s1" notification d = d
    ∧ broadcast at9 notification [] d = d
    ∧ pingClient 9 9 "c1" d = (false, d)
    ∧ io d = io (destroy threeClients)
    ∧ getClientCount d = 0.
Proof.
  assert (Hs : Forall isSend [Broadcast at9 notification []; PingClient 9 9 "c1"]).
  { repeat apply Forall_cons_2; try apply Forall_nil_2; exact I. }
  split; [exact Hs |
    exact (send_after_destroy_is_noop threeClients _ 9 9 at9 "c1" "A" "s1"
             notification [] Hs)].
Defined.

(** * [cleanup] *)

Lemma filter_ext_elem {A} (P Q : A → Prop) `{!∀ x, Decision (P x)}
    `{!∀ x, Decision (Q x)} (l : list A) :
  (∀ x, x ∈ l → P x ↔ Q x) → filter P l = filter Q l.
Proof.
  induction l as [|x l IH]; intros Hext; [done|].
  rewrite !filter_cons.
  rewrite IH by (intros y Hy; apply Hext; by right).
  assert (Hx : P x ↔ Q x) by (apply Hext; left).
  destruct (decide (P x)), (decide (Q x)); tauto.
Qed.

Lemma filter_all {A} (P : A → Prop) `{!∀ x, Decision (P x)} (l : list A) :
  (∀ x, x ∈ l → P x) → filter P l = l.
Proof.
  induction l as [|x l IH]; intros Hall; [done|].
  rewrite filter_cons_True by (apply Hall; left).
  rewrite IH; [done|]. intros y Hy. apply Hall. by right.
Qed.

Lemma removeEach_clients ids m :
  clients (removeEach ids m) = filter (λ kc, kc.1 ∉ ids) (clients m).
Proof.
  revert m. unfold removeEach. induction ids as [|i ids IH]; intros m; simpl.
  - symmetry. apply filter_all. intros kc _. apply not_elem_of_nil.
  - rewrite IH, removeClient_clients. unfold JSMap.delete.
    rewrite list_filter_filter. apply list_filter_iff.
    intros kc. rewrite not_elem_of_cons. tauto.
Qed.

Lemma removeEach_env ids m :
  config (removeEach ids m) = config m
  ∧ closedControllers (removeEach ids m) = closedControllers m
  ∧ io (removeEach ids m) = io m.
Proof.
  revert m. unfold removeEach. induction ids as [|i ids IH]; intros m; simpl; [done|].
  destruct (IH (removeClient i m)) as (-> & -> & ->).
  destruct (removeClient_env i m) as (-> & -> & -> & _). done.
Qed.

Lemma cleanup_clients now m :
  keysOk m →
  clients (cleanup now m)
  = filter (λ kc, ¬ isStale now (config m) kc.2) (clients m).
Proof.
  intros Hk. unfold cleanup. rewrite removeEach_clients.
  apply filter_ext_elem. intros [k c] Hin.
  simpl. unfold JSMap.keys. rewrite list_elem_of_fmap. split.
  - intros Hn Hst. apply Hn. exists (k, c). split; [done|].
    by apply list_elem_of_filter.
  - intros Hn [[k' c'] [Hk' Hin']]. simpl in Hk'. subst k'.
    apply list_elem_of_filter in Hin' as [Hst Hin'].
    apply (elem_get _ _ _ Hk) in Hin, Hin'. simpl in Hst. congruence.
Qed.

(** C7: in every state of the registry, [cleanup] removes exactly the
    connections with [now - lastPing > 2 * heartbeatInterval]; the others
    stay, in their order, with their records as they were. *)
Theorem cleanup_removes_exactly_stale o now m :
  reachable o m →
  clients (cleanup now m)
  = filter (λ kc, ¬ isStale now (config m) kc.2) (clients m).
Proof.
  intros Hr. apply cleanup_clients. by apply (reachable_usersOk o).
Qed.

Lemma cleanup_removes_exactly_stale_witness :
  reachable defaults threeClients
  ∧ clients (cleanup 70000 threeClients)
    = filter (λ kc, ¬ isStale 70000 (config threeClients) kc.2) (clients threeClients).
Proof.
  assert (Hr : reachable defaults threeClients) by (by eexists).
  split; [exact Hr | exact (cleanup_removes_exactly_stale defaults 70000 threeClients Hr)].
Defined.

(** * The invariant of the indexes *)

Lemma indexOk_atMostOneSet f ix (cl : list (string * SSEClient)) :
  NoDup (JSMap.keys cl) → indexOk f ix cl → atMostOneSet ix.
Proof.
  intros Hnd Hok clientId k1 k2 s1 s2 H1 Hin1 H2 Hin2.
  apply (indexOk_lookup _ _ _ _ _ Hok) in H1 as [-> _], H2 as [-> _].
  apply elem_idsBy in Hin1 as (c1 & Hc1 & Hf1), Hin2 as (c2 & Hc2 & Hf2).
  apply (elem_get _ _ _ Hnd) in Hc1, Hc2. congruence.
Qed.

Lemma indexOk_noDangling f ix (cl : list (string * SSEClient)) :
  indexOk f ix cl → noDangling ix cl.
Proof.
  intros Hok k s clientId Hk Hin.
  apply (indexOk_lookup _ _ _ _ _ Hok) in Hk as [-> _].
  by apply idsBy_keys in Hin.
Qed.

Lemma indexOk_noEmptySet f ix (cl : list (string * SSEClient)) :
  indexOk f ix cl → noEmptySet ix.
Proof.
  intros Hok k Hk. by apply (indexOk_lookup _ _ _ _ _ Hok) in Hk as [_ ?].
Qed.

Lemma registryOk_indexInvariant m : registryOk m → indexInvariant m.
Proof.
  intros (_ & Hk & Hu & Hs). unfold indexInvariant. split_and!.
  - by apply (indexOk_atMostOneSet c_userId _ (clients m)).
  - by apply (indexOk_atMostOneSet c_sessionId _ (clients m)).
  - by apply (indexOk_noDangling c_userId).
  - by apply (indexOk_noDangling c_sessionId).
  - by apply (indexOk_noEmptySet c_userId _ (clients m)).
  - by apply (indexOk_noEmptySet c_sessionId _ (clients m)).
Qed.

(** X3: With a ceiling of at least one connection per user, the invariant of the
    indexes holds in the initial state and after every sequence of public
    operations. *)
Theorem indexInvariant_reachable o m :
  1 ≤ default 5 (opt_maxClientsPerUser o) → reachable o m → indexInvariant m.
Proof.
  intros Hmax Hr. by apply registryOk_indexInvariant, (reachable_registryOk o).
Qed.

Lemma indexInvariant_reachable_witness :
  1 ≤ default 5 (opt_maxClientsPerUser defaults)
  ∧ reachable defaults threeClients
  ∧ indexInvariant threeClients.
Proof.
  assert (H1 : 1 ≤ default 5 (opt_maxClientsPerUser defaults)) by (simpl; lia).
  assert (H2 : reachable defaults threeClients) by (by eexists).
  split_and!; [exact H1 | exact H2 |
    exact (indexInvariant_reachable defaults threeClients H1 H2)].
Defined.

(** C6, at the failing input: with [maxClientsPerUser = 0], [addClient]
    evicts the connection it has just registered and then enters it in the
    session index, where the id stays without a record in the primary map;
    [removeClient] does not find it any more. *)
Theorem addClient_ceiling_zero_breaks_invariant :
  let m := addClient (sampleClient "a" (Some "U") (Some "S") 1 true)
             (newSSEManager (ceiling 0)) in
  reachable (ceiling 0) m
  ∧ getClientCount m = 0
  ∧ sessionClients m !! "S" = Some ["a"]
  ∧ removeClient "a" m = m
  ∧ ¬ indexInvariant m.
Proof.
  cbv zeta. split_and!.
  - by exists [AddClient (sampleClient "a" (Some "U") (Some "S") 1 true)].
  - vm_compute; reflexivity.
  - vm_compute; reflexivity.
  - vm_compute; reflexivity.
  - intros (_ & _ & _ & Hd & _).
    specialize (Hd "S" ["a"] "a" eq_refl).
    assert (Hin : "a" ∈ ["a"]) by left.
    apply Hd in Hin. vm_compute in Hin. by apply elem_of_nil in Hin.
Qed.

(** * The ceiling on the connections of a user *)

(** C3, at the failing input: a connection registered under the empty id
    is never evicted ([if (oldestClientId)] is false for it), and the user's
    count passes the ceiling. *)
Theorem addClient_empty_id_exceeds_ceiling :
  let m := run [ AddClient (sampleClient "" (Some "U") None 1 true);
                 AddClient (sampleClient "b" (Some "U") None 2 true) ]
               (newSSEManager (ceiling 1)) in
  getUserClients "U" m = [""; "b"]
  ∧ getClientCountForUser "U" m = 2
  ∧ cfg_maxClientsPerUser (config m) = 1
  ∧ ¬ ceilingOk m.
Proof.
  cbv zeta. split_and!; [vm_compute; reflexivity..|].
  intros Hc. specialize (Hc "U"). vm_compute in Hc. lia.
Qed.

Lemma getClientCountForUser_idsBy userId m :
  userIndexOk m →
  getClientCountForUser userId m = length (idsBy c_userId userId (clients m)).
Proof.
  intros Hu. unfold getClientCountForUser. rewrite (Hu userId).
  by destruct (idsBy c_userId userId (clients m)).
Qed.

Lemma getUserClients_idsBy userId m :
  userIndexOk m → getUserClients userId m = idsBy c_userId userId (clients m).
Proof.
  intros Hu. unfold getUserClients. rewrite (Hu userId).
  by destruct (idsBy c_userId userId (clients m)).
Qed.

(** X1: The eviction as the data model describes it: with a ceiling of at least
    one, a user at the ceiling and an oldest connection whose id is not the
    empty string, adding a fresh connection for the user removes that oldest
    connection and nothing else, and the count stays at the ceiling. *)
Theorem addClient_evicts_oldest client userId m :
  usersOk m →
  1 ≤ cfg_maxClientsPerUser (config m) →
  truthy (c_userId client) = Some userId →
  c_id client ∉ JSMap.keys (clients m) →
  getClientCountForUser userId m = cfg_maxClientsPerUser (config m) →
  JSSet.first (getUserClients userId m) ≠ Some "" →
  ∃ oldest rest,
    getUserClients userId m = oldest :: rest
    ∧ getUserClients userId (addClient client m) = rest ++ [c_id client]
    ∧ clients (addClient client m)
      = JSMap.delete oldest (clients m) ++ [(c_id client, client)]
    ∧ getClientCountForUser userId (addClient client m)
      = cfg_maxClientsPerUser (config m).
Proof.
  intros [Hk Hu] Hmax Hcu Hfresh Hcount Hfirst.
  pose proof (addClient_usersOk client m (conj Hk Hu)) as [Hk' Hu'].
  assert (Hm1 : removeClient (c_id client) m = m)
    by by apply removeClient_absent, get_None.
  pose proof (addClient_clients client m) as Hcl. simpl in Hcl.
  rewrite Hcu, Hm1 in Hcl. rewrite delete_absent in Hcl by by apply get_None.
  rewrite (getUserClients_idsBy _ _ Hu) in *.
  rewrite (getClientCountForUser_idsBy _ _ Hu) in Hcount.
  assert (Hnin : c_id client ∉ idsBy c_userId userId (clients m)).
  { intros Hin. by apply idsBy_keys in Hin. }
  destruct (oldest_is_older (idsBy c_userId userId (clients m)) (c_id client)
              (cfg_maxClientsPerUser (config m)) Hmax Hnin)
    as (oldest & rest & Hset & Hf & Hne).
  { rewrite set_add_absent by done. unfold JSSet.size. rewrite length_app. simpl. lia. }
  rewrite decide_True in Hcl.
  2:{ rewrite set_add_absent by done. unfold JSSet.size. rewrite length_app. simpl. lia. }
  rewrite Hf in Hcl. rewrite Hset in Hfirst. simpl in Hfirst.
  rewrite truthy_Some in Hcl by congruence.
  rewrite delete_snoc_ne in Hcl by done.
  exists oldest, rest. split; [done|].
  assert (Hafter : idsBy c_userId userId (clients (addClient client m))
                   = rest ++ [c_id client]).
  { rewrite Hcl, idsBy_app, idsBy_delete, Hset.
    change (idsBy c_userId userId [(c_id client, client)])
      with (idsBy c_userId userId ((c_id client, client) :: [])).
    rewrite idsBy_cons, decide_True by done. f_equal.
    unfold JSSet.delete. rewrite filter_cons_False by tauto.
    apply filter_all. intros x Hx Heq. subst x.
    pose proof (NoDup_idsBy c_userId userId _ Hk) as Hnd.
    rewrite Hset in Hnd. by apply NoDup_cons in Hnd as [? _]. }
  split_and!.
  - by rewrite (getUserClients_idsBy _ _ Hu').
  - done.
  - rewrite (getClientCountForUser_idsBy _ _ Hu'), Hafter, <- Hcount, Hset.
    rewrite length_app. simpl. lia.
Qed.

Lemma addClient_evicts_oldest_witness :
  let m := run [ AddClient (sampleClient "x" (Some "U") None 1 true);
                 AddClient (sampleClient "y" (Some "U") None 2 true) ]
               (newSSEManager (ceiling 2)) in
  let z := sampleClient "z" (Some "U") None 3 true in
  ∃ oldest rest,
    getUserClients "U" m = oldest :: rest
    ∧ getUserClients "U" (addClient z m) = rest ++ [c_id z]
    ∧ clients (addClient z m) = JSMap.delete oldest (clients m) ++ [(c_id z, z)]
    ∧ getClientCountForUser "U" (addClient z m) = cfg_maxClientsPerUser (config m).
Proof.
  cbv zeta.
  apply (addClient_evicts_oldest (sampleClient "z" (Some "U") None 3 true) "U").
  - apply (reachable_usersOk (ceiling 2)). by eexists.
  - vm_compute. lia.
  - reflexivity.
  - apply (bool_decide_unpack _). by vm_compute.
  - vm_compute. reflexivity.
  - vm_compute. congruence.
Defined.

(** The scenario of the specification: a ceiling of two, three connections
    [x], [y], [z] of one user registered in this order; [x] is evicted. *)
Example scenario_eviction :
  getUserClients "U"
    (run [ AddClient (sampleClient "x" (Some "U") None 1 true);
           AddClient (sampleClient "y" (Some "U") None 2 true);
           AddClient (sampleClient "z" (Some "U") None 3 true) ]
         (newSSEManager (ceiling 2)))
  = ["y"; "z"].
Proof. vm_compute. reflexivity. Qed.

(** * Fan-out: what a send to a group of ids leaves alone *)

Lemma untouched_refl clientId m : untouched clientId m m.
Proof. by split_and!. Qed.

Lemma untouched_trans clientId m1 m2 m3 :
  untouched clientId m1 m2 → untouched clientId m2 m3 → untouched clientId m1 m3.
Proof.
  intros (Hg & Hu & Hs) (Hg' & Hu' & Hs'). split_and!.
  - by rewrite Hg'.
  - intros k Hin. by apply Hu', Hu.
  - intros k Hin. by apply Hs', Hs.
Qed.

Lemma indexDelete_keeps key other (ix : gmap string (list string)) clientId k :
  clientId ≠ other →
  clientId ∈ default [] (ix !! k) →
  clientId ∈ default [] (indexDelete key other ix !! k).
Proof.
  intros Hne Hin. unfold indexDelete.
  destruct (truthy key) as [k0|]; [|done].
  destruct (ix !! k0) as [s|] eqn:Hk0; [|done].
  destruct (decide (k = k0)) as [->|Hk].
  - rewrite Hk0 in Hin. simpl in Hin.
    assert (Hin' : clientId ∈ JSSet.delete other s) by by apply set_delete_elem.
    case_decide as Hlen.
    + apply length_zero_iff_nil in Hlen. rewrite Hlen in Hin'.
      by apply elem_of_nil in Hin'.
    + by rewrite lookup_insert_eq.
  - case_decide.
    + by rewrite lookup_delete_ne.
    + by rewrite lookup_insert_ne.
Qed.

Lemma removeClient_untouched clientId other m :
  clientId ≠ other → untouched clientId m (removeClient other m).
Proof.
  intros Hne. unfold untouched.
  rewrite removeClient_clients, removeClient_userClients,
    removeClient_sessionClients.
  split_and!.
  - by apply get_delete_ne.
  - intros k Hin. destruct (JSMap.get other (clients m)); [|done].
    by apply indexDelete_keeps.
  - intros k Hin. destruct (JSMap.get other (clients m)); [|done].
    by apply indexDelete_keeps.
Qed.

Lemma sendToClient_untouched now clientId other event m :
  clientId ≠ other → untouched clientId m (sendToClient now other event m).2.
Proof.
  intros Hne. unfold sendToClient.
  destruct (JSMap.get other (clients m)) as [c|] eqn:Hg; [|apply untouched_refl].
  destruct (c_isConnected c); simpl; [|apply untouched_refl].
  case_decide; simpl.
  - by apply (removeClient_untouched clientId other (log _ m)).
  - split_and!; simpl; [|done..]. by apply get_set_ne.
Qed.

Lemma sendToClient_env now clientId event m :
  config (sendToClient now clientId event m).2 = config m
  ∧ closedControllers (sendToClient now clientId event m).2 = closedControllers m.
Proof.
  unfold sendToClient.
  destruct (JSMap.get clientId (clients m)) as [c|]; [|done].
  destruct (c_isConnected c); simpl; [|done].
  case_decide; simpl; [|done].
  by destruct (removeClient_env clientId (log (Enqueue (c_controller c) (formatSSEEvent event) false) m))
    as (-> & -> & _).
Qed.

Lemma sendToClient_io now clientId event m :
  io (sendToClient now clientId event m).2 = io m ++ attempt event m clientId.
Proof.
  unfold sendToClient, attempt, delivery.
  destruct (JSMap.get clientId (clients m)) as [c|]; [|by rewrite app_nil_r].
  destruct (c_isConnected c); simpl; [|by rewrite app_nil_r].
  case_decide as Hc; simpl.
  - rewrite bool_decide_eq_false_2 by tauto.
    by destruct (removeClient_env clientId (log (Enqueue (c_controller c) (formatSSEEvent event) false) m))
      as (_ & _ & -> & _).
  - by rewrite bool_decide_eq_true_2.
Qed.

Lemma sendEach_untouched clock event ids clientId m :
  clientId ∉ ids → untouched clientId m (sendEach clock event ids m).2.
Proof.
  revert m. induction ids as [|i ids IH]; intros m Hnin; simpl.
  - apply untouched_refl.
  - apply not_elem_of_cons in Hnin as [Hne Hnin].
    pose proof (sendToClient_untouched (clock i) clientId i event m Hne) as H1.
    destruct (sendToClient (clock i) i event m) as [ok m1]. simpl in H1.
    specialize (IH m1 Hnin). destruct (sendEach clock event ids m1) as [failed m2].
    simpl in *. by apply (untouched_trans _ _ m1).
Qed.

Lemma sendEach_failed clock event ids m clientId :
  clientId ∈ (sendEach clock event ids m).1 → clientId ∈ ids.
Proof.
  revert m. induction ids as [|i ids IH]; intros m; simpl.
  - done.
  - destruct (sendToClient (clock i) i event m) as [ok m1].
    specialize (IH m1). destruct (sendEach clock event ids m1) as [failed m2].
    simpl in *. destruct ok.
    + intros Hin. right. auto.
    + intros [->|Hin]%elem_of_cons; [left | right; auto].
Qed.

Lemma removeEach_untouched ids clientId m :
  clientId ∉ ids → untouched clientId m (removeEach ids m).
Proof.
  revert m. unfold removeEach. induction ids as [|i ids IH]; intros m Hnin; simpl.
  - apply untouched_refl.
  - apply not_elem_of_cons in Hnin as [Hne Hnin].
    apply (untouched_trans _ _ (removeClient i m)); [|by apply IH].
    by apply removeClient_untouched.
Qed.

Lemma fanout_untouched clock event ids clientId m :
  clientId ∉ ids →
  untouched clientId m
    (let '(failedClients, m') := sendEach clock event ids m in
     removeEach failedClients m').
Proof.
  intros Hnin.
  pose proof (sendEach_untouched clock event ids clientId m Hnin) as H1.
  pose proof (sendEach_failed clock event ids m clientId) as H2.
  destruct (sendEach clock event ids m) as [failed m1]. simpl in *.
  apply (untouched_trans _ _ m1); [done|].
  apply removeEach_untouched. tauto.
Qed.

Lemma sendToUser_untouched clock userId event m clientId c :
  usersOk m →
  JSMap.get clientId (clients m) = Some c →
  c_userId c ≠ Some userId →
  untouched clientId m (sendToUser clock userId event m).
Proof.
  intros [Hk Hu] Hg Hother. unfold sendToUser.
  destruct (userClients m !! userId) as [s|] eqn:Hs; [|apply untouched_refl].
  apply fanout_untouched.
  apply (indexOk_lookup _ _ _ _ _ Hu) in Hs as [-> _].
  rewrite (idsBy_elem_carries _ _ _ c _ Hk Hg).
  intros Hf. by apply truthy_Some_inv in Hf as [? _].
Qed.

(** C10: [sendToUser(U, e)] leaves every connection whose [userId] differs
    from [U] or is absent as it was: the same record under its id (so
    [lastPing] and every other field keep their values) and the same
    membership in the index sets. *)
Theorem sendToUser_frame o clock userId event m clientId c :
  reachable o m →
  JSMap.get clientId (clients m) = Some c →
  c_userId c ≠ Some userId →
  untouched clientId m (sendToUser clock userId event m).
Proof.
  intros Hr. apply sendToUser_untouched. by apply (reachable_usersOk o).
Qed.

Lemma sendToUser_frame_witness :
  reachable defaults threeClients
  ∧ JSMap.get "c3" (clients threeClients)
    = Some (sampleClient "c3" (Some "B") (Some "s3") 3 true)
  ∧ c_userId (sampleClient "c3" (Some "B") (Some "s3") 3 true) ≠ Some "A"
  ∧ untouched "c3" threeClients (sendToUser at9 "A" notification threeClients).
Proof.
  assert (H1 : reachable defaults threeClients) by (by eexists).
  assert (H2 : JSMap.get "c3" (clients threeClients)
               = Some (sampleClient "c3" (Some "B") (Some "s3") 3 true))
    by reflexivity.
  assert (H3 : c_userId (sampleClient "c3" (Some "B") (Some "s3") 3 true) ≠ Some "A")
    by (simpl; congruence).
  split_and!; [exact H1 | exact H2 | exact H3 |
    exact (sendToUser_frame defaults at9 "A" notification threeClients "c3" _ H1 H2 H3)].
Defined.

(** * Fan-out: the calls made on the sinks *)

Lemma attempt_untouched event m m' clientId :
  untouched clientId m m' → closedControllers m' = closedControllers m →
  attempt event m' clientId = attempt event m clientId.
Proof.
  intros (Hg & _) Hc. unfold attempt, delivery. by rewrite Hg, Hc.
Qed.

Lemma flat_map_ext_elem {A B} (f g : A → list B) (l : list A) :
  (∀ x, x ∈ l → f x = g x) → flat_map f l = flat_map g l.
Proof.
  induction l as [|x l IH]; intros Hext; simpl; [done|].
  rewrite (Hext x) by left. f_equal. apply IH. intros y Hy. apply Hext. by right.
Qed.

Lemma sendEach_io clock event ids m :
  NoDup ids →
  io (sendEach clock event ids m).2 = io m ++ flat_map (attempt event m) ids.
Proof.
  revert m. induction ids as [|i ids IH]; intros m Hnd; simpl.
  - by rewrite app_nil_r.
  - apply NoDup_cons in Hnd as [Hi Hnd].
    pose proof (sendToClient_io (clock i) i event m) as Hio.
    pose proof (sendToClient_env (clock i) i event m) as [_ Hcl].
    assert (Hun : ∀ x, x ∈ ids → untouched x m (sendToClient (clock i) i event m).2).
    { intros x Hx. apply sendToClient_untouched. intros ->. done. }
    destruct (sendToClient (clock i) i event m) as [ok m1]. simpl in *.
    specialize (IH m1 Hnd). destruct (sendEach clock event ids m1) as [failed m2].
    simpl in *. rewrite IH, Hio, <- app_assoc. do 2 f_equal.
    apply flat_map_ext_elem. intros x Hx. apply attempt_untouched; auto.
Qed.

Lemma attempts_recipients event m userId (cl : list (string * SSEClient)) :
  (∀ kc, kc ∈ cl → JSMap.get kc.1 (clients m) = Some kc.2) →
  flat_map (attempt event m) (idsBy c_userId userId cl)
  = delivery event m <$>
      (filter (λ kc, truthy (c_userId kc.2) = Some userId ∧ c_isConnected kc.2 = true) cl).*2.
Proof.
  induction cl as [|[k c] cl IH]; intros Hget; [done|].
  rewrite idsBy_cons, filter_cons. simpl.
  assert (IH' : flat_map (attempt event m) (idsBy c_userId userId cl)
     = delivery event m <$> (filter (λ kc, truthy (c_userId kc.2) = Some userId
                                      ∧ c_isConnected kc.2 = true) cl).*2).
  { apply IH. intros kc Hkc. apply Hget. by right. }
  assert (Hk : JSMap.get k (clients m) = Some c) by (apply (Hget (k, c)); left).
  destruct (decide (truthy (c_userId c) = Some userId)) as [Hu|Hu].
  - simpl. unfold attempt at 1. rewrite Hk.
    destruct (c_isConnected c) eqn:Hc.
    + rewrite decide_True by done. csimpl. by rewrite IH'.
    + rewrite decide_False by (intros [_ ?]; done). by rewrite IH'.
  - rewrite decide_False by tauto. done.
Qed.

Lemma truthy_literal o k : truthy o = Some k ↔ o = Some k ∧ k ≠ "".
Proof.
  split; [apply truthy_Some_inv|]. intros [-> Hk]. by apply truthy_Some.
Qed.

Lemma filter_none {A} (P : A → Prop) `{!∀ x, Decision (P x)} (l : list A) :
  (∀ x, x ∈ l → ¬ P x) → filter P l = [].
Proof.
  induction l as [|x l IH]; intros Hall; [done|].
  rewrite filter_cons_False by (apply Hall; left).
  apply IH. intros y Hy. apply Hall. by right.
Qed.

(** The truthiness test spelled out: for a key other than the empty string
    the ids selected are those of the records whose field is the key, and
    the empty string selects nothing. *)
Lemma idsBy_literal f k (cl : list (string * SSEClient)) :
  idsBy f k cl
  = if decide (k = "") then [] else (filter (λ kc, f kc.2 = Some k) cl).*1.
Proof.
  unfold idsBy. destruct (decide (k = "")) as [->|Hk].
  - rewrite filter_none; [done|]. intros kc _ Hf.
    apply truthy_literal in Hf as [_ Hf]. done.
  - f_equal. apply filter_ext_elem. intros kc _. rewrite truthy_literal. tauto.
Qed.

Lemma recipients_literal userId m :
  recipients userId m
  = if decide (userId = "") then []
    else (filter (λ kc, c_userId kc.2 = Some userId ∧ c_isConnected kc.2 = true)
            (clients m)).*2.
Proof.
  unfold recipients. destruct (decide (userId = "")) as [->|Hk].
  - rewrite filter_none; [done|]. intros kc _ [Hf _].
    apply truthy_literal in Hf as [_ Hf]. done.
  - f_equal. apply filter_ext_elem. intros kc _. rewrite truthy_literal. tauto.
Qed.

(** C5, as amended: for a user id [U] other than the empty string,
    [sendToUser(U, e)] makes one write of the formatted event on the sink of
    every registered connection whose [userId] is [U] and whose
    [isConnected] flag is on, oldest connection first, and no other call on
    any sink; for the empty string it makes no call on any sink, whatever
    is registered ([recipients "" m] is empty, see [recipients_literal]). *)
Theorem sendToUser_writes o clock userId event m :
  reachable o m →
  io (sendToUser clock userId event m)
  = io m ++ (delivery event m <$> recipients userId m).
Proof.
  intros Hr. destruct (reachable_usersOk o m Hr) as [Hk Hu].
  unfold sendToUser, recipients.
  rewrite <- (attempts_recipients event m userId (clients m))
    by (intros [k c] Hin; by apply elem_get).
  destruct (userClients m !! userId) as [s|] eqn:Hs.
  - apply (indexOk_lookup _ _ _ _ _ Hu) in Hs as [-> _].
    pose proof (sendEach_io clock event (idsBy c_userId userId (clients m)) m
                  (NoDup_idsBy _ _ _ Hk)) as Hio.
    destruct (sendEach clock event _ m) as [failed m1]. simpl in Hio.
    by rewrite (proj2 (proj2 (removeEach_env failed m1))).
  - rewrite (Hu userId) in Hs. apply nonempty_None in Hs. rewrite Hs.
    by rewrite app_nil_r.
Qed.

Lemma sendToUser_writes_witness :
  reachable defaults threeClients
  ∧ io (sendToUser at9 "A" notification threeClients)
    = io threeClients ++ (delivery notification threeClients <$> recipients "A" threeClients).
Proof.
  assert (H1 : reachable defaults threeClients) by (by eexists).
  split; [exact H1 | exact (sendToUser_writes defaults at9 "A" notification threeClients H1)].
Defined.

(** C5, as stated, fails: the record of [c1] is registered for user [A] with
    [isConnected = false]; [sendToUser("A", e)] makes no call on any sink
    and drops the connection. *)
Lemma sendToUser_skips_offline_client :
  reachable defaults offlineClient
  ∧ getUserClients "A" offlineClient = ["c1"]
  ∧ (∃ c, JSMap.get "c1" (clients offlineClient) = Some c ∧ c_userId c = Some "A")
  ∧ io (sendToUser at9 "A" notification offlineClient) = io offlineClient
  ∧ getClientCount (sendToUser at9 "A" notification offlineClient) = 0.
Proof.
  split_and!; [|vm_compute; reflexivity| |vm_compute; reflexivity..].
  - by exists [AddClient (sampleClient "c1" (Some "A") (Some "s1") 1 false)].
  - eexists. split; vm_compute; reflexivity.
Qed.

(** The scenario of the specification: [c1] and [c2] of user [A], [c3] of
    user [B]; [sendToUser("A", e)] writes to [c1] and [c2], not to [c3], and
    [A] keeps its two connections. *)
Example scenario_send_to_user :
  let m := run [ AddClient (sampleClient "c1" (Some "A") (Some "s1") 1 true);
                 AddClient (sampleClient "c2" (Some "A") (Some "s2") 2 true);
                 AddClient (sampleClient "c3" (Some "B") (Some "s3") 3 true) ]
               (newSSEManager defaults) in
  let m' := sendToUser at9 "A" notification m in
  io m' = [ Enqueue 1 (formatSSEEvent notification) true;
            Enqueue 2 (formatSSEEvent notification) true ]
  ∧ getClientCountForUser "A" m' = 2.
Proof. cbv zeta. split; vm_compute; reflexivity. Qed.

(** * Counting the connections after adds and removes *)











(** * The wire format *)

Lemma append_nil (s : string) : "" +:+ s = s.
Proof. reflexivity. Qed.

Lemma append_cons (x : ascii) (a b : string) :
  String x a +:+ b = String x (a +:+ b).
Proof. reflexivity. Qed.

Ltac norm_append := repeat (rewrite append_cons || rewrite append_nil).

Lemma append_assoc (a b c : string) : (a +:+ b) +:+ c = a +:+ (b +:+ c).
Proof. induction a as [|x a IH]; norm_append; [done|]. by rewrite IH. Qed.

Lemma append_nil_r (a : string) : a +:+ "" = a.
Proof. induction a as [|x a IH]; norm_append; [done|]. by rewrite IH. Qed.

Lemma hasLF_append (a b : string) : hasLF (a +:+ b) = hasLF a || hasLF b.
Proof.
  induction a as [|x a IH]; norm_append; simpl; [done|]. by rewrite IH, orb_assoc.
Qed.

Lemma lines_line (a rest : string) :
  hasLF a = false → lines (a +:+ LF +:+ rest) = a :: lines rest.
Proof.
  induction a as [|x a IH]; norm_append; simpl; [done|].
  intros [Hx Ha]%orb_false_elim. rewrite Hx. by rewrite IH.
Qed.

Lemma stripPrefix_append (p v : string) : stripPrefix p (p +:+ v) = Some v.
Proof.
  induction p as [|x p IH]; norm_append; simpl; [done|]. by rewrite Ascii.eqb_refl.
Qed.

Lemma hasLF_uint (u : Decimal.uint) : hasLF (NilEmpty.string_of_uint u) = false.
Proof. induction u; simpl; done. Qed.

Lemma hasLF_number (n : Z) : hasLF (numberToString n) = false.
Proof.
  unfold numberToString, NilZero.string_of_int, NilZero.string_of_uint.
  destruct (Z.to_int n) as [u|u]; destruct u; simpl; try done; apply hasLF_uint.
Qed.

Lemma parseNumber_numberToString (n : Z) : parseNumber (numberToString n) = Some n.
Proof.
  unfold parseNumber, numberToString. rewrite NilZero.isi.
  - simpl. by rewrite DecimalZ.of_to.
  - destruct n; simpl; try done. intros [= E]. by apply Unsigned.to_uint_nonnil in E.
  - destruct n; simpl; try done. intros [= E]. by apply Unsigned.to_uint_nonnil in E.
Qed.

Lemma lines_LF : lines LF = [""; ""].
Proof. reflexivity. Qed.

Lemma hasLF_field (name v : string) :
  hasLF name = false → hasLF v = false → hasLF (name +:+ ": " +:+ v) = false.
Proof. intros Hn Hv. by rewrite !hasLF_append, Hn, Hv. Qed.

Ltac wire_lines :=
  simpl; repeat (rewrite lines_line by assumption; simpl).

(** Formatting an event that is written without loss and reading the text
    back gives the event. *)
Lemma parse_format i t d r :
  wireSafe (mkEvent i t d r) →
  parseSSEWire (formatSSEEvent (mkEvent i t d r)) = Some (mkEvent i t d r).
Proof.
  unfold wireSafe. cbn [e_id e_event e_data e_retry]. intros (Ht & Hd & Hi & Hr).
  unfold formatSSEEvent, parseSSEWire. cbn [e_id e_event e_data e_retry].
  unfold truthy, truthyNum.
  assert (Hn : ∀ n, hasLF (numberToString n) = false) by apply hasLF_number.
  assert (Hp : ∀ n, parseNumber (numberToString n) = Some n)
    by apply parseNumber_numberToString.
  destruct r as [n|].
  - destruct Hr as [Hr _]. rewrite (decide_False (P := n = 0%Z)) by congruence.
    specialize (Hn n). specialize (Hp n).
    generalize dependent (numberToString n). intros digits Hn Hp.
    destruct i as [i|]; [destruct Hi as [Hi0 Hi]; rewrite (decide_False (P := i = "")) by done|];
      destruct (decide (t = "")) as [->|]; destruct (decide (d = "")) as [->|];
      rewrite ?append_assoc; norm_append; wire_lines; rewrite ?Hp; reflexivity.
  - destruct i as [i|]; [destruct Hi as [Hi0 Hi]; rewrite (decide_False (P := i = "")) by done|];
      destruct (decide (t = "")) as [->|]; destruct (decide (d = "")) as [->|];
      rewrite ?append_assoc; norm_append; wire_lines; reflexivity.
Qed.

(** X16: On the events written without loss the formatter is one-to-one, whoever
    reads the text. *)
Lemma formatSSEEvent_injective e1 e2 :
  wireSafe e1 → wireSafe e2 →
  formatSSEEvent e1 = formatSSEEvent e2 → e1 = e2.
Proof.
  intros H1 H2 Heq. destruct e1 as [i1 t1 d1 r1], e2 as [i2 t2 d2 r2].
  apply parse_format in H1, H2. rewrite Heq in H1. congruence.
Qed.

(** C2, as amended: an event whose fields hold no line break, whose id,
    when present, is not empty, and whose retry, when present, is an integer
    other than 0 and below 2^53 in magnitude (the integers a number holds
    exactly and prints with all their digits), is read back from its
    formatted text with [type], [data], [id] and [retry] as they were. *)
Theorem format_parse_roundtrip event :
  wireSafe event → parseSSEWire (formatSSEEvent event) = Some event.
Proof. destruct event as [i t d r]. apply parse_format. Qed.

Lemma format_parse_roundtrip_witness :
  wireSafe (mkEvent (Some "7") "notification" "{}" (Some 3000%Z))
  ∧ parseSSEWire (formatSSEEvent (mkEvent (Some "7") "notification" "{}" (Some 3000%Z)))
    = Some (mkEvent (Some "7") "notification" "{}" (Some 3000%Z)).
Proof.
  assert (Hs : wireSafe (mkEvent (Some "7") "notification" "{}" (Some 3000%Z))).
  { unfold wireSafe. simpl. split_and!; (reflexivity || congruence || lia). }
  split; [exact Hs | exact (format_parse_roundtrip _ Hs)].
Defined.

(** C2, as stated, fails: a retry of 0 is not written ([if (event.retry)]
    is false for it), the text is that of the event without a retry, and
    reading it back gives no retry. *)
Lemma format_drops_zero_retry :
  let event := mkEvent None "notification" "{}" (Some 0%Z) in
  formatSSEEvent event = formatSSEEvent (mkEvent None "notification" "{}" None)
  ∧ parseSSEWire (formatSSEEvent event) = Some (mkEvent None "notification" "{}" None)
  ∧ parseSSEWire (formatSSEEvent event) ≠ Some event.
Proof.
  split_and!; [reflexivity | reflexivity |].
  vm_compute. congruence.
Qed.

(** No reader of the wire format, whatever it does, gives every event
    back: two different events have the same text. *)
Lemma no_parser_inverts_format :
  ¬ ∃ parse : string → option SSEEvent,
      ∀ event, parse (formatSSEEvent event) = Some event.
Proof.
  intros [parse Hparse].
  pose proof (Hparse (mkEvent None "notification" "{}" (Some 0%Z))) as H0.
  pose proof (Hparse (mkEvent None "notification" "{}" None)) as H1.
  change (formatSSEEvent (mkEvent None "notification" "{}" (Some 0%Z)))
    with (formatSSEEvent (mkEvent None "notification" "{}" None)) in H0.
  congruence.
Qed.

(** The other two conditions of [wireSafe] are needed as well. *)
Lemma format_drops_empty_id :
  formatSSEEvent (mkEvent (Some "") "notification" "{}" None)
  = formatSSEEvent (mkEvent None "notification" "{}" None).
Proof. reflexivity. Qed.

Lemma format_splits_data_at_line_break :
  formatSSEEvent (mkEvent None "notification" ("a" +:+ LF +:+ "retry: 5") None)
  = formatSSEEvent (mkEvent None "notification" "a" (Some 5%Z)).
Proof. reflexivity. Qed.

(** * The dispatch service *)

Section ServiceFacts.
Context {Payload : Type}.
Context (stringifyEvent : Payload → Z → option string).
Context (stringifyEnvelope : string → string → Payload → Z → option string).
Context {A : Type} `{SSEStorageAdapter A}.


(** Once the event is built and handed to the registry, the result is
    success and the registry is what [sendToUser] made of it, whatever the
    adapter answers. *)
Lemma serviceSendToUser_delivered now clock later userId eventType data payload
    (s : SSEService (A := A)) :
  stringifyEvent data now = Some payload →
  (serviceSendToUser stringifyEvent stringifyEnvelope
     now clock later userId eventType data s).1 = true
  ∧ sseManager (serviceSendToUser stringifyEvent stringifyEnvelope
                  now clock later userId eventType data s).2
    = sendToUser clock userId (mkEvent None eventType payload None) (sseManager s).
Proof.
  intros Hev. unfold serviceSendToUser. rewrite Hev.
  destruct (isAvailable (storageAdapter s)); [|done].
  destruct (stringifyEnvelope userId eventType data later) as [message|]; [|done].
  by destruct (publish REDIS_CHANNEL message (storageAdapter s)) as [[ok|] a].
Qed.

(** C8: every send of the service (the private [sendToUser], each typed
    wrapper and the generic one) returns success once local delivery has
    been attempted, that is once the event is built and handed to the
    registry, be the adapter unavailable, its [publish] failing or
    throwing. *)
Theorem service_send_succeeds now clock later userId eventType data payload
    (s : SSEService (A := A)) :
  stringifyEvent data now = Some payload →
  (serviceSendToUser stringifyEvent stringifyEnvelope
     now clock later userId eventType data s).1 = true
  ∧ (sendNotification stringifyEvent stringifyEnvelope
       now clock later userId data s).1 = true
  ∧ (sendReelUploadProgress stringifyEvent stringifyEnvelope
       now clock later userId data s).1 = true
  ∧ (sendReelReady stringifyEvent stringifyEnvelope
       now clock later userId data s).1 = true
  ∧ (sendUserUpdate stringifyEvent stringifyEnvelope
       now clock later userId data s).1 = true
  ∧ (sendSystemAlert stringifyEvent stringifyEnvelope
       now clock later userId data s).1 = true
  ∧ (sendCustomEvent stringifyEvent stringifyEnvelope
       now clock later userId eventType data s).1 = true.
Proof.
  intros Hev.
  split_and!;
    by apply (serviceSendToUser_delivered now clock later userId _ data payload s Hev).
Qed.
End ServiceFacts.

Lemma service_send_succeeds_witness :
  echoPayload "{}" 5%Z = Some "{}"
  ∧ (serviceSendToUser echoPayload echoEnvelope 5%Z at9 9%Z "A" "custom" "{}"
       downService).1 = true
  ∧ (sendNotification echoPayload echoEnvelope 5%Z at9 9%Z "A" "{}" downService).1 = true
  ∧ (sendReelUploadProgress echoPayload echoEnvelope 5%Z at9 9%Z "A" "{}"
       downService).1 = true
  ∧ (sendReelReady echoPayload echoEnvelope 5%Z at9 9%Z "A" "{}" downService).1 = true
  ∧ (sendUserUpdate echoPayload echoEnvelope 5%Z at9 9%Z "A" "{}" downService).1 = true
  ∧ (sendSystemAlert echoPayload echoEnvelope 5%Z at9 9%Z "A" "{}" downService).1 = true
  ∧ (sendCustomEvent echoPayload echoEnvelope 5%Z at9 9%Z "A" "custom" "{}"
       downService).1 = true.
Proof.
  split; [reflexivity|].
  exact (service_send_succeeds echoPayload echoEnvelope 5%Z at9 9%Z "A" "custom"
           "{}" "{}" downService eq_refl).
Defined.

(** With the in-memory adapter the envelope is stored and the result is
    success as well. *)
Example service_with_memory_adapter :
  let s := mkService (newSSEManager defaults) (Memory.new None ∅ 5%Z "0.5") in
  let r := sendNotification echoPayload echoEnvelope 5%Z at9 9%Z "A" "{}" s in
  r.1 = true
  ∧ mem_events (storageAdapter r.2)
    = [mkStored "sse:events-5-0.5" REDIS_CHANNEL "{}" 5%Z].
Proof. cbv zeta. split; vm_compute; reflexivity. Qed.

(** * The ceiling holds while no connection has the empty id *)

Lemma ceilingOk_idsBy m :
  userIndexOk m →
  ceilingOk m ↔
  ∀ u, length (idsBy c_userId u (clients m)) ≤ cfg_maxClientsPerUser (config m).
Proof.
  intros Hu. unfold ceilingOk.
  split; intros Hc u; specialize (Hc u);
    by rewrite (getClientCountForUser_idsBy _ _ Hu) in *.
Qed.

Lemma idsBy_delete_length f u clientId (cl : list (string * SSEClient)) :
  length (idsBy f u (JSMap.delete clientId cl)) ≤ length (idsBy f u cl).
Proof. rewrite idsBy_delete. apply length_filter. Qed.

#[global] Instance ceilingInv_stable : Stable ceilingInv.
Proof.
  split.
  - intros clientId m (Hok & Hne & Hc).
    pose proof (stable_remove clientId m Hok) as Hok'.
    split_and!; [done| |].
    + unfold idsNonEmpty in *. rewrite removeClient_clients, keys_delete, set_delete_elem.
      tauto.
    + apply (ceilingOk_idsBy _ (proj2 Hok')). intros u.
      rewrite removeClient_clients, (proj1 (removeClient_env _ _)).
      etrans; [apply idsBy_delete_length|].
      by apply (ceilingOk_idsBy _ (proj2 Hok)).
  - by intros e m.
  - intros now clientId c m Hg (Hok & Hne & Hc).
    split_and!; [by apply (stable_touch now clientId c) | |done].
    unfold idsNonEmpty in *. simpl. by rewrite (keys_set_present _ _ c).
  - by intros cs m.
  - by intros hb cu m.
  - intros m (Hok & Hne & Hc). split_and!.
    + by apply (stable_clear m).
    + apply not_elem_of_nil.
    + intros u. unfold getClientCountForUser. simpl. rewrite lookup_empty. lia.
Qed.






(** * Group sends: what they leave of each connection *)

Lemma get_filter_key {V} (P : string → Prop) `{!∀ k, Decision (P k)}
    (l : list (string * V)) k :
  JSMap.get k (filter (λ kv, P kv.1) l) = if decide (P k) then JSMap.get k l else None.
Proof.
  induction l as [|[k' v] l IH]; simpl; [by destruct (decide (P k))|].
  rewrite filter_cons. simpl. destruct (decide (P k')) as [Hk'|Hk']; simpl.
  - destruct (decide (k' = k)) as [->|]; [|done].
    by destruct (decide (P k)).
  - rewrite IH. destruct (decide (k' = k)) as [->|]; [|done].
    by destruct (decide (P k)).
Qed.

Lemma removeEach_get ids m clientId :
  JSMap.get clientId (clients (removeEach ids m))
  = if decide (clientId ∈ ids) then None else JSMap.get clientId (clients m).
Proof.
  rewrite removeEach_clients.
  pose proof (get_filter_key (λ k, k ∉ ids) (clients m) clientId) as Hg.
  simpl in Hg. rewrite Hg.
  destruct (decide (clientId ∈ ids)), (decide (clientId ∉ ids)); tauto.
Qed.

(** What one call of [sendToClient] leaves of each connection. *)
Lemma sendToClient_get now clientId event m other :
  JSMap.get other (clients (sendToClient now clientId event m).2)
  = if decide (other = clientId) then
      c ← JSMap.get clientId (clients m);
      if c_isConnected c then
        if deliverable m c then Some (set_lastPing now c) else None
      else Some c
    else JSMap.get other (clients m).
Proof.
  unfold sendToClient, deliverable.
  destruct (JSMap.get clientId (clients m)) as [c|] eqn:Hget; simpl.
  2:{ destruct (decide (other = clientId)) as [->|]; [done|done]. }
  destruct (c_isConnected c); simpl.
  2:{ destruct (decide (other = clientId)) as [->|]; [done|done]. }
  destruct (decide (c_controller c ∈ closedControllers m)) as [Hc|Hc]; simpl.
  - rewrite removeClient_clients. simpl.
    rewrite bool_decide_eq_false_2 by tauto.
    destruct (decide (other = clientId)) as [->|Hne].
    + apply get_delete_eq.
    + by apply get_delete_ne.
  - rewrite bool_decide_eq_true_2 by done.
    destruct (decide (other = clientId)) as [->|Hne].
    + apply get_set_eq.
    + by apply get_set_ne.
Qed.

Lemma sendToClient_result now clientId event m :
  (sendToClient now clientId event m).1
  = match JSMap.get clientId (clients m) with
    | Some c => deliverable m c
    | None => false
    end.
Proof.
  unfold sendToClient, deliverable.
  destruct (JSMap.get clientId (clients m)) as [c|]; [|done].
  destruct (c_isConnected c); simpl; [|done].
  destruct (decide (c_controller c ∈ closedControllers m)); simpl.
  - by rewrite bool_decide_eq_false_2 by tauto.
  - by rewrite bool_decide_eq_true_2.
Qed.

Lemma sendEach_env clock event ids m :
  config (sendEach clock event ids m).2 = config m
  ∧ closedControllers (sendEach clock event ids m).2 = closedControllers m.
Proof.
  revert m. induction ids as [|i ids IH]; intros m; simpl; [done|].
  destruct (sendToClient (clock i) i event m) as [ok m1] eqn:E1.
  destruct (sendEach clock event ids m1) as [f m2] eqn:E2. simpl.
  destruct (IH m1) as [Hc Hcl]. rewrite E2 in Hc, Hcl. simpl in Hc, Hcl.
  destruct (sendToClient_env (clock i) i event m) as [Hc' Hcl'].
  rewrite E1 in Hc', Hcl'. simpl in *. split; congruence.
Qed.

(** What the sending loop leaves of each connection, and the ids it
    collects. *)
Lemma sendEach_get clock event ids m clientId :
  NoDup ids →
  JSMap.get clientId (clients (sendEach clock event ids m).2)
  = if decide (clientId ∈ ids) then
      c ← JSMap.get clientId (clients m);
      if c_isConnected c then
        if deliverable m c then Some (set_lastPing (clock clientId) c) else None
      else Some c
    else JSMap.get clientId (clients m).
Proof.
  intros Hnd. revert m.
  induction Hnd as [|i ids Hi Hnd IH]; intros m; simpl; [done|].
  pose proof (sendToClient_get (clock i) i event m clientId) as Hg.
  pose proof (sendToClient_env (clock i) i event m) as [_ Hcl].
  destruct (sendToClient (clock i) i event m) as [ok m1] eqn:E1.
  specialize (IH m1).
  destruct (sendEach clock event ids m1) as [f m2] eqn:E2. simpl in *.
  rewrite IH. destruct (decide (clientId ∈ ids)) as [Hin|Hin].
  - rewrite decide_True by (by right).
    assert (clientId ≠ i) as Hne by (intros ->; done).
    rewrite decide_False in Hg by done. rewrite Hg.
    unfold deliverable. by rewrite Hcl.
  - destruct (decide (clientId = i)) as [->|Hne].
    + by rewrite decide_True by (by left).
    + rewrite decide_False; [done|]. rewrite elem_of_cons. tauto.
Qed.

Lemma sendEach_failed_iff clock event ids m clientId :
  NoDup ids →
  clientId ∈ (sendEach clock event ids m).1
  ↔ clientId ∈ ids
    ∧ match JSMap.get clientId (clients m) with
      | Some c => deliverable m c
      | None => false
      end = false.
Proof.
  intros Hnd. revert m.
  induction Hnd as [|i ids Hi Hnd IH]; intros m; simpl.
  - rewrite !elem_of_nil. tauto.
  - pose proof (sendToClient_result (clock i) i event m) as Hr.
    pose proof (sendToClient_get (clock i) i event m clientId) as Hg.
    pose proof (sendToClient_env (clock i) i event m) as [_ Hcl].
    destruct (sendToClient (clock i) i event m) as [ok m1] eqn:E1.
    specialize (IH m1).
    destruct (sendEach clock event ids m1) as [f m2] eqn:E2. simpl in *.
    assert (clientId ∈ ids →
            match JSMap.get clientId (clients m1) with
            | Some c => deliverable m1 c | None => false end
            = match JSMap.get clientId (clients m) with
              | Some c => deliverable m c | None => false end) as Hsame.
    { intros Hin. assert (clientId ≠ i) as Hne by (intros ->; done).
      rewrite decide_False in Hg by done. rewrite Hg.
      unfold deliverable. by rewrite Hcl. }
    rewrite elem_of_cons.
    destruct ok.
    + rewrite IH. split.
      * intros [Hin Hf]. rewrite <- (Hsame Hin). tauto.
      * intros [[->|Hin] Hf]; [congruence|]. rewrite (Hsame Hin). tauto.
    + rewrite elem_of_cons, IH. split.
      * intros [->|[Hin Hf]]; [by split; [left|]|].
        rewrite <- (Hsame Hin). tauto.
      * intros [[->|Hin] Hf]; [by left|]. right. rewrite (Hsame Hin). tauto.
Qed.

(** The loop followed by the removal of the ids it collected, the body the
    three group sends share. *)
Lemma fanout_get clock event ids m clientId :
  NoDup ids →
  JSMap.get clientId
    (clients (let '(failedClients, m') := sendEach clock event ids m in
              removeEach failedClients m'))
  = if decide (clientId ∈ ids) then afterSend clock m clientId
    else JSMap.get clientId (clients m).
Proof.
  intros Hnd.
  pose proof (sendEach_get clock event ids m clientId Hnd) as Hg.
  pose proof (sendEach_failed_iff clock event ids m clientId Hnd) as Hf.
  destruct (sendEach clock event ids m) as [f m'] eqn:E. simpl in *.
  rewrite removeEach_get, Hg. unfold afterSend.
  destruct (decide (clientId ∈ ids)) as [Hin|Hin].
  - destruct (JSMap.get clientId (clients m)) as [c|] eqn:Hc; simpl.
    + destruct (deliverable m c) eqn:Hd.
      * rewrite decide_False by (rewrite Hf; intros [_ ?]; congruence).
        unfold deliverable in Hd. apply andb_true_iff in Hd as [-> _]. done.
      * by rewrite decide_True by (by rewrite Hf).
    + by destruct (decide (clientId ∈ f)).
  - by rewrite decide_False by (rewrite Hf; tauto).
Qed.

Lemma fanout_env clock event ids m :
  let m' := (let '(failedClients, m') := sendEach clock event ids m in
             removeEach failedClients m') in
  config m' = config m ∧ closedControllers m' = closedControllers m.
Proof.
  cbv zeta. pose proof (sendEach_env clock event ids m) as [Hc Hcl].
  destruct (sendEach clock event ids m) as [f m'] eqn:E. simpl in *.
  destruct (removeEach_env f m') as (-> & -> & _). done.
Qed.

Lemma fanout_io clock event ids m :
  NoDup ids →
  io (let '(failedClients, m') := sendEach clock event ids m in
      removeEach failedClients m')
  = io m ++ flat_map (attempt event m) ids.
Proof.
  intros Hnd. pose proof (sendEach_io clock event ids m Hnd) as Hio.
  destruct (sendEach clock event ids m) as [f m'] eqn:E. simpl in *.
  by destruct (removeEach_env f m') as (_ & _ & ->).
Qed.

Lemma attempts_deliveries event m (l : list (string * SSEClient)) :
  (∀ kc, kc ∈ l → JSMap.get kc.1 (clients m) = Some kc.2) →
  flat_map (attempt event m) l.*1 = deliveries event m l.
Proof.
  unfold deliveries. induction l as [|[k c] l IH]; intros Hall; [done|].
  csimpl. rewrite IH by (intros kc Hkc; apply Hall; by right).
  pose proof (Hall (k, c) ltac:(left)) as Hkc. simpl in Hkc.
  unfold attempt at 1. rewrite Hkc. simpl.
  rewrite filter_cons. simpl.
  by destruct (c_isConnected c).
Qed.

Lemma keys_filter_key {V} (P : string → Prop) `{!∀ k, Decision (P k)}
    (l : list (string * V)) :
  filter P (JSMap.keys l) = JSMap.keys (filter (λ kv, P kv.1) l).
Proof.
  unfold JSMap.keys. induction l as [|[k v] l IH]; [done|].
  csimpl. rewrite !filter_cons. simpl.
  destruct (decide (P k)); csimpl; by rewrite IH.
Qed.

Lemma filter_elem_get (P : string * SSEClient → Prop) `{!∀ x, Decision (P x)} m :
  keysOk m →
  ∀ kc, kc ∈ filter P (clients m) → JSMap.get kc.1 (clients m) = Some kc.2.
Proof.
  intros Hk [k c] Hin. apply list_elem_of_filter in Hin as [_ Hin].
  by apply elem_get.
Qed.

(** ** [broadcast] *)

Lemma broadcast_get clock event excl m clientId :
  keysOk m →
  JSMap.get clientId (clients (broadcast clock event excl m))
  = if decide (clientId ∈ excl) then JSMap.get clientId (clients m)
    else afterSend clock m clientId.
Proof.
  intros Hk. unfold broadcast.
  assert (NoDup (filter (λ clientId, clientId ∉ excl) (JSMap.keys (clients m))))
    as Hnd by (by apply NoDup_filter).
  rewrite (fanout_get _ _ _ _ _ Hnd).
  destruct (decide (clientId ∈ excl)) as [He|He].
  - rewrite decide_False; [done|]. rewrite list_elem_of_filter. tauto.
  - destruct (decide (clientId ∈ JSMap.keys (clients m))) as [Hin|Hin].
    + rewrite decide_True; [done|]. by rewrite list_elem_of_filter.
    + rewrite decide_False by (rewrite list_elem_of_filter; tauto).
      unfold afterSend. apply get_None in Hin. by rewrite Hin.
Qed.

(** X11: In every state of the registry, [broadcast(e, excluded)] writes the
    formatted event once to every registered connection that is not excluded
    and has its [isConnected] flag on, oldest first, and makes no other call
    on a sink; an excluded connection keeps its record; any other connection
    has its [lastPing] set to the time read for it when the write went
    through, and is gone from the registry otherwise. *)
Theorem broadcast_outcome o clock event excl m clientId :
  reachable o m →
  let m' := broadcast clock event excl m in
  JSMap.get clientId (clients m')
  = (if decide (clientId ∈ excl) then JSMap.get clientId (clients m)
     else afterSend clock m clientId)
  ∧ io m' = io m ++ deliveries event m (filter (λ kc, kc.1 ∉ excl) (clients m)).
Proof.
  intros Hr. destruct (reachable_usersOk _ _ Hr) as [Hk _]. cbv zeta.
  split; [by apply broadcast_get|].
  unfold broadcast.
  assert (NoDup (filter (λ clientId, clientId ∉ excl) (JSMap.keys (clients m))))
    as Hnd by (by apply NoDup_filter).
  rewrite (fanout_io _ _ _ _ Hnd). f_equal.
  rewrite (keys_filter_key (λ k, k ∉ excl)).
  apply attempts_deliveries. by apply filter_elem_get.
Qed.

Lemma broadcast_outcome_witness :
  reachable defaults threeClients
  ∧ let m' := broadcast at9 notification ["c1"] threeClients in
    JSMap.get "c2" (clients m')
    = (if decide ("c2" ∈ ["c1"]) then JSMap.get "c2" (clients threeClients)
       else afterSend at9 threeClients "c2")
    ∧ io m' = io threeClients
              ++ deliveries notification threeClients
                   (filter (λ kc, kc.1 ∉ ["c1"]) (clients threeClients)).
Proof.
  assert (reachable defaults threeClients) as Hr by (by eexists).
  split; [exact Hr|].
  exact (broadcast_outcome defaults at9 notification ["c1"] threeClients "c2" Hr).
Defined.

(** ** [sendToSession] *)

(** X10: With a ceiling of at least one connection per user, in every state of
    the registry and for a session id [S] other than the empty string,
    [sendToSession(S, e)] writes the formatted event once to every
    registered connection whose [sessionId] is [S] and whose [isConnected]
    flag is on, oldest first, and makes no other call on a sink; a
    connection of another session keeps its record; a connection of [S] has
    its [lastPing] set when the write went through and is gone from the
    registry otherwise.  For the empty string it makes no call on a sink and
    every record stays, whatever is registered: the selection is by
    truthiness ([idsBy_literal]). *)
Theorem sendToSession_outcome o clock sessionId event m clientId :
  1 ≤ default 5 (opt_maxClientsPerUser o) →
  reachable o m →
  let m' := sendToSession clock sessionId event m in
  JSMap.get clientId (clients m')
  = (if decide (clientId ∈ idsBy c_sessionId sessionId (clients m))
     then afterSend clock m clientId
     else JSMap.get clientId (clients m))
  ∧ io m' = io m ++ deliveries event m
                      (filter (λ kc, truthy (c_sessionId kc.2) = Some sessionId)
                         (clients m)).
Proof.
  intros Hmax Hr. destruct (reachable_registryOk _ _ Hmax Hr) as (_ & Hk & _ & Hs).
  cbv zeta. unfold sendToSession.
  pose proof (Hs sessionId) as Hix. unfold sessionIndexOk in Hs.
  destruct (sessionClients m !! sessionId) as [s|] eqn:E.
  - symmetry in Hix. apply nonempty_Some in Hix as [-> _].
    assert (NoDup (idsBy c_sessionId sessionId (clients m))) as Hnd
      by (by apply NoDup_idsBy).
    split.
    + by rewrite (fanout_get _ _ _ _ _ Hnd).
    + rewrite (fanout_io _ _ _ _ Hnd). f_equal.
      apply attempts_deliveries. by apply filter_elem_get.
  - symmetry in Hix. apply nonempty_None in Hix.
    change (filter (λ kc, truthy (c_sessionId kc.2) = Some sessionId) (clients m)).*1
      with (idsBy c_sessionId sessionId (clients m)) in Hix.
    split.
    + rewrite Hix. rewrite decide_False; [done|]. apply not_elem_of_nil.
    + apply fmap_nil_inv in Hix. rewrite Hix. unfold deliveries.
      by rewrite app_nil_r.
Qed.

Lemma sendToSession_outcome_witness :
  1 ≤ default 5 (opt_maxClientsPerUser defaults)
  ∧ reachable defaults threeClients
  ∧ let m' := sendToSession at9 "s2" notification threeClients in
    JSMap.get "c2" (clients m')
    = (if decide ("c2" ∈ idsBy c_sessionId "s2" (clients threeClients))
       then afterSend at9 threeClients "c2"
       else JSMap.get "c2" (clients threeClients))
    ∧ io m' = io threeClients
              ++ deliveries notification threeClients
                   (filter (λ kc, truthy (c_sessionId kc.2) = Some "s2")
                      (clients threeClients)).
Proof.
  assert (1 ≤ default 5 (opt_maxClientsPerUser defaults)) as H1 by (simpl; lia).
  assert (reachable defaults threeClients) as H2 by (by eexists).
  split; [exact H1|]. split; [exact H2|].
  exact (sendToSession_outcome defaults at9 "s2" notification threeClients "c2" H1 H2).
Defined.

(** ** [sendToUser]: the records it leaves *)

(** X9: In every state of the registry and for a user id [U] other than the
    empty string, [sendToUser(U, e)] leaves of a connection whose [userId]
    is [U] the record with its [lastPing] set to the time read for it when
    the write went through, and removes the connection otherwise (flag off,
    or sink closed); the record under any other id is as before.  For the
    empty string every record is as before, whatever is registered: the
    selection is by truthiness ([idsBy_literal]). *)
Theorem sendToUser_records o clock userId event m clientId :
  reachable o m →
  JSMap.get clientId (clients (sendToUser clock userId event m))
  = if decide (clientId ∈ idsBy c_userId userId (clients m))
    then afterSend clock m clientId
    else JSMap.get clientId (clients m).
Proof.
  intros Hr. destruct (reachable_usersOk _ _ Hr) as [Hk Hu].
  unfold sendToUser. pose proof (Hu userId) as Hix.
  destruct (userClients m !! userId) as [s|] eqn:E.
  - symmetry in Hix. apply nonempty_Some in Hix as [-> _].
    apply fanout_get. by apply NoDup_idsBy.
  - symmetry in Hix. apply nonempty_None in Hix.
    rewrite Hix. rewrite decide_False; [done|]. apply not_elem_of_nil.
Qed.

Lemma sendToUser_records_witness :
  reachable defaults threeClients
  ∧ JSMap.get "c2" (clients (sendToUser at9 "A" notification threeClients))
    = if decide ("c2" ∈ idsBy c_userId "A" (clients threeClients))
      then afterSend at9 threeClients "c2"
      else JSMap.get "c2" (clients threeClients).
Proof.
  assert (reachable defaults threeClients) as Hr by (by eexists).
  split; [exact Hr|].
  exact (sendToUser_records defaults at9 "A" notification threeClients "c2" Hr).
Defined.

(** * The timers: a heartbeat keeps a connection from the cleanup *)

Lemma cleanup_nothing_stale now m :
  (∀ kc, kc ∈ clients m → ¬ isStale now (config m) kc.2) → cleanup now m = m.
Proof.
  intros Hall. unfold cleanup. by rewrite (filter_none _ _ Hall).
Qed.

(** X12: A heartbeat is a broadcast to everybody, so a connection it leaves in
    the registry had its [lastPing] set while the heartbeat ran: a cleanup
    that runs no more than two heartbeat intervals after these writes
    removes nothing. *)
Theorem heartbeat_keeps_from_cleanup o stamp clock now m :
  reachable o m →
  (∀ clientId, clientId ∈ JSMap.keys (clients m) →
     (now - clock clientId ≤ cfg_heartbeatInterval (config m) * 2)%Z) →
  cleanupTick now (heartbeatTick stamp clock m) = heartbeatTick stamp clock m.
Proof.
  intros Hr Hclock. pose proof (reachable_usersOk _ _ Hr) as Hok.
  pose proof Hok as [Hk _].
  unfold cleanupTick, heartbeatTick. apply cleanup_nothing_stale.
  intros [k c] Hin.
  pose proof (broadcast_stable usersOk clock (heartbeatEvent stamp) [] m Hok)
    as [Hk' _].
  apply (elem_get _ _ _ Hk') in Hin.
  rewrite (broadcast_get _ _ _ _ _ Hk) in Hin.
  rewrite decide_False in Hin by apply not_elem_of_nil.
  unfold afterSend in Hin.
  destruct (JSMap.get k (clients m)) as [c0|] eqn:Hget; [|done]. simpl in Hin.
  destruct (deliverable m c0); [|done]. injection Hin as <-.
  unfold broadcast.
  destruct (fanout_env clock (heartbeatEvent stamp)
              (filter (λ clientId, clientId ∉ []) (JSMap.keys (clients m))) m)
    as [Hcfg _].
  cbv zeta in Hcfg. rewrite Hcfg. unfold isStale. simpl.
  apply get_Some_key in Hget. specialize (Hclock k Hget). lia.
Qed.

Lemma heartbeat_keeps_from_cleanup_witness :
  reachable defaults threeClients
  ∧ (∀ clientId, clientId ∈ JSMap.keys (clients threeClients) →
       (60009 - at9 clientId ≤ cfg_heartbeatInterval (config threeClients) * 2)%Z)
  ∧ cleanupTick 60009 (heartbeatTick 9 at9 threeClients) = heartbeatTick 9 at9 threeClients.
Proof.
  assert (reachable defaults threeClients) as Hr by (by eexists).
  assert (∀ clientId, clientId ∈ JSMap.keys (clients threeClients) →
            (60009 - at9 clientId ≤ cfg_heartbeatInterval (config threeClients) * 2)%Z)
    as Hc by (intros clientId _; vm_compute; discriminate).
  split; [exact Hr|]. split; [exact Hc|].
  exact (heartbeat_keeps_from_cleanup defaults 9 at9 60009 threeClients Hr Hc).
Defined.

(** * [cleanup] again *)

(** X13: In every state of the registry, a second [cleanup] at the same time
    changes nothing, and a [cleanup] makes no call on a sink: the controller
    of a connection it drops is not closed. *)
Theorem cleanup_idempotent o now m :
  reachable o m →
  cleanup now (cleanup now m) = cleanup now m
  ∧ io (cleanup now m) = io m
  ∧ closedControllers (cleanup now m) = closedControllers m.
Proof.
  intros Hr. destruct (reachable_usersOk _ _ Hr) as [Hk _]. split.
  - apply cleanup_nothing_stale. intros kc.
    rewrite (cleanup_clients _ _ Hk), list_elem_of_filter.
    unfold cleanup at 1. destruct (removeEach_env
      (JSMap.keys (filter (λ kc, isStale now (config m) kc.2) (clients m))) m)
      as (-> & _). tauto.
  - unfold cleanup. destruct (removeEach_env
      (JSMap.keys (filter (λ kc, isStale now (config m) kc.2) (clients m))) m)
      as (_ & -> & ->). done.
Qed.

Lemma cleanup_idempotent_witness :
  reachable defaults threeClients
  ∧ cleanup 70000 (cleanup 70000 threeClients) = cleanup 70000 threeClients
  ∧ io (cleanup 70000 threeClients) = io threeClients
  ∧ closedControllers (cleanup 70000 threeClients) = closedControllers threeClients.
Proof.
  assert (reachable defaults threeClients) as Hr by (by eexists).
  split; [exact Hr|].
  exact (cleanup_idempotent defaults 70000 threeClients Hr).
Defined.

(** * The registry never closes a stream it drops *)

Lemma addClient_env client m :
  closedControllers (addClient client m) = closedControllers m
  ∧ io (addClient client m) = io m.
Proof.
  unfold addClient.
  destruct (removeClient_env (c_id client) m) as (_ & Hcl & Hio & _).
  destruct (truthy (c_userId client)) as [u|]; simpl.
  - destruct (decide _); [destruct (truthy (JSSet.first _))|];
      destruct (truthy (c_sessionId client)); simpl;
      rewrite ?(proj1 (proj2 (removeClient_env _ _))),
              ?(proj1 (proj2 (proj2 (removeClient_env _ _)))); simpl; done.
  - by destruct (truthy (c_sessionId client)).
Qed.

(** X14: [addClient], [removeClient] and [cleanup] make no call on a sink,
    whatever they drop: the stream of a connection that is replaced, evicted,
    removed or found stale stays as it is. *)
Theorem bookkeeping_leaves_sinks_alone calls m :
  Forall isBookkeeping calls →
  io (run calls m) = io m
  ∧ closedControllers (run calls m) = closedControllers m.
Proof.
  intros Hcalls. revert m. unfold run.
  induction Hcalls as [|call calls Hcall _ IH]; intros m; simpl; [done|].
  destruct (IH (step m call)) as [-> ->].
  destruct call; try done; simpl.
  - destruct (addClient_env client m) as [-> ->]. done.
  - destruct (removeClient_env clientId m) as (_ & -> & -> & _). done.
  - unfold cleanup. destruct (removeEach_env
      (JSMap.keys (filter (λ kc, isStale now (config m) kc.2) (clients m))) m)
      as (_ & -> & ->). done.
Qed.

Lemma bookkeeping_leaves_sinks_alone_witness :
  Forall isBookkeeping
    [ AddClient (sampleClient "z" (Some "A") None 4 true); RemoveClient "c3";
      Cleanup 70000 ]
  ∧ io (run [ AddClient (sampleClient "z" (Some "A") None 4 true);
              RemoveClient "c3"; Cleanup 70000 ] threeClients)
    = io threeClients
  ∧ closedControllers
      (run [ AddClient (sampleClient "z" (Some "A") None 4 true);
             RemoveClient "c3"; Cleanup 70000 ] threeClients)
    = closedControllers threeClients.
Proof.
  assert (Forall isBookkeeping
            [ AddClient (sampleClient "z" (Some "A") None 4 true);
              RemoveClient "c3"; Cleanup 70000 ]) as Hc
    by (repeat constructor).
  split; [exact Hc|].
  exact (bookkeeping_leaves_sinks_alone _ threeClients Hc).
Defined.

(** * [destroy] closes every stream *)

Lemma closeAll_effects cl m :
  let d := foldl closeController m cl in
  (∃ closes, io d = io m ++ closes
             ∧ effectHandle <$> closes = (λ kc, c_controller kc.2) <$> cl
             ∧ Forall (λ e, isClose e = true) closes)
  ∧ (∀ h, h ∈ closedControllers d
          ↔ h ∈ closedControllers m ∨ ∃ kc, kc ∈ cl ∧ c_controller kc.2 = h)
  ∧ clients d = clients m
  ∧ heartbeatInterval d = heartbeatInterval m
  ∧ cleanupInterval d = cleanupInterval m
  ∧ config d = config m.
Proof.
  cbv zeta. revert m. induction cl as [|kc cl IH]; intros m; simpl.
  - split_and!; try done.
    + exists []. by rewrite app_nil_r.
    + intros h. split; [tauto|]. intros [?|(kc & Hkc & _)]; [done|].
      by apply elem_of_nil in Hkc.
  - destruct (IH (closeController m kc)) as ((closes & Hio & Hh & Hcl) & Hc & Hrest).
    split_and!; try apply Hrest.
    + eexists (_ :: closes). rewrite Hio. simpl. rewrite <- app_assoc. simpl.
      split_and!; [done| by csimpl; rewrite Hh | by constructor].
    + intros h. rewrite Hc. simpl. rewrite elem_of_union, elem_of_singleton.
      split.
      * intros [[->|?]|(kc' & Hin & Hkc')]; [right|by left|right].
        -- exists kc. split; [left|done].
        -- exists kc'. split; [by right|done].
      * intros [?|(kc' & Hin & Hkc')]; [by left; right|].
        apply elem_of_cons in Hin as [->|Hin]; [by left; left|].
        right. by exists kc'.
Qed.

(** X15: [destroy] disarms both timers, calls [close] once on the controller of
    every registered connection, oldest first, and makes no other call on a
    sink; afterwards every one of these controllers is closed, the registry
    is empty, and a second [destroy] changes nothing. *)
Theorem destroy_closes_every_stream m :
  let d := destroy m in
  (∃ closes, io d = io m ++ closes
             ∧ effectHandle <$> closes = (λ kc, c_controller kc.2) <$> clients m
             ∧ Forall (λ e, isClose e = true) closes)
  ∧ Forall (λ kc, c_controller kc.2 ∈ closedControllers d) (clients m)
  ∧ heartbeatInterval d = false ∧ cleanupInterval d = false
  ∧ getClientCount d = 0
  ∧ destroy d = d.
Proof.
  cbv zeta. unfold destroy.
  destruct (closeAll_effects (clients (with_timers false false m))
              (with_timers false false m))
    as (Hio & Hc & Hcl & Hhb & Hcu & Hcfg).
  cbv zeta in *.
  set (d0 := foldl closeController (with_timers false false m)
               (clients (with_timers false false m))) in *.
  clearbody d0. simpl in *.
  split_and!; try done.
  - apply Forall_forall. intros kc Hin. apply Hc. right. by exists kc.
  - unfold with_timers, with_clients, with_userClients, with_sessionClients.
    simpl. by rewrite Hhb, Hcu.
Qed.

(** * [removeClient] *)

Lemma delete_length {V} (l : list (string * V)) k :
  NoDup (JSMap.keys l) → k ∈ JSMap.keys l →
  S (length (JSMap.delete k l)) = length l.
Proof.
  unfold JSMap.keys, JSMap.delete.
  induction l as [|[k' v] l IH]; csimpl; intros Hnd Hin.
  - by apply elem_of_nil in Hin.
  - apply NoDup_cons in Hnd as [Hk' Hnd]. rewrite filter_cons. simpl.
    destruct (decide (k' ≠ k)) as [Hne|Heq].
    + simpl. f_equal. apply IH; [done|].
      apply elem_of_cons in Hin as [->|]; [done|done].
    + assert (k' = k) as -> by (by destruct (decide (k' = k)); [|tauto]).
      f_equal. change (filter (λ kv : string * V, kv.1 ≠ k) l) with (JSMap.delete k l).
      rewrite delete_absent; [done|]. by apply get_None.
Qed.

(** X6: In every state of the registry, [removeClient(id)] drops the record of
    [id] and nothing else: the count goes down by one when [id] is
    registered and stays otherwise, every other connection keeps its record
    and its places in the indexes, no call is made on a sink (the stream is
    not closed), and a second [removeClient(id)] changes nothing. *)
Theorem removeClient_effect o clientId m :
  reachable o m →
  let m' := removeClient clientId m in
  JSMap.get clientId (clients m') = None
  ∧ getClientCount m'
    = getClientCount m - (if decide (clientId ∈ JSMap.keys (clients m)) then 1 else 0)
  ∧ (∀ other, other ≠ clientId → untouched other m m')
  ∧ io m' = io m ∧ closedControllers m' = closedControllers m
  ∧ removeClient clientId m' = m'.
Proof.
  intros Hr. destruct (reachable_usersOk _ _ Hr) as [Hk _]. cbv zeta.
  assert (JSMap.get clientId (clients (removeClient clientId m)) = None) as Hgone
    by (rewrite removeClient_clients; apply get_delete_eq).
  destruct (removeClient_env clientId m) as (_ & Hcl & Hio & _).
  split_and!; try done.
  - unfold getClientCount, JSMap.size. rewrite removeClient_clients.
    destruct (decide (clientId ∈ JSMap.keys (clients m))) as [Hin|Hin].
    + rewrite <- (delete_length _ _ Hk Hin). lia.
    + rewrite delete_absent by (by apply get_None). lia.
  - intros other Hne. by apply removeClient_untouched.
  - by apply removeClient_absent.
Qed.

Lemma removeClient_effect_witness :
  reachable defaults threeClients
  ∧ let m' := removeClient "c2" threeClients in
    JSMap.get "c2" (clients m') = None
    ∧ getClientCount m'
      = getClientCount threeClients
        - (if decide ("c2" ∈ JSMap.keys (clients threeClients)) then 1 else 0)
    ∧ (∀ other, other ≠ "c2" → untouched other threeClients m')
    ∧ io m' = io threeClients
    ∧ closedControllers m' = closedControllers threeClients
    ∧ removeClient "c2" m' = m'.
Proof.
  assert (reachable defaults threeClients) as Hr by (by eexists).
  split; [exact Hr|].
  exact (removeClient_effect defaults "c2" threeClients Hr).
Defined.

(** * [addClient] registers the connection *)




(** * The user index mirrors the primary map *)

(** X7: In every state of the registry, [getUserClients(U)] is the list of the
    ids of the registered connections whose [userId] is [U], oldest first
    and without repetition; [getClientCountForUser(U)] is its length and is
    at most [getClientCount()]. *)
Theorem getUserClients_mirror o userId m :
  reachable o m →
  getUserClients userId m = idsBy c_userId userId (clients m)
  ∧ NoDup (getUserClients userId m)
  ∧ getClientCountForUser userId m = length (getUserClients userId m)
  ∧ getClientCountForUser userId m ≤ getClientCount m.
Proof.
  intros Hr. destruct (reachable_usersOk _ _ Hr) as [Hk Hu].
  rewrite (getUserClients_idsBy _ _ Hu), (getClientCountForUser_idsBy _ _ Hu).
  split_and!; [done | by apply NoDup_idsBy | done |].
  unfold idsBy, getClientCount, JSMap.size. rewrite length_fmap.
  apply length_filter.
Qed.

Lemma getUserClients_mirror_witness :
  reachable defaults threeClients
  ∧ getUserClients "A" threeClients = idsBy c_userId "A" (clients threeClients)
  ∧ NoDup (getUserClients "A" threeClients)
  ∧ getClientCountForUser "A" threeClients = length (getUserClients "A" threeClients)
  ∧ getClientCountForUser "A" threeClients ≤ getClientCount threeClients.
Proof.
  assert (reachable defaults threeClients) as Hr by (by eexists).
  split; [exact Hr|].
  exact (getUserClients_mirror defaults "A" threeClients Hr).
Defined.

(** X8: The empty string is no user id: a connection that carries it is
    registered in no set of the user index, so in every state of the
    registry the user [''] has no connection and a send to the user ['']
    does nothing. *)
Theorem empty_user_id_selects_nobody o clock event m :
  reachable o m →
  getUserClients "" m = []
  ∧ getClientCountForUser "" m = 0
  ∧ sendToUser clock "" event m = m.
Proof.
  intros Hr. destruct (reachable_usersOk _ _ Hr) as [Hk Hu].
  assert (idsBy c_userId "" (clients m) = []) as Hnone.
  { unfold idsBy. rewrite filter_none; [done|].
    intros kc _ Hf. apply truthy_Some_inv in Hf as [_ Hf]. done. }
  assert (userClients m !! "" = None) as Hnu by (by rewrite (Hu ""), Hnone).
  split_and!.
  - unfold getUserClients. by rewrite Hnu.
  - unfold getClientCountForUser. by rewrite Hnu.
  - unfold sendToUser. by rewrite Hnu.
Qed.

Lemma empty_user_id_selects_nobody_witness :
  let m := addClient (sampleClient "c1" (Some "") (Some "s1") 1 true)
             (newSSEManager defaults) in
  reachable defaults m
  ∧ getUserClients "" m = []
  ∧ getClientCountForUser "" m = 0
  ∧ sendToUser at9 "" notification m = m.
Proof.
  cbv zeta.
  assert (reachable defaults
            (addClient (sampleClient "c1" (Some "") (Some "s1") 1 true)
               (newSSEManager defaults))) as Hr
    by (by exists [AddClient (sampleClient "c1" (Some "") (Some "s1") 1 true)]).
  split; [exact Hr|].
  exact (empty_user_id_selects_nobody defaults at9 notification _ Hr).
Defined.

(** * A connection that comes and goes *)

Lemma addClient_timers client m :
  heartbeatInterval (addClient client m) = heartbeatInterval m
  ∧ cleanupInterval (addClient client m) = cleanupInterval m.
Proof.
  unfold addClient.
  destruct (removeClient_env (c_id client) m) as (_ & _ & _ & Hhb & Hcu).
  destruct (truthy (c_userId client)) as [u|]; simpl.
  - destruct (decide _); [destruct (truthy (JSSet.first _))|];
      destruct (truthy (c_sessionId client)); simpl;
      rewrite ?(proj1 (proj2 (proj2 (proj2 (removeClient_env _ _))))),
              ?(proj2 (proj2 (proj2 (proj2 (removeClient_env _ _))))); simpl; done.
  - by destruct (truthy (c_sessionId client)).
Qed.

(** Two registries whose indexes follow their primary maps are equal as
    soon as they agree on the primary map and on the rest of the state. *)
Lemma registry_ext m1 m2 :
  userIndexOk m1 → sessionIndexOk m1 → userIndexOk m2 → sessionIndexOk m2 →
  clients m1 = clients m2 → config m1 = config m2 →
  closedControllers m1 = closedControllers m2 → io m1 = io m2 →
  heartbeatInterval m1 = heartbeatInterval m2 →
  cleanupInterval m1 = cleanupInterval m2 →
  m1 = m2.
Proof.
  unfold userIndexOk, sessionIndexOk, indexOk.
  destruct m1 as [cl1 u1 s1 hb1 cu1 cfg1 cc1 io1],
           m2 as [cl2 u2 s2 hb2 cu2 cfg2 cc2 io2]; simpl.
  intros Hu1 Hs1 Hu2 Hs2 -> -> -> -> -> ->.
  assert (u1 = u2) as -> by (apply map_eq; intros k; by rewrite Hu1, Hu2).
  assert (s1 = s2) as -> by (apply map_eq; intros k; by rewrite Hs1, Hs2).
  done.
Qed.

(** X5: With a ceiling of at least one connection per user, in every state of
    the registry: registering a connection under a fresh id and removing it
    again leaves the registry exactly as it was when the registration
    evicted nobody; when it evicted the oldest connection of the user, what
    is left is the registry without that connection, which does not come
    back. *)
Theorem add_then_remove o client m :
  1 ≤ default 5 (opt_maxClientsPerUser o) →
  reachable o m →
  c_id client ∉ JSMap.keys (clients m) →
  removeClient (c_id client) (addClient client m)
  = match truthy (c_userId client) with
    | Some u =>
        if decide (cfg_maxClientsPerUser (config m) ≤ getClientCountForUser u m)
        then match truthy (JSSet.first (getUserClients u m)) with
             | Some oldest => removeClient oldest m
             | None => m
             end
        else m
    | None => m
    end.
Proof.
  intros Hmax Hr Hfresh.
  pose proof (reachable_registryOk _ _ Hmax Hr) as Hok.
  pose proof Hok as (Hmax' & Hk & Hu & Hs).
  pose proof (addClient_registryOk client m Hok) as Hok'.
  pose proof (stable_remove (c_id client) _ Hok') as (_ & _ & Hu'' & Hs'').
  assert (removeClient (c_id client) m = m) as Hnoop
    by (apply removeClient_absent; by apply get_None).
  assert (JSMap.delete (c_id client) (clients m) = clients m) as Hdel
    by (apply delete_absent; by apply get_None).
  (* the fields other than the three maps *)
  assert (∀ m', config (removeClient (c_id client) (addClient client m)) = config m'
                ∧ closedControllers (removeClient (c_id client) (addClient client m))
                  = closedControllers m'
                ∧ io (removeClient (c_id client) (addClient client m)) = io m'
                ∧ heartbeatInterval (removeClient (c_id client) (addClient client m))
                  = heartbeatInterval m'
                ∧ cleanupInterval (removeClient (c_id client) (addClient client m))
                  = cleanupInterval m'
              ↔ config m = config m' ∧ closedControllers m = closedControllers m'
                ∧ io m = io m' ∧ heartbeatInterval m = heartbeatInterval m'
                ∧ cleanupInterval m = cleanupInterval m') as Henv.
  { intros m'.
    destruct (removeClient_env (c_id client) (addClient client m))
      as (-> & -> & -> & -> & ->).
    rewrite addClient_config.
    destruct (addClient_env client m) as [-> ->].
    destruct (addClient_timers client m) as [-> ->]. done. }
  assert (∀ m', userIndexOk m' → sessionIndexOk m' →
            JSMap.delete (c_id client) (clients (addClient client m)) = clients m' →
            config m = config m' → closedControllers m = closedControllers m' →
            io m = io m' → heartbeatInterval m = heartbeatInterval m' →
            cleanupInterval m = cleanupInterval m' →
            removeClient (c_id client) (addClient client m) = m') as Hext.
  { intros m' Hum Hsm Hcl H1 H2 H3 H4 H5.
    destruct (proj2 (Henv m')) as (? & ? & ? & ? & ?); [done|].
    apply registry_ext; try done. by rewrite removeClient_clients. }
  pose proof (addClient_clients client m) as Hcl. cbv zeta in Hcl.
  rewrite Hnoop, Hdel in Hcl.
  assert (JSMap.delete (c_id client) (clients m ++ [(c_id client, client)]) = clients m)
    as Hback by (by apply delete_snoc_eq).
  destruct (truthy (c_userId client)) as [u|] eqn:Eu.
  2:{ apply Hext; try done. by rewrite Hcl. }
  assert (c_id client ∉ getUserClients u m) as Hni.
  { rewrite (getUserClients_idsBy _ _ Hu). intros Hin. by apply idsBy_keys in Hin. }
  rewrite (set_add_absent _ _ Hni) in Hcl.
  assert (getClientCountForUser u m = length (getUserClients u m)) as Hcount.
  { unfold getClientCountForUser, getUserClients.
    by destruct (userClients m !! u). }
  unfold JSSet.size in Hcl. rewrite length_app in Hcl. simpl in Hcl.
  destruct (decide (cfg_maxClientsPerUser (config m) ≤ getClientCountForUser u m))
    as [Hover|Hfits].
  2:{ rewrite decide_False in Hcl by lia. apply Hext; try done. by rewrite Hcl. }
  rewrite decide_True in Hcl by lia.
  assert (JSSet.first (getUserClients u m ++ [c_id client])
          = JSSet.first (getUserClients u m)) as Hfirst.
  { destruct (getUserClients u m) as [|x l] eqn:E; [|done].
    simpl in Hcount. lia. }
  rewrite Hfirst in Hcl.
  destruct (truthy (JSSet.first (getUserClients u m))) as [oldest|] eqn:Eo.
  2:{ apply Hext; try done. by rewrite Hcl. }
  pose proof (stable_remove oldest _ Hok) as (_ & _ & Hu3 & Hs3).
  destruct (removeClient_env oldest m) as (? & ? & ? & ? & ?).
  apply Hext; try done.
  rewrite Hcl, delete_delete, Hback. by rewrite removeClient_clients.
Qed.

Lemma add_then_remove_witness :
  let client := sampleClient "c4" (Some "A") (Some "s1") 4 true in
  1 ≤ default 5 (opt_maxClientsPerUser defaults)
  ∧ reachable defaults threeClients
  ∧ (c_id client ∉ JSMap.keys (clients threeClients))
  ∧ removeClient (c_id client) (addClient client threeClients)
    = match truthy (c_userId client) with
      | Some u =>
          if decide (cfg_maxClientsPerUser (config threeClients)
                     ≤ getClientCountForUser u threeClients)
          then match truthy (JSSet.first (getUserClients u threeClients)) with
               | Some oldest => removeClient oldest threeClients
               | None => threeClients
               end
          else threeClients
      | None => threeClients
      end.
Proof.
  cbv zeta.
  assert (1 ≤ default 5 (opt_maxClientsPerUser defaults)) as H1 by (simpl; lia).
  assert (reachable defaults threeClients) as H2 by (by eexists).
  assert (c_id (sampleClient "c4" (Some "A") (Some "s1") 4 true)
          ∉ JSMap.keys (clients threeClients)) as H3
    by (apply (bool_decide_unpack _); by vm_compute).
  split; [exact H1|]. split; [exact H2|]. split; [exact H3|].
  exact (add_then_remove defaults (sampleClient "c4" (Some "A") (Some "s1") 4 true)
           threeClients H1 H2 H3).
Defined.

(** * The wire format: different events, different frames *)

Lemma formatSSEEvent_injective_witness :
  wireSafe notification ∧ wireSafe (mkEvent None "notification" "{}" None)
  ∧ formatSSEEvent notification = formatSSEEvent (mkEvent None "notification" "{}" None)
  ∧ notification = mkEvent None "notification" "{}" None.
Proof.
  assert (wireSafe notification) as H1 by (by split_and!).
  assert (formatSSEEvent notification
          = formatSSEEvent (mkEvent None "notification" "{}" None)) as H2
    by reflexivity.
  split; [exact H1|]. split; [exact H1|]. split; [exact H2|].
  exact (formatSSEEvent_injective notification _ H1 H1 H2).
Defined.

(** * The service reaches the connections of the user, and no other *)

Section ServiceReach.
Context {Payload : Type}.
Context (stringifyEvent : Payload → Z → option string).
Context (stringifyEnvelope : string → string → Payload → Z → option string).
Context {A : Type} `{SSEStorageAdapter A}.

Lemma sendToUser_io clock userId event m :
  usersOk m →
  io (sendToUser clock userId event m)
  = io m ++ deliveries event m
              (filter (λ kc, truthy (c_userId kc.2) = Some userId) (clients m)).
Proof.
  intros [Hk Hu]. unfold sendToUser. pose proof (Hu userId) as Hix.
  destruct (userClients m !! userId) as [s|] eqn:E.
  - symmetry in Hix. apply nonempty_Some in Hix as [-> _].
    rewrite fanout_io by (by apply NoDup_idsBy). f_equal.
    apply attempts_deliveries. by apply filter_elem_get.
  - symmetry in Hix. apply nonempty_None in Hix.
    apply fmap_nil_inv in Hix. rewrite Hix. unfold deliveries.
    by rewrite app_nil_r.
Qed.

(** X17: In every state of the registry of the service, a send of the service
    whose payload serializes (each typed wrapper, [sendSystemAlert]
    included, is such a send) returns [true]; for a user id other than the
    empty string it writes the event once to every connection whose
    [userId] is that id and whose [isConnected] flag is on, and to no other
    connection; for the empty string it writes to no connection; it leaves
    every connection whose [userId] is not the id given as it was; and this
    whether or not the adapter is available and whatever its [publish]
    does. *)
Theorem service_send_reaches_the_user o now clock later userId eventType data
    payload (s : SSEService (A := A)) :
  reachable o (sseManager s) →
  stringifyEvent data now = Some payload →
  let r := serviceSendToUser stringifyEvent stringifyEnvelope
             now clock later userId eventType data s in
  let event := mkEvent None eventType payload None in
  r.1 = true
  ∧ io (sseManager r.2)
    = io (sseManager s)
      ++ deliveries event (sseManager s)
           (filter (λ kc, truthy (c_userId kc.2) = Some userId)
              (clients (sseManager s)))
  ∧ (∀ clientId c,
       JSMap.get clientId (clients (sseManager s)) = Some c →
       c_userId c ≠ Some userId →
       untouched clientId (sseManager s) (sseManager r.2))
  ∧ reachable o (sseManager r.2)
  ∧ sendSystemAlert stringifyEvent stringifyEnvelope now clock later userId data s
    = serviceSendToUser stringifyEvent stringifyEnvelope
        now clock later userId "system_alert" data s.
Proof.
  intros Hr Hpayload. cbv zeta.
  destruct (serviceSendToUser_delivered stringifyEvent stringifyEnvelope
              now clock later userId eventType data payload s Hpayload) as [Hok ->].
  pose proof (reachable_usersOk _ _ Hr) as Hu.
  split_and!; [done| by apply sendToUser_io | | | done].
  - intros clientId c Hget Hne. by eapply sendToUser_untouched.
  - destruct Hr as [calls ->].
    exists (calls ++ [SendToUser clock userId (mkEvent None eventType payload None)]).
    unfold run. by rewrite foldl_app.
Qed.
End ServiceReach.

Lemma service_send_reaches_the_user_witness :
  let s := mkService threeClients (mkBroken true) in
  reachable defaults (sseManager s)
  ∧ echoPayload "{}" 5%Z = Some "{}"
  ∧ let r := serviceSendToUser echoPayload echoEnvelope 5%Z at9 9%Z "A" "system_alert"
               "{}" s in
    let event := mkEvent None "system_alert" "{}" None in
    r.1 = true
    ∧ io (sseManager r.2)
      = io (sseManager s)
        ++ deliveries event (sseManager s)
             (filter (λ kc, truthy (c_userId kc.2) = Some "A") (clients (sseManager s)))
    ∧ (∀ clientId c,
         JSMap.get clientId (clients (sseManager s)) = Some c →
         c_userId c ≠ Some "A" →
         untouched clientId (sseManager s) (sseManager r.2))
    ∧ reachable defaults (sseManager r.2)
    ∧ sendSystemAlert echoPayload echoEnvelope 5%Z at9 9%Z "A" "{}" s
      = serviceSendToUser echoPayload echoEnvelope 5%Z at9 9%Z "A" "system_alert" "{}" s.
Proof.
  cbv zeta.
  assert (reachable defaults (sseManager (mkService threeClients (mkBroken true))))
    as H1 by (by eexists).
  assert (echoPayload "{}" 5%Z = Some "{}") as H2 by reflexivity.
  split; [exact H1|]. split; [exact H2|].
  exact (service_send_reaches_the_user echoPayload echoEnvelope defaults 5%Z at9 9%Z
           "A" "system_alert" "{}" "{}" (mkService threeClients (mkBroken true)) H1 H2).
Defined.

(** * The storage adapters *)

(** ** The buffer keeps the latest events *)

Lemma sliceFrom_last {X} (n : Z) (l : list X) :
  (1 ≤ n)%Z → sliceFrom (- n) l = drop (length l - Z.to_nat n) l.
Proof.
  intros Hn. unfold sliceFrom.
  assert ((- n <? 0)%Z = true) as -> by (apply Z.ltb_lt; lia).
  f_equal. lia.
Qed.

Lemma pushEvent_last maxEvents e events :
  (1 ≤ maxEvents)%Z →
  pushEvent maxEvents e events
  = drop (S (length events) - Z.to_nat maxEvents) (events ++ [e]).
Proof.
  intros Hmax. unfold pushEvent.
  destruct (decide _) as [Hover|Hfits].
  - rewrite sliceFrom_last by done. f_equal. rewrite length_app. simpl. lia.
  - rewrite length_app in Hfits. simpl in Hfits.
    replace (S (length events) - Z.to_nat maxEvents) with 0 by lia. done.
Qed.

Lemma pushEvent_zero e events : pushEvent 0 e events = events ++ [e].
Proof. unfold pushEvent. by destruct (decide _). Qed.

Lemma drop_last_snoc {X} (n : nat) (l : list X) (x : X) :
  1 ≤ n →
  drop (S (length (drop (length l - n) l)) - n) (drop (length l - n) l ++ [x])
  = drop (length (l ++ [x]) - n) (l ++ [x]).
Proof.
  intros Hn. rewrite length_drop, length_app. simpl.
  destruct (decide (length l < n)) as [Hlt|Hge].
  - replace (length l - n) with 0 by lia. rewrite drop_0. f_equal. lia.
  - replace (S (length l - (length l - n)) - n) with 1 by lia.
    replace (length l + 1 - n) with (S (length l - n)) by lia.
    rewrite (drop_app_le l [x] (S (length l - n))) by lia.
    assert (∃ y l', drop (length l - n) l = y :: l') as (y & l' & Hd).
    { destruct (drop (length l - n) l) as [|y l'] eqn:E; [|by eauto].
      apply (f_equal length) in E. rewrite length_drop in E. simpl in E. lia. }
    rewrite Hd. simpl. rewrite drop_0. f_equal.
    change (S (length l - n)) with (1 + (length l - n)).
    rewrite Nat.add_comm, <- drop_drop, Hd. done.
Qed.

Lemma published_snoc calls c :
  published (calls ++ [c])
  = match c with
    | Publish idTime rnd now channel message =>
        published calls ++ [storedEvent idTime rnd now channel message]
    | ClearEvents => []
    | _ => published calls
    end.
Proof. unfold published. by rewrite foldl_app. Qed.

Lemma memoryRun_maxEvents calls a :
  mem_maxEvents (foldl memoryStep a calls) = mem_maxEvents a.
Proof.
  revert a. induction calls as [|c calls IH]; intros a; simpl; [done|].
  rewrite IH. by destruct c.
Qed.

(** X18: With room for at least one event, after any sequence of calls the
    buffer of the memory adapter holds the latest [maxEvents] of the events
    published since it was last cleared, oldest first, and all of them while
    they are fewer. *)
Theorem memory_keeps_latest maxEvents throwing clock rnd calls :
  (1 ≤ maxEvents)%Z →
  let a := foldl memoryStep (Memory.new (Some maxEvents) throwing clock rnd) calls in
  mem_events a
  = drop (length (published calls) - Z.to_nat maxEvents) (published calls)
  ∧ length (mem_events a) ≤ Z.to_nat maxEvents.
Proof.
  intros Hmax. cbv zeta.
  assert (mem_events (foldl memoryStep (Memory.new (Some maxEvents) throwing clock rnd) calls)
          = drop (length (published calls) - Z.to_nat maxEvents) (published calls))
    as Hev.
  { induction calls as [|c calls IH] using rev_ind; [done|].
    rewrite foldl_app, published_snoc. simpl.
    destruct c as [idTime r now channel message| | |]; simpl; try done.
    rewrite memoryRun_maxEvents. simpl.
    rewrite pushEvent_last by done. rewrite IH.
    apply drop_last_snoc. lia. }
  split; [done|]. rewrite Hev, length_drop. lia.
Qed.

Lemma memory_keeps_latest_witness :
  (1 ≤ 2)%Z
  ∧ let calls := [ Publish 1 "0.1" 1 "a" "m1"; Publish 2 "0.2" 2 "b" "m2";
                   Subscribe "a" 7; Publish 3 "0.3" 3 "a" "m3" ] in
    let a := foldl memoryStep (Memory.new (Some 2%Z) ∅ 0%Z "0") calls in
    mem_events a = drop (length (published calls) - Z.to_nat 2) (published calls)
    ∧ length (mem_events a) ≤ Z.to_nat 2.
Proof.
  assert (1 ≤ 2)%Z as H by lia.
  split; [exact H|].
  exact (memory_keeps_latest 2 ∅ 0 "0"
           [ Publish 1 "0.1" 1 "a" "m1"; Publish 2 "0.2" 2 "b" "m2";
             Subscribe "a" 7; Publish 3 "0.3" 3 "a" "m3" ] H).
Defined.

(** X19: With [maxEvents = 0] the buffer is not empty but unbounded:
    [events.slice(-0)] is the whole array, so after any sequence of calls the
    memory adapter holds every event published since it was last
    cleared. *)
Theorem memory_zero_keeps_everything throwing clock rnd calls :
  mem_events (foldl memoryStep (Memory.new (Some 0%Z) throwing clock rnd) calls)
  = published calls.
Proof.
  induction calls as [|c calls IH] using rev_ind; [done|].
  rewrite foldl_app, published_snoc. simpl.
  destruct c as [idTime r now channel message| | |]; simpl; try done.
  rewrite memoryRun_maxEvents. simpl. by rewrite pushEvent_zero, IH.
Qed.

(** ** [getChannelEvents] *)

Lemma insertByTimestamp_elem e sorted x :
  x ∈ insertByTimestamp e sorted ↔ x = e ∨ x ∈ sorted.
Proof.
  induction sorted as [|y sorted IH]; simpl.
  - rewrite list_elem_of_singleton, elem_of_nil. tauto.
  - destruct (se_timestamp y <=? se_timestamp e)%Z.
    + by rewrite elem_of_cons.
    + rewrite !elem_of_cons, IH. tauto.
Qed.

Lemma sortNewestFirst_elem events x : x ∈ sortNewestFirst events ↔ x ∈ events.
Proof.
  induction events as [|e events IH]; simpl; [done|].
  rewrite insertByTimestamp_elem, elem_of_cons, IH. done.
Qed.

Lemma sortNewestFirst_length events : length (sortNewestFirst events) = length events.
Proof.
  induction events as [|e events IH]; simpl; [done|]. rewrite <- IH.
  generalize (sortNewestFirst events). intros sorted.
  induction sorted as [|y sorted IHs]; simpl; [done|].
  destruct (se_timestamp y <=? se_timestamp e)%Z; simpl; [done|]. by rewrite IHs.
Qed.

Lemma insertByTimestamp_sorted e sorted :
  StronglySorted newerFirst sorted →
  StronglySorted newerFirst (insertByTimestamp e sorted).
Proof.
  induction 1 as [|y sorted Hs IH Hy]; simpl.
  - repeat constructor.
  - destruct (se_timestamp y <=? se_timestamp e)%Z eqn:E.
    + apply Z.leb_le in E. constructor; [by constructor|].
      constructor; [done|]. eapply Forall_impl; [exact Hy|].
      unfold newerFirst. intros z Hz. lia.
    + apply Z.leb_gt in E. constructor; [done|].
      apply Forall_forall. intros z Hz.
      apply insertByTimestamp_elem in Hz as [->|Hz].
      * unfold newerFirst. lia.
      * by apply (proj1 (Forall_forall _ _) Hy).
Qed.

Lemma sortNewestFirst_sorted events : StronglySorted newerFirst (sortNewestFirst events).
Proof.
  induction events as [|e events IH]; simpl; [constructor|].
  by apply insertByTimestamp_sorted.
Qed.

Lemma in_take {X} n (l : list X) x : x ∈ take n l → x ∈ l.
Proof. apply subseteq_take. Qed.

Lemma in_drop {X} n (l : list X) x : x ∈ drop n l → x ∈ l.
Proof. apply subseteq_drop. Qed.

Lemma take_sorted {X} (R : X → X → Prop) n (l : list X) :
  StronglySorted R l → StronglySorted R (take n l).
Proof.
  intros Hs. revert n. induction Hs as [|x l Hs IH Hx]; intros [|n]; simpl;
    try constructor; [apply IH|].
  apply Forall_forall. intros y Hy. apply (proj1 (Forall_forall _ _) Hx).
  by apply in_take in Hy.
Qed.

Lemma sliceTo_take {X} (stop : Z) (l : list X) : ∃ n, sliceTo stop l = take n l
  ∧ ((0 ≤ stop)%Z → n = Z.to_nat stop).
Proof.
  unfold sliceTo. destruct (stop <? 0)%Z eqn:E.
  - eexists. split; [done|]. apply Z.ltb_lt in E. lia.
  - by eexists.
Qed.

(** X20: [getChannelEvents(channel, limit)] of the memory adapter returns events
    of the buffer that belong to the channel, each as
    [{event, data, id}], from the newest to the oldest, and no more than
    [limit] of them (10 when [limit] is left out). *)
Theorem getChannelEvents_selects channel limit a :
  (0 ≤ default 10%Z limit)%Z →
  ∃ selected,
    Memory.getChannelEvents channel limit a = toSSEEvent <$> selected
    ∧ (∀ e, e ∈ selected → e ∈ mem_events a ∧ se_channel e = channel)
    ∧ StronglySorted newerFirst selected
    ∧ length selected
      = Z.to_nat (default 10%Z limit)
        `min` length (filter (λ e, se_channel e = channel) (mem_events a)).
Proof.
  intros Hlimit. exists (channelEvents channel limit (mem_events a)).
  unfold Memory.getChannelEvents, channelEvents.
  destruct (sliceTo_take (default 10%Z limit)
              (sortNewestFirst (filter (λ e, se_channel e = channel) (mem_events a))))
    as (n & -> & Hn).
  rewrite (Hn Hlimit). split_and!.
  - done.
  - intros e He. apply in_take in He.
    apply sortNewestFirst_elem, list_elem_of_filter in He. tauto.
  - apply take_sorted, sortNewestFirst_sorted.
  - by rewrite length_take, sortNewestFirst_length.
Qed.

Lemma getChannelEvents_selects_witness :
  (0 ≤ default 10%Z (Some 1%Z))%Z
  ∧ let a := foldl memoryStep (Memory.new None ∅ 0%Z "0")
               [ Publish 1 "0.1" 1 "a" "m1"; Publish 2 "0.2" 2 "b" "m2";
                 Publish 3 "0.3" 3 "a" "m3" ] in
    ∃ selected,
      Memory.getChannelEvents "a" (Some 1%Z) a = toSSEEvent <$> selected
      ∧ (∀ e, e ∈ selected → e ∈ mem_events a ∧ se_channel e = "a")
      ∧ StronglySorted newerFirst selected
      ∧ length selected
        = Z.to_nat (default 10%Z (Some 1%Z))
          `min` length (filter (λ e, se_channel e = "a") (mem_events a)).
Proof.
  assert (0 ≤ default 10%Z (Some 1%Z))%Z as H by (simpl; lia).
  split; [exact H|].
  exact (getChannelEvents_selects "a" (Some 1%Z) _ H).
Defined.

(** ** The latest event of a channel *)

Lemma sortNewestFirst_newest events e :
  (∀ x, x ∈ events → (se_timestamp x < se_timestamp e)%Z) →
  sortNewestFirst (events ++ [e]) = e :: sortNewestFirst events.
Proof.
  induction events as [|a events IH]; intros Hall; simpl; [done|].
  rewrite IH by (intros x Hx; apply Hall; by right). simpl.
  assert ((se_timestamp e <=? se_timestamp a)%Z = false) as ->; [|done].
  apply Z.leb_gt. apply Hall. by left.
Qed.

Lemma pushEvent_suffix maxEvents e events :
  (0 ≤ maxEvents)%Z →
  ∃ k, pushEvent maxEvents e events = drop k events ++ [e].
Proof.
  intros Hmax. destruct (decide (maxEvents = 0%Z)) as [->|Hne].
  - exists 0. by rewrite pushEvent_zero, drop_0.
  - rewrite pushEvent_last by lia.
    exists (S (length events) - Z.to_nat maxEvents).
    rewrite drop_app_le; [done|]. lia.
Qed.

Lemma channelEvents_latest channel maxEvents events e :
  (0 ≤ maxEvents)%Z →
  se_channel e = channel →
  (∀ x, x ∈ events → se_channel x = channel →
        (se_timestamp x < se_timestamp e)%Z) →
  channelEvents channel (Some 1%Z) (pushEvent maxEvents e events) = [e].
Proof.
  intros Hmax Hch Hnew.
  destruct (pushEvent_suffix maxEvents e events Hmax) as [k ->].
  unfold channelEvents. rewrite filter_app, filter_cons, filter_nil.
  rewrite decide_True by done.
  rewrite sortNewestFirst_newest; [done|].
  intros x Hx. apply list_elem_of_filter in Hx as [Hxc Hx].
  apply Hnew; [|done]. by apply in_drop in Hx.
Qed.

(** X21: An event published to the memory adapter with a time stamp later than
    those of its channel in the buffer is what
    [getChannelEvents(channel, 1)] returns afterwards, for every
    [maxEvents] that is not negative. *)
Theorem publish_then_latest idTime rnd now channel message a :
  (0 ≤ mem_maxEvents a)%Z →
  (∀ x, x ∈ mem_events a → se_channel x = channel → (se_timestamp x < now)%Z) →
  let r := Memory.publish idTime rnd now channel message a in
  r.1 = true
  ∧ Memory.getChannelEvents channel (Some 1%Z) r.2
    = [ {| e_id := Some (channel +:+ "-" +:+ numberToString idTime +:+ "-" +:+ rnd);
           e_event := channel; e_data := message; e_retry := None |} ].
Proof.
  intros Hmax Hnew. cbv zeta. split; [done|].
  unfold Memory.getChannelEvents, Memory.publish. simpl.
  by rewrite (channelEvents_latest channel) by done.
Qed.

Lemma publish_then_latest_witness :
  let a := foldl memoryStep (Memory.new None ∅ 0%Z "0")
             [ Publish 1 "0.1" 1 "a" "m1"; Publish 2 "0.2" 2 "b" "m2" ] in
  (0 ≤ mem_maxEvents a)%Z
  ∧ (∀ x, x ∈ mem_events a → se_channel x = "a" → (se_timestamp x < 3)%Z)
  ∧ let r := Memory.publish 3 "0.3" 3 "a" "m3" a in
    r.1 = true
    ∧ Memory.getChannelEvents "a" (Some 1%Z) r.2
      = [ {| e_id := Some ("a" +:+ "-" +:+ numberToString 3 +:+ "-" +:+ "0.3");
             e_event := "a"; e_data := "m3"; e_retry := None |} ].
Proof.
  cbv zeta.
  set (a := foldl memoryStep (Memory.new None ∅ 0%Z "0")
              [ Publish 1 "0.1" 1 "a" "m1"; Publish 2 "0.2" 2 "b" "m2" ]).
  assert (0 ≤ mem_maxEvents a)%Z as H1 by (vm_compute; discriminate).
  assert (∀ x, x ∈ mem_events a → se_channel x = "a" → (se_timestamp x < 3)%Z) as H2.
  { intros x Hx Hc. vm_compute in Hx.
    apply elem_of_cons in Hx as [->|Hx]; [vm_compute; reflexivity|].
    apply elem_of_cons in Hx as [->|Hx]; [vm_compute; reflexivity|].
    by apply elem_of_nil in Hx. }
  split; [exact H1|]. split; [exact H2|].
  exact (publish_then_latest 3 "0.3" 3 "a" "m3" a H1 H2).
Defined.

Lemma pushEvent_keeps maxEvents e events :
  (1 ≤ maxEvents)%Z →
  pushEvent maxEvents e events
  = drop (S (length events) - Z.to_nat maxEvents) events ++ [e].
Proof.
  intros Hmax. rewrite pushEvent_last by done. rewrite drop_app_le; [done|]. lia.
Qed.

Lemma pushEvent_twice maxEvents e1 e2 events :
  maxEvents = 0%Z ∨ (2 ≤ maxEvents)%Z →
  ∃ k, pushEvent maxEvents e2 (pushEvent maxEvents e1 events)
       = drop k events ++ [e1; e2].
Proof.
  intros [->|Hmax].
  - exists 0. rewrite !pushEvent_zero, drop_0. by rewrite <- app_assoc.
  - rewrite (pushEvent_keeps _ e1) by lia.
    set (k := S (length events) - Z.to_nat maxEvents).
    rewrite (pushEvent_keeps _ e2) by lia.
    rewrite length_app, length_drop. simpl.
    exists (S (length events - k + 1) - Z.to_nat maxEvents + k).
    rewrite drop_app_le by (rewrite length_drop; lia).
    rewrite drop_drop, <- app_assoc. simpl. do 2 f_equal. lia.
Qed.

Lemma sortNewestFirst_tie events e1 e2 :
  se_timestamp e1 = se_timestamp e2 →
  (∀ x, x ∈ events → (se_timestamp x < se_timestamp e1)%Z) →
  sortNewestFirst (events ++ [e1; e2]) = e1 :: e2 :: sortNewestFirst events.
Proof.
  intros Htie. induction events as [|a events IH]; intros Hall; simpl.
  - assert ((se_timestamp e2 <=? se_timestamp e1)%Z = true) as ->; [|done].
    apply Z.leb_le. lia.
  - rewrite IH by (intros x Hx; apply Hall; by right). simpl.
    assert (se_timestamp a < se_timestamp e1)%Z as Ha by (apply Hall; by left).
    assert ((se_timestamp e1 <=? se_timestamp a)%Z = false) as ->
      by (apply Z.leb_gt; lia).
    assert ((se_timestamp e2 <=? se_timestamp a)%Z = false) as ->
      by (apply Z.leb_gt; lia).
    done.
Qed.

(** X22: Two events of one channel published within the same millisecond, to a
    buffer with room for both: the sort keeps them in buffer order, so
    [getChannelEvents(channel, 1)] returns the first of the two, not the one
    published last. *)
Theorem same_millisecond_hides_the_latest idTime1 rnd1 idTime2 rnd2 now channel
    message1 message2 a :
  mem_maxEvents a = 0%Z ∨ (2 ≤ mem_maxEvents a)%Z →
  (∀ x, x ∈ mem_events a → se_channel x = channel → (se_timestamp x < now)%Z) →
  let a1 := (Memory.publish idTime1 rnd1 now channel message1 a).2 in
  let a2 := (Memory.publish idTime2 rnd2 now channel message2 a1).2 in
  e_data <$> Memory.getChannelEvents channel (Some 1%Z) a2 = [message1].
Proof.
  intros Hmax Hnew. cbv zeta.
  unfold Memory.getChannelEvents, Memory.publish. simpl.
  destruct (pushEvent_twice (mem_maxEvents a)
              (storedEvent idTime1 rnd1 now channel message1)
              (storedEvent idTime2 rnd2 now channel message2) (mem_events a) Hmax)
    as [k ->].
  unfold channelEvents. rewrite filter_app, !filter_cons, filter_nil.
  simpl. rewrite !decide_True by done.
  rewrite sortNewestFirst_tie; [done|done|].
  intros x Hx. apply list_elem_of_filter in Hx as [Hxc Hx]. simpl.
  apply Hnew; [|done]. by apply in_drop in Hx.
Qed.

Lemma same_millisecond_hides_the_latest_witness :
  let a := Memory.new None ∅ 0%Z "0" in
  (mem_maxEvents a = 0%Z ∨ (2 ≤ mem_maxEvents a)%Z)
  ∧ (∀ x, x ∈ mem_events a → se_channel x = "a" → (se_timestamp x < 5)%Z)
  ∧ let a1 := (Memory.publish 5 "0.1" 5 "a" "first" a).2 in
    let a2 := (Memory.publish 5 "0.2" 5 "a" "second" a1).2 in
    e_data <$> Memory.getChannelEvents "a" (Some 1%Z) a2 = ["first"].
Proof.
  cbv zeta.
  assert (mem_maxEvents (Memory.new None ∅ 0%Z "0") = 0%Z
          ∨ (2 ≤ mem_maxEvents (Memory.new None ∅ 0%Z "0"))%Z) as H1
    by (right; simpl; lia).
  assert (∀ x, x ∈ mem_events (Memory.new None ∅ 0%Z "0") → se_channel x = "a" →
               (se_timestamp x < 5)%Z) as H2
    by (intros x Hx; by apply elem_of_nil in Hx).
  split; [exact H1|]. split; [exact H2|].
  exact (same_millisecond_hides_the_latest 5 "0.1" 5 "0.2" 5 "a" "first" "second"
           _ H1 H2).
Defined.

(** ** Subscribers *)

Lemma subscribed_snoc channel calls c :
  subscribed channel (calls ++ [c])
  = match c with
    | Subscribe ch callback =>
        if decide (ch = channel)
        then (if decide (callback ∈ subscribed channel calls)
              then subscribed channel calls
              else subscribed channel calls ++ [callback])
        else subscribed channel calls
    | Unsubscribe ch => if decide (ch = channel) then [] else subscribed channel calls
    | _ => subscribed channel calls
    end.
Proof. unfold subscribed. by rewrite foldl_app. Qed.

Lemma addSubscriber_lookup channel callback subscribers ch :
  default [] (addSubscriber channel callback subscribers !! ch)
  = if decide (channel = ch)
    then (let s := default [] (subscribers !! ch) in
          if decide (callback ∈ s) then s else s ++ [callback])
    else default [] (subscribers !! ch).
Proof.
  unfold addSubscriber. destruct (decide (channel = ch)) as [->|Hne].
  - rewrite lookup_insert_eq. simpl.
    destruct (subscribers !! ch) as [s|] eqn:E; simpl.
    + by rewrite E.
    + by rewrite lookup_insert_eq.
  - rewrite lookup_insert_ne by done.
    destruct (subscribers !! channel); [done|]. by rewrite lookup_insert_ne.
Qed.

Lemma memoryRun_subscribers maxEvents throwing clock rnd calls channel :
  default [] (mem_subscribers
                (foldl memoryStep (Memory.new maxEvents throwing clock rnd) calls)
              !! channel)
  = subscribed channel calls.
Proof.
  induction calls as [|c calls IH] using rev_ind; [done|].
  rewrite foldl_app, subscribed_snoc. simpl.
  destruct c as [idTime r now ch message|ch callback|ch|]; simpl; try done.
  - rewrite addSubscriber_lookup, IH. simpl.
    by destruct (decide (ch = channel)).
  - destruct (decide (ch = channel)) as [->|Hne].
    + by rewrite lookup_delete_eq.
    + by rewrite lookup_delete_ne.
Qed.

Lemma memoryRun_throwing calls a :
  mem_throwing (foldl memoryStep a calls) = mem_throwing a.
Proof.
  revert a. induction calls as [|c calls IH]; intros a; simpl; [done|].
  rewrite IH. by destruct c.
Qed.

(** X23: After any sequence of calls, a [publish] on the memory adapter resolves
    to [true] and calls, with the message, each callback subscribed to the
    channel since the channel was last unsubscribed: once, in the order of
    subscription, whether callbacks throw or not, and no callback of
    another channel.  [unsubscribe(channel)] takes every callback of the
    channel off, and subscribing a callback twice has it called once. *)
Theorem publish_notifies_subscribers maxEvents throwing clock rnd calls
    idTime r now channel message :
  let a := foldl memoryStep (Memory.new maxEvents throwing clock rnd) calls in
  let p := Memory.publish idTime r now channel message a in
  p.1 = true
  ∧ mem_notified p.2
    = mem_notified a
      ++ ((λ callback, Notify callback message (bool_decide (callback ∉ throwing)))
            <$> subscribed channel calls)
  ∧ NoDup (subscribed channel calls).
Proof.
  cbv zeta. split_and!; [done| |].
  - unfold Memory.publish. simpl. f_equal. unfold notifySubscribers.
    rewrite memoryRun_throwing. simpl.
    pose proof (memoryRun_subscribers maxEvents throwing clock rnd calls channel) as Hs.
    destruct (mem_subscribers _ !! channel) as [s|]; simpl in Hs; by rewrite <- Hs.
  - induction calls as [|c calls IH] using rev_ind; [apply NoDup_nil_2|].
    rewrite subscribed_snoc.
    destruct c as [| ch callback | ch |]; try done.
    + destruct (decide (ch = channel)); [|done].
      destruct (decide (callback ∈ subscribed channel calls)); [done|].
      apply NoDup_app. split_and!; [done| |apply NoDup_singleton].
      intros x Hx Hx'. apply list_elem_of_singleton in Hx' as ->. done.
    + destruct (decide (ch = channel)); [apply NoDup_nil_2|done].
Qed.

(** ** The JSON file follows the buffer *)

Lemma jsonFileStep_buffer a b c :
  jf_events a = jf_events b → jf_maxEvents a = jf_maxEvents b →
  jf_events (jsonFileStep a c) = jf_events (jsonFileStep b c)
  ∧ jf_maxEvents (jsonFileStep a c) = jf_maxEvents (jsonFileStep b c).
Proof.
  intros He Hm. destruct c; simpl; try done.
  - unfold JsonFile.saveEvents. simpl.
    destruct (jf_writable a), (jf_writable b); simpl; by rewrite He, Hm.
  - unfold JsonFile.clearEvents, JsonFile.saveEvents. simpl.
    by destruct (jf_writable a), (jf_writable b).
Qed.

Lemma jsonFileRun_buffer calls a b :
  jf_events a = jf_events b → jf_maxEvents a = jf_maxEvents b →
  jf_events (foldl jsonFileStep a calls) = jf_events (foldl jsonFileStep b calls).
Proof.
  revert a b. induction calls as [|c calls IH]; intros a b He Hm; simpl; [done|].
  destruct (jsonFileStep_buffer a b c He Hm). by apply IH.
Qed.

Lemma jsonFileRun_mirror calls a :
  jf_writable a = true → default [] (jf_file a) = jf_events a →
  default [] (jf_file (foldl jsonFileStep a calls))
  = jf_events (foldl jsonFileStep a calls).
Proof.
  revert a. induction calls as [|c calls IH]; intros a Hw Hf; simpl; [done|].
  apply IH; destruct c; simpl; try done;
    unfold JsonFile.clearEvents, JsonFile.saveEvents; simpl; by rewrite Hw.
Qed.

Lemma jsonFileRun_readonly calls a :
  jf_writable a = false → jf_file (foldl jsonFileStep a calls) = jf_file a.
Proof.
  revert a. induction calls as [|c calls IH]; intros a Hw; simpl; [done|].
  rewrite IH; destruct c; simpl; try done;
    unfold JsonFile.clearEvents, JsonFile.saveEvents; simpl; by rewrite Hw.
Qed.

(** X24: While the file can be written, after any sequence of calls the file of
    the JSON file adapter holds the buffer, so an adapter built on the same
    file afterwards starts with the same events; while the file cannot be
    written, the buffer goes through the same states and every [publish]
    still resolves to [true], but the file stays as it was. *)
Theorem jsonFile_restart filePath maxEvents file throwing calls
    filePath' maxEvents' writable' throwing' :
  let a := foldl jsonFileStep (JsonFile.new filePath maxEvents file true throwing)
             calls in
  let b := foldl jsonFileStep (JsonFile.new filePath maxEvents file false throwing)
             calls in
  jf_events (JsonFile.new filePath' maxEvents' (jf_file a) writable' throwing')
  = jf_events a
  ∧ jf_file b = file
  ∧ jf_events b = jf_events a
  ∧ ∀ idTime rnd now channel message,
      (JsonFile.publish idTime rnd now channel message b).1 = true.
Proof.
  cbv zeta. split_and!.
  - simpl. by apply jsonFileRun_mirror.
  - by rewrite jsonFileRun_readonly.
  - by apply jsonFileRun_buffer.
  - done.
Qed.

(** * The persisted client information is never cleared at start-up *)

Lemma get_message_None e : JSMap.get "message" (stringProperties e) = None.
Proof. unfold stringProperties. by destruct (e_id e). Qed.

(** X25: [loadClientInfo] leaves the client storage as it finds it, whatever the
    storage holds: the events [getChannelEvents] returns carry the saved
    text in [data] and have no [message], so the branch that clears the
    storage is never taken. *)
Theorem loadClientInfo_clears_nothing parses clientStorage :
  loadClientInfo parses clientStorage = clientStorage.
Proof.
  unfold loadClientInfo.
  destruct (JsonFile.getChannelEvents "client_info" (Some 1%Z) clientStorage)
    as [|e events]; [done|].
  by rewrite get_message_None.
Qed.

Lemma jsonFile_publish_latest idTime rnd now channel message a :
  (0 ≤ jf_maxEvents a)%Z →
  (∀ x, x ∈ jf_events a → se_channel x = channel → (se_timestamp x < now)%Z) →
  JsonFile.getChannelEvents channel (Some 1%Z)
    (JsonFile.publish idTime rnd now channel message a).2
  = [toSSEEvent (storedEvent idTime rnd now channel message)].
Proof.
  intros Hmax Hnew. unfold JsonFile.getChannelEvents, JsonFile.publish. simpl.
  assert (∀ b, jf_events (JsonFile.saveEvents b) = jf_events b) as Hsave
    by (intros b; unfold JsonFile.saveEvents; by destruct (jf_writable b)).
  rewrite Hsave. simpl.
  by rewrite (channelEvents_latest channel) by done.
Qed.

(** X26: On a client storage whose initial load has finished: a snapshot that
    [saveClientInfo] writes, with a time stamp later than those already in
    the channel, is still the latest event of the channel [client_info]
    after a following [loadClientInfo], and it is in the file when the file
    can be written.  (A snapshot written while the load that the
    constructor starts is still pending is outside this statement.) *)
Theorem saved_client_info_stays stringify parses stamp idTime rnd now m clientStorage :
  (0 ≤ jf_maxEvents clientStorage)%Z →
  (∀ x, x ∈ jf_events clientStorage → se_channel x = "client_info" →
        (se_timestamp x < now)%Z) →
  let saved := saveClientInfo stringify stamp idTime rnd now m clientStorage in
  let loaded := loadClientInfo parses saved in
  e_data <$> JsonFile.getChannelEvents "client_info" (Some 1%Z) loaded
  = [stringify (clientInfo stamp m)]
  ∧ jf_file loaded
    = if jf_writable clientStorage then Some (jf_events loaded)
      else jf_file clientStorage.
Proof.
  intros Hmax Hnew. cbv zeta.
  assert (∀ st, loadClientInfo parses st = st) as ->.
  { intros st. unfold loadClientInfo.
    destruct (JsonFile.getChannelEvents "client_info" (Some 1%Z) st); [done|].
    by rewrite get_message_None. }
  unfold saveClientInfo. split.
  - by rewrite jsonFile_publish_latest.
  - unfold JsonFile.publish, JsonFile.saveEvents. simpl.
    by destruct (jf_writable clientStorage).
Qed.

Lemma saved_client_info_stays_witness :
  let st := JsonFile.new "./sse-clients.json" (Some 1000%Z) None true ∅ in
  (0 ≤ jf_maxEvents st)%Z
  ∧ (∀ x, x ∈ jf_events st → se_channel x = "client_info" → (se_timestamp x < 5)%Z)
  ∧ let saved := saveClientInfo (λ _, "{}") 5 5 "0.5" 5 threeClients st in
    let loaded := loadClientInfo (λ _, true) saved in
    e_data <$> JsonFile.getChannelEvents "client_info" (Some 1%Z) loaded
    = [(λ _ : ClientInfo, "{}") (clientInfo 5 threeClients)]
    ∧ jf_file loaded
      = if jf_writable st then Some (jf_events loaded) else jf_file st.
Proof.
  cbv zeta.
  assert (0 ≤ jf_maxEvents (JsonFile.new "./sse-clients.json" (Some 1000%Z) None true ∅))%Z
    as H1 by (simpl; lia).
  assert (∀ x, x ∈ jf_events (JsonFile.new "./sse-clients.json" (Some 1000%Z) None true ∅) →
               se_channel x = "client_info" → (se_timestamp x < 5)%Z) as H2
    by (intros x Hx; by apply elem_of_nil in Hx).
  split; [exact H1|]. split; [exact H2|].
  exact (saved_client_info_stays (λ _, "{}") (λ _, true) 5 5 "0.5" 5 threeClients
           _ H1 H2).
Defined.

(** * Configuration *)

(** X27: Whatever the environment holds, the service built from it has a
    registry with the default configuration, and its adapter is the Redis
    adapter when [SSE_STORAGE_TYPE] is [redis] and otherwise the JSON file
    adapter on [./sse-events.json] with room for 1000 events:
    [SSE_STORAGE_TYPE=memory-only] does not select the memory adapter, and
    [SSE_JSON_FILE_PATH] and [SSE_MAX_EVENTS] do not reach the adapter.
    The constructor never throws on such a configuration. *)
Theorem service_from_environment parseInt env :
  newSSEService (Some (getSSEConfig parseInt env))
  = Some {| setup_manager := newSSEManager defaults;
            setup_adapter :=
              if decide (SSE_STORAGE_TYPE env = Some "redis")
              then NewRedisStorageAdapter
              else NewJsonFileStorageAdapter "./sse-events.json" (Num 1000) |}.
Proof.
  unfold newSSEService, getSSEConfig.
  destruct (SSE_STORAGE_TYPE env) as [t|]; simpl.
  - destruct (decide (t = "redis")) as [->|Hr].
    + by rewrite decide_True.
    + destruct (decide (Some t = Some "redis")) as [?|_]; [congruence|].
      by destruct (decide (t = "json-file")).
  - by destruct (decide (None = Some "redis")).
Qed.

(** * The hook of the browser side *)

Lemma lines_single s : hasLF s = false → lines s = [s].
Proof.
  induction s as [|c s IH]; simpl; [done|].
  intros H. apply orb_false_iff in H as [Hc Hs]. rewrite Hc, (IH Hs). done.
Qed.

(** X28: The text [JSON.stringify] gives for an object starts with a brace and
    holds no line break.  On a message whose data is such a text the hook
    finds no line that starts with one of its four prefixes, so the event it
    hands on has the name of the message and the empty string for its data:
    the payload is lost. *)
Theorem hook_drops_object_payload parseInt eventType rest :
  hasLF rest = false →
  parseSSEEvent parseInt (mkMessage eventType ("{" +:+ rest))
  = mkHookSSEEvent eventType "" None None.
Proof.
  intros Hrest. unfold parseSSEEvent. simpl.
  rewrite lines_single by (rewrite hasLF_append; by rewrite Hrest).
  unfold parseLine. by rewrite ?append_cons.
Qed.

Lemma hook_drops_object_payload_witness :
  hasLF (DQ +:+ "timestamp" +:+ DQ +:+ ":" +:+ numberToString 5 +:+ "}") = false
  ∧ parseSSEEvent (λ _, NaN)
      (mkMessage "heartbeat"
         ("{" +:+ (DQ +:+ "timestamp" +:+ DQ +:+ ":" +:+ numberToString 5 +:+ "}")))
    = mkHookSSEEvent "heartbeat" "" None None.
Proof.
  assert (hasLF (DQ +:+ "timestamp" +:+ DQ +:+ ":" +:+ numberToString 5 +:+ "}") = false)
    as H by (vm_compute; reflexivity).
  split; [exact H|].
  exact (hook_drops_object_payload (λ _, NaN) "heartbeat" _ H).
Defined.

(** X29: The heartbeat the registry broadcasts, as the browser delivers it to the
    hook: the time stamp does not get through. *)
Theorem hook_drops_heartbeat_payload parseInt stamp :
  parseSSEEvent parseInt
    (mkMessage (e_event (heartbeatEvent stamp)) (e_data (heartbeatEvent stamp)))
  = mkHookSSEEvent "heartbeat" "" None None.
Proof.
  unfold heartbeatEvent. simpl. unfold parseSSEEvent. simpl.
  rewrite lines_single.
  - unfold parseLine. by rewrite ?append_cons.
  - rewrite !hasLF_append, hasLF_number. done.
Qed.

(** * The hook: the reconnect timer never opens a connection *)

Lemma hookRun_invariant o evs :
  let st := foldl (hookStep o) hookInit evs in
  reconnectAttemptsRef st ≤ maxReconnectAttempts o
  ∧ (reconnectTimeoutRef st = true → is_Some (eventSourceRef st)).
Proof.
  cbv zeta. induction evs as [|ev evs IH] using rev_ind.
  - simpl. split; [lia|done].
  - rewrite foldl_app. simpl.
    destruct (foldl (hookStep o) hookInit evs) as [ref pending attempts c1 c2 err cr].
    simpl in IH. destruct IH as [Hle Hpending].
    destruct ev as [c| | |c|]; simpl.
    + unfold connect. simpl. destruct ref as [h|]; simpl; [done|].
      destruct c; simpl; split; try done; by eauto.
    + destruct ref; simpl; [|done]. split; [lia|done].
    + destruct ref as [h|]; simpl; [|done]. unfold onerror. simpl.
      destruct (autoReconnect o); simpl; [|done].
      case_bool_decide; simpl; [|done]. split; [lia|by eauto].
    + destruct pending; simpl; [|done].
      destruct (Hpending eq_refl) as [h ->]. unfold connect. simpl. done.
    + split; [lia|done].
Qed.

(** X30: Whatever happens to the hook, the number of reconnect attempts stays
    within [maxReconnectAttempts], and the reconnect timer finds the
    [EventSource] that reported the error still in [eventSourceRef] when it
    fires, so the [connect] it calls returns at once: the timer never
    constructs an [EventSource] and leaves the refs and the state as they
    are. *)
Theorem hook_reconnect_timer_is_idle o evs c :
  let st := foldl (hookStep o) hookInit evs in
  reconnectAttemptsRef st ≤ maxReconnectAttempts o
  ∧ hk_created (hookStep o st (TimerFires c)) = hk_created st
  ∧ eventSourceRef (hookStep o st (TimerFires c)) = eventSourceRef st
  ∧ reconnectAttemptsRef (hookStep o st (TimerFires c)) = reconnectAttemptsRef st
  ∧ hk_isConnected (hookStep o st (TimerFires c)) = hk_isConnected st
  ∧ hk_isConnecting (hookStep o st (TimerFires c)) = hk_isConnecting st.
Proof.
  cbv zeta. destruct (hookRun_invariant o evs) as [Hle Hpending].
  split; [done|]. simpl.
  destruct (reconnectTimeoutRef (foldl (hookStep o) hookInit evs)); [|done].
  destruct (Hpending eq_refl) as [h Hh]. unfold connect. simpl. by rewrite Hh.
Qed.
